(** * Output descriptors: a shallow embedding of [src/index.ts]

    The first part embeds the program.  It follows the source file:
    [countNonPushOnlyOPs] and the resource limits, [evaluate] (checksum
    removal and range particularisation) and the [Descriptor] class that
    [DescriptorsFactory] returns (the constructor with its eight productions,
    the time constraints, the satisfaction, [updatePsbt],
    [finalizePsbtInput], [expand]).  What [index.ts] imports is a parameter
    of the embedding (the classes [JsRuntime] and [Collaborators]), except
    for the checksum and the selection made by the satisfier, which are
    modelled from the specification.

    Thrown [Error]s are values of an error monad, [updatePsbt] runs in a
    state and error monad over the [Psbt] it mutates; strings are [string],
    [Buffer]s are lists of bytes, and a JavaScript number is an integer of
    [Z] or a non-integral value.

    The second part states and proves the properties; the last two modules
    run the model on sample descriptors. *)

From Stdlib Require Import ZArith List String Ascii Bool Lia DecimalString.
From Stdlib Require Strings.Byte.
From Stdlib Require Import Init.Byte.
Import ListNotations.
Open Scope string_scope.
Open Scope list_scope.
Open Scope Z_scope.

(* ===================================================================== *)
(** ** Thrown errors and the error monad *)

(** One constructor per [throw new Error(...)] site of [index.ts], plus
    [ErrCollaborator] for an exception raised inside a collaborator
    (bitcoinjs-lib, the key-expression parser, the miniscript modules). *)
Inductive Error : Type :=
| ErrCouldNotDecompile
| ErrNoChecksum
| ErrInvalidChecksum
| ErrIndexNotProvided
| ErrInvalidIndex
| ErrInvalidDescriptorType
| ErrCouldNotGetAddress
| ErrInvalidAddress
| ErrKeyExpressionNotExtracted
| ErrInvalidExpression
| ErrNoRedeemScript
| ErrCouldNotGetMiniscript
| ErrMiniscriptOnlyInWsh
| ErrScriptTooLarge (byteLength : Z)
| ErrP2SHScriptTooLarge (byteLength : Z)
| ErrTooManyNonPushOps (nonPushOnlyOps : Z)
| ErrRedeemScriptNotSet
| ErrCouldNotParse
| ErrNotExpandedTimeConstraints
| ErrNoAddress
| ErrNoOutputScript
| ErrNotExpandedSatisfaction
| ErrNoValidSatisfaction
| ErrSegwitUndetermined
| ErrNoVout
| ErrLocktimeAlreadySet (locktime : Z)
| ErrIncompatibleSequence (inputSequence txLockTime : Z)
| ErrNoSignatures
| ErrUnresolvableMiniscript
| ErrCollaborator (msg : string).

Inductive Result (A : Type) : Type :=
| Ok (a : A)
| Throw (e : Error).
Arguments Ok {A} a.
Arguments Throw {A} e.

Definition bind {A B : Type} (r : Result A) (k : A -> Result B) : Result B :=
  match r with
  | Ok a => k a
  | Throw e => Throw e
  end.

Notation "x <- r ;; k" := (bind r (fun x => k))
  (at level 61, r at next level, right associativity).
Notation "' pat <- r ;; k" := (bind r (fun x => match x with pat => k end))
  (at level 61, pat pattern, r at next level, right associativity).

Definition throws {A : Type} (r : Result A) : Prop :=
  match r with
  | Ok _ => False
  | Throw _ => True
  end.

Definition succeeds {A : Type} (r : Result A) : Prop :=
  match r with
  | Ok _ => True
  | Throw _ => False
  end.

(** [try { x = f() } catch (e) {}]: the assignment happens only when [f]
    returns; otherwise the previous value of [x] is kept. *)
Definition try_assign {A : Type} (previous : option A) (attempt : Result A)
  : option A :=
  match attempt with
  | Ok a => Some a
  | Throw _ => previous
  end.

(* ===================================================================== *)
(** ** Strings and buffers *)

Definition Buffer : Type := list byte.

Definition byteLength (b : Buffer) : Z := Z.of_nat (List.length b).

(** [Buffer.alloc(size, 0)] *)
Definition Buffer_alloc (size : nat) : Buffer := repeat x00 size.

Definition hexDigit (n : N) : ascii :=
  match String.get (N.to_nat n) "0123456789abcdef" with
  | Some a => a
  | None => "0"%char
  end.

(** [buffer.toString('hex')] *)
Fixpoint Buffer_toHex (b : Buffer) : string :=
  match b with
  | nil => ""
  | x :: rest =>
      let n := Byte.to_N x in
      String (hexDigit (N.div n 16)) (String (hexDigit (N.modulo n 16))
        (Buffer_toHex rest))
  end.

(** [s.substring(start, end)] for [0 <= start <= end]. *)
Definition js_substring (s : string) (starts ends : nat) : string :=
  String.substring starts (ends - starts) s.

(** [s.substring(start)] *)
Definition js_substring_from (s : string) (starts : nat) : string :=
  String.substring starts (String.length s - starts) s.

Definition star : ascii := "*"%char.

(** [s.match(/\*/g)]: the list of matches, one per occurrence of the star. *)
Fixpoint match_all_star (s : string) : list string :=
  match s with
  | EmptyString => nil
  | String c rest =>
      if Ascii.eqb c star then "*" :: match_all_star rest
      else match_all_star rest
  end.

(** [s.replaceAll('*', by)] *)
Fixpoint replaceAll_star (s : string) (by_ : string) : string :=
  match s with
  | EmptyString => EmptyString
  | String c rest =>
      if Ascii.eqb c star then String.append by_ (replaceAll_star rest by_)
      else String c (replaceAll_star rest by_)
  end.

Fixpoint string_forallb (p : ascii -> bool) (s : string) : bool :=
  match s with
  | EmptyString => true
  | String c rest => p c && string_forallb p rest
  end.

Fixpoint string_mem (ch : ascii) (s : string) : bool :=
  match s with
  | EmptyString => false
  | String c rest => Ascii.eqb c ch || string_mem ch rest
  end.

(** [s.indexOf(ch)] for a single character, [None] standing for [-1]. *)
Fixpoint indexOf (ch : ascii) (s : string) : option Z :=
  match s with
  | EmptyString => None
  | String c rest =>
      if Ascii.eqb c ch then Some 0 else option_map Z.succ (indexOf ch rest)
  end.

(** [s[i]], the empty string standing for [undefined] when appended. *)
Definition charAt (s : string) (i : Z) : string :=
  match String.get (Z.to_nat i) s with
  | Some a => String a EmptyString
  | None => EmptyString
  end.

(* ===================================================================== *)
(** ** JavaScript numbers *)

(** The [index] argument is a JavaScript number.  [evaluate] only asks
    whether it is integral and, if so, compares it with zero and prints it;
    so a number is either an integral value or anything else (a fractional
    value, NaN, an infinity), known by the text it prints as.  [JsInt z] is
    the number that the integer [z] denotes: [z] itself up to [2^53] in
    magnitude, and above that the double nearest to [z] (below [2^1024]). *)
Inductive JsNumber : Type :=
| JsInt (z : Z)
| JsNonInt (printed : string).

Definition Number_isInteger (n : JsNumber) : bool :=
  match n with
  | JsInt _ => true
  | JsNonInt _ => false
  end.

(** [n < 0]; comparisons with a non-number operand such as NaN are false. *)
Definition Number_ltz (n : JsNumber) : bool :=
  match n with
  | JsInt z => z <? 0
  | JsNonInt _ => false
  end.

(** Positional decimal notation. *)
Definition decimal (z : Z) : string :=
  NilZero.string_of_int (Z.to_int z).

(** The double nearest to an integer, ties going to the even significand of
    53 bits; every integer up to [2^53] in magnitude is a double. *)
Definition nearest_double (z : Z) : Z :=
  let a := Z.abs z in
  let shift := Z.log2 a + 1 - 53 in
  if shift <=? 0 then z
  else
    let q := Z.shiftr a shift in
    let r := a - Z.shiftl q shift in
    let half := Z.shiftl 1 (shift - 1) in
    let q := if (half <? r) || ((r =? half) && Z.odd q) then q + 1 else q in
    Z.sgn z * Z.shiftl q shift.

(** The digits that [Number.prototype.toString] prints for a double [x]
    that is a positive integer: the integer with the fewest significant
    digits that denotes [x] (the double nearest to it is [x]) and, among
    those, the one closest to [x].  It is searched as a multiple of [10^k],
    from [k = digits] down. *)
Fixpoint shortest_from (digits : nat) (x : Z) : Z :=
  match digits with
  | O => x
  | S k =>
      let p := 10 ^ Z.of_nat digits in
      let lo := x / p * p in
      let hi := lo + p in
      let lo_ok := nearest_double lo =? x in
      let hi_ok := nearest_double hi =? x in
      if lo_ok && hi_ok then
        if x - lo <? hi - x then lo
        else if hi - x <? x - lo then hi
        else if Z.even (lo / p) then lo else hi
      else if lo_ok then lo
      else if hi_ok then hi
      else shortest_from k x
  end.

Definition shortest (x : Z) : Z :=
  shortest_from (String.length (decimal x)) x.

(** A text without its zeros at the end. *)
Fixpoint drop_zeros (s : string) : string :=
  match s with
  | EmptyString => EmptyString
  | String c rest =>
      match drop_zeros rest with
      | EmptyString =>
          if Ascii.eqb c "0" then EmptyString else String c EmptyString
      | kept => String c kept
      end
  end.

(** Exponent notation of a positive integer: its first digit, the other
    significant digits as fraction, and the exponent. *)
Definition exponent_text (p : Z) : string :=
  let digits := decimal p in
  let fraction :=
    drop_zeros (String.substring 1 (String.length digits - 1) digits) in
  (String.substring 0 1 digits
   ++ match fraction with
      | EmptyString => ""
      | _ => "." ++ fraction
      end
   ++ "e+" ++ decimal (Z.of_nat (String.length digits) - 1))%string.

(** [n.toString()] for an integral value: every digit up to [2^53]; above,
    the shortest digits that identify the double, followed by zeros when
    the value is below [10^21] and in exponent notation otherwise. *)
Definition integer_text (z : Z) : string :=
  if Z.abs z <=? 2 ^ 53 then decimal z
  else
    let p := shortest (Z.abs (nearest_double z)) in
    String.append (if z <? 0 then "-" else "")
      (if p <? 10 ^ 21 then decimal p else exponent_text p).

Definition Number_toString (n : JsNumber) : string :=
  match n with
  | JsInt z => integer_text z
  | JsNonInt printed => printed
  end.

(** What the language runtime fixes and the library code relies on:
    [Buffer_gt] is the relational comparison [buffer > number], which the
    runtime evaluates by coercing the buffer to a primitive, its text, and
    the text to a number. *)
Class JsRuntime : Type := {
  Buffer_gt : Buffer -> Z -> bool
}.

(* ===================================================================== *)
(** ** The descriptor checksum ([./checksum]) *)

Module Checksum.

(** Modelled from the spec: the module [./checksum] (function
    [DescriptorChecksum], its character sets and its generator) is not part
    of the sources at hand.  The spec (section 4.1) fixes it as the reference
    descriptor checksum: every character is looked up in the input alphabet,
    its low five bits feed the polynomial accumulator, its group number is
    collected three characters at a time into one more symbol, and the final
    state is written with eight characters of the 32-symbol checksum
    charset. *)
Definition INPUT_CHARSET : string :=
  ("0123456789()[],'/*abcdefgh@:$%{}" ++
   "IJKLMNOPQRSTUVWXYZ&+-.;<=>?!^_|~" ++
   "ijklmnopqrstuvwxyzABCDEFGH`#" ++ String (ascii_of_nat 34) "\ ")%string.

Definition CHECKSUM_CHARSET : string := "qpzry9x8gf2tvdw0s3jn54khce6mua7l".

Definition GENERATOR : list Z :=
  [0xf5dee51989; 0xa9fdca3312; 0x1bab10e32d; 0x3706b1677a; 0x644d626ffd].

(** Modelled from the spec: the feedback term of the fixed generator
    polynomial, selected by the five bits shifted out of the state. *)
Definition feedback (c0 : Z) : Z :=
  fold_left Z.lxor
    (map (fun '(i, g) => if Z.testbit c0 i then g else 0)
         (combine [0; 1; 2; 3; 4] GENERATOR))
    0.

(** Modelled from the spec: one step of the accumulator, on a 40-bit state
    and a five-bit symbol. *)
Definition PolyMod (c val : Z) : Z :=
  let c0 := Z.shiftr c 35 in
  Z.lxor (Z.lxor (Z.shiftl (Z.land c 0x7ffffffff) 5) val) (feedback c0).

Record State : Type := mkState { st_c : Z; st_cls : Z; st_clscount : Z }.

Definition initial : State := mkState 1 0 0.

(** Modelled from the spec: one iteration of the loop over the characters
    of the span, for a character found at position [pos] of the input
    alphabet. *)
Definition feed (st : State) (pos : Z) : State :=
  let c := PolyMod (st_c st) (Z.land pos 31) in
  let cls := st_cls st * 3 + Z.shiftr pos 5 in
  let clscount := st_clscount st + 1 in
  if clscount =? 3 then mkState (PolyMod c cls) 0 0
  else mkState c cls clscount.

Fixpoint scan (span : string) (st : State) : option State :=
  match span with
  | EmptyString => Some st
  | String ch rest =>
      match indexOf ch INPUT_CHARSET with
      | None => None
      | Some pos => scan rest (feed st pos)
      end
  end.

(** Modelled from the spec: the pending group, eight zero symbols and the
    final constant. *)
Definition finish (st : State) : Z :=
  let c := if 0 <? st_clscount st then PolyMod (st_c st) (st_cls st)
           else st_c st in
  let c := Nat.iter 8 (fun c => PolyMod c 0) c in
  Z.lxor c 1.

(** Modelled from the spec: the final state in eight characters of the
    checksum charset, five bits each. *)
Definition encode (c : Z) : string :=
  String.concat ""
    (map (fun j => charAt CHECKSUM_CHARSET
                     (Z.land (Z.shiftr c (5 * (7 - j))) 31))
         [0; 1; 2; 3; 4; 5; 6; 7]).

(** Modelled from the spec: [DescriptorChecksum] of [./checksum].  As in
    the reference implementation, a character outside the input alphabet
    yields the empty checksum. *)
Definition DescriptorChecksum (span : string) : string :=
  match scan span initial with
  | None => ""
  | Some st => encode (finish st)
  end.

(** Modelled from the spec: the constant [reChecksum] of the module [./re]
    is not part of the sources at hand.  A checksum is the hash sign followed
    by eight characters of the checksum charset (spec sections 4.1 and 6). *)
Definition reChecksum_matches (s : string) : bool :=
  match s with
  | String c rest =>
      Ascii.eqb c "#"%char
      && (String.length rest =? 8)%nat
      && string_forallb (fun a => string_mem a CHECKSUM_CHARSET) rest
  | EmptyString => false
  end.

(** [expression.match(String.raw`(${RE.reChecksum})$`)]: the pattern is
    anchored at the end and has a fixed width of nine characters, so its only
    possible match is the last nine characters of the expression.  The result
    is element [0] of the match array. *)
Definition match_reChecksum_end (expression : string) : option string :=
  let n := String.length expression in
  if (n <? 9)%nat then None
  else
    let tail := js_substring expression (n - 9) n in
    if reChecksum_matches tail then Some tail else None.

End Checksum.

Export Checksum.

(* ===================================================================== *)
(** ** [evaluate] *)

Section Evaluate.

(** Returns a bare descriptor without checksum and particularised for a
    certain index (if the descriptor was a range descriptor). *)
Definition evaluate (expression : string) (checksumRequired : bool)
           (index : option JsNumber) : Result string :=
  let mChecksum := match_reChecksum_end expression in
  match mChecksum, checksumRequired with
  | None, true => Throw ErrNoChecksum
  | _, _ =>
      evaluatedExpression <-
        match mChecksum with
        | Some m0 =>
            let checksum := js_substring_from m0 1 in
            let evaluatedExpression :=
              js_substring expression 0
                (String.length expression - String.length m0) in
            if negb (String.eqb checksum
                       (DescriptorChecksum evaluatedExpression))
            then Throw ErrInvalidChecksum
            else Ok evaluatedExpression
        | None => Ok expression
        end ;;
      let mWildcard := match_all_star evaluatedExpression in
      if (0 <? List.length mWildcard)%nat then
        match index with
        | None => Throw ErrIndexNotProvided
        | Some index =>
            if negb (Number_isInteger index) || Number_ltz index
            then Throw ErrInvalidIndex
            else
              Ok (replaceAll_star evaluatedExpression
                    (Number_toString index))
        end
      else Ok evaluatedExpression
  end.

End Evaluate.

(* ===================================================================== *)
(** ** Data of the collaborators *)

(** The [Network] interface of bitcoinjs-lib. *)
Record Network : Type := mkNetwork {
  messagePrefix : string;
  bech32 : string;
  bip32_public : Z;
  bip32_private : Z;
  pubKeyHash : Z;
  scriptHash : Z;
  wif : Z
}.

Definition networks_bitcoin : Network :=
  mkNetwork
    (String (ascii_of_nat 24)
       ("Bitcoin Signed Message:" ++ String (ascii_of_nat 10) "")%string)
    "bc" 0x0488b21e 0x0488ade4 0x00 0x05 0x80.

(** The [Payment] object of bitcoinjs-lib, restricted to the members that
    [index.ts] passes or reads.  The same shape is used for the argument and
    for the result of a payment template. *)
#[warnings="-register-all"]
Inductive Payment : Type :=
| mkPayment (address : option string) (output : option Buffer)
            (pubkey : option Buffer) (redeem : option Payment).

Definition pay_address (p : Payment) : option string :=
  match p with mkPayment a _ _ _ => a end.
Definition pay_output (p : Payment) : option Buffer :=
  match p with mkPayment _ o _ _ => o end.
Definition pay_pubkey (p : Payment) : option Buffer :=
  match p with mkPayment _ _ k _ => k end.
Definition pay_redeem (p : Payment) : option Payment :=
  match p with mkPayment _ _ _ r => r end.

(** The argument objects [{ output }], [{ pubkey }] and [{ redeem }]. *)
Definition with_output (output : Buffer) : Payment :=
  mkPayment None (Some output) None None.
Definition with_pubkey (pubkey : Buffer) : Payment :=
  mkPayment None None (Some pubkey) None.
Definition with_redeem (redeem : Payment) : Payment :=
  mkPayment None None None (Some redeem).

(** [payment.redeem?.output] *)
Definition pay_redeem_output (p : Payment) : option Buffer :=
  match pay_redeem p with
  | Some r => pay_output r
  | None => None
  end.

(** An element of [bscript.decompile(script)]: an opcode number or the data
    of a push. *)
Inductive Chunk : Type :=
| ChunkOp (opcode : Z)
| ChunkData (data : Buffer).

(** [bscript.OPS['OP_16']] *)
Definition OP_16 : Z := 96.

Record KeyInfo : Type := mkKeyInfo {
  keyExpression : string;
  ki_pubkey : Buffer;
  masterFingerprint : option Buffer;
  path : option string
}.

(** A JavaScript object used as a map from ["@0"], ["@1"], ... to key
    records; [Object.values] lists the values in insertion order. *)
Definition ExpansionMap : Type := list (string * KeyInfo).

Definition Object_values (m : ExpansionMap) : list KeyInfo := map snd m.

Record Preimage : Type := mkPreimage {
  digest : string;
  preimage : string
}.

Record PartialSig : Type := mkPartialSig {
  ps_pubkey : Buffer;
  signature : Buffer
}.

Record TimeConstraints : Type := mkTimeConstraints {
  nLockTime : option Z;
  nSequence : option Z
}.

(** The object returned by [satisfyMiniscript]. *)
Record Satisfaction : Type := mkSatisfaction {
  scriptSatisfaction : option Buffer;
  sat_nLockTime : option Z;
  sat_nSequence : option Z
}.

Record TxOutput : Type := mkTxOutput {
  out_script : Buffer;
  out_value : Z
}.

Record Transaction : Type := mkTransaction {
  outs : list TxOutput;
  tx_hash : Buffer;
  tx_buffer : Buffer
}.

Record Bip32Derivation : Type := mkBip32Derivation {
  bd_masterFingerprint : Buffer;
  bd_pubkey : Buffer;
  bd_path : string
}.

Record PsbtInputExtended : Type := mkPsbtInput {
  in_hash : Buffer;
  in_index : Z;
  nonWitnessUtxo : option Buffer;
  bip32Derivation : option (list Bip32Derivation);
  witnessUtxo : option TxOutput;
  in_sequence : option Z;
  in_witnessScript : option Buffer;
  in_redeemScript : option Buffer
}.

(** The part of a [Psbt] that [updatePsbt] reads and writes. *)
Record Psbt : Type := mkPsbt {
  psbt_locktime : option Z;
  psbt_inputs : list PsbtInputExtended
}.

(** Everything [index.ts] imports: bitcoinjs-lib ([address], [payments],
    [script], [Transaction], [Psbt]) and the sibling modules [./re],
    [./keyExpressions] and [./miniscript].  A regular expression is given by
    what [String.prototype.match] returns for it: whether it matches and, for
    the patterns with a group, the text of group 1; [reKeyExp] by element 0
    of its first match.  A function that may throw returns a [Result].
    The methods of [Psbt] that [updatePsbt] calls check before they write,
    and [psbt.addInput] checks once more after it has stored the input:
    [Psbt_checkLocktime] stands for the checks of [psbt.setLocktime] (a
    value of 32 bits, no input signed so far), [Psbt_checkInput] for the
    checks that [psbt.addInput] makes before it stores the input (its
    arguments, no input signed so far, the witness script) and
    [Psbt_checkStored] for the check it makes on the [Psbt] that holds the
    new input (no input twice). *)
Class Collaborators : Type := {
  reAddrAnchored : string -> option string;
  rePkAnchored : string -> bool;
  rePkhAnchored : string -> bool;
  reShWpkhAnchored : string -> bool;
  reWpkhAnchored : string -> bool;
  reShWshMiniscriptAnchored : string -> option string;
  reShMiniscriptAnchored : string -> option string;
  reWshMiniscriptAnchored : string -> option string;
  reKeyExp : string -> option string;

  address_toOutputScript : string -> Network -> Result Buffer;
  p2pk : Payment -> Network -> Result Payment;
  p2pkh : Payment -> Network -> Result Payment;
  p2sh : Payment -> Network -> Result Payment;
  p2wpkh : Payment -> Network -> Result Payment;
  p2wsh : Payment -> Network -> Result Payment;
  p2tr : Payment -> Network -> Result Payment;
  bscript_decompile : Buffer -> option (list Chunk);
  Transaction_fromHex : string -> Result Transaction;
  Psbt_checkLocktime : Psbt -> Z -> Result unit;
  Psbt_checkInput : Psbt -> PsbtInputExtended -> Result unit;
  Psbt_checkStored : Psbt -> Result unit;

  parseKeyExpression : string -> Network -> bool -> Result KeyInfo;

  expandMiniscript :
    string -> bool -> Network -> Result (string * ExpansionMap);
  miniscript2Script : string -> ExpansionMap -> Result Buffer;
  (** The search of the satisfier: every valid, non-malleable witness that
      the supplied signatures and preimages allow, each with the lock time
      and sequence it implies. *)
  validSatisfactions :
    string -> ExpansionMap -> list PartialSig -> list Preimage ->
    Result (list Satisfaction)
}.

(* ===================================================================== *)
(** ** Resource limits *)

(** See "Resource limitations", https://bitcoin.sipa.be/miniscript/ *)
Definition MAX_SCRIPT_ELEMENT_SIZE : Z := 520.
Definition MAX_STANDARD_P2WSH_SCRIPT_SIZE : Z := 3600.
Definition MAX_OPS_PER_SCRIPT : Z := 201.

Section CountOps.
Context {rt : JsRuntime} {lib : Collaborators}.

(** [op > bscript.OPS['OP_16']] for an element of the decompiled script. *)
Definition above_OP_16 (op : Chunk) : bool :=
  match op with
  | ChunkOp n => n >? OP_16
  | ChunkData data => Buffer_gt data OP_16
  end.

Definition countNonPushOnlyOPs (script : Buffer) : Result Z :=
  match bscript_decompile script with
  | None => Throw ErrCouldNotDecompile
  | Some decompile => Ok (Z.of_nat (List.length (filter above_OP_16 decompile)))
  end.
End CountOps.

(* ===================================================================== *)
(** ** The satisfier ([./miniscript]) *)

Section Satisfier.
Context {lib : Collaborators}.

Definition option_Z_eqb (a b : option Z) : bool :=
  match a, b with
  | Some x, Some y => x =? y
  | None, None => true
  | _, _ => false
  end.

(** Modelled from the spec: a satisfaction is consistent with committed
    time constraints when it implies the same lock time and the same
    sequence. *)
Definition consistent (tc : TimeConstraints) (s : Satisfaction) : bool :=
  option_Z_eqb (sat_nLockTime s) (nLockTime tc)
  && option_Z_eqb (sat_nSequence s) (nSequence tc).

Definition weight (s : Satisfaction) : Z :=
  match scriptSatisfaction s with
  | Some w => byteLength w
  | None => 0
  end.

(** Modelled from the spec: the first satisfaction of smallest weight, the
    weight of a satisfaction being the size of its witness. *)
Fixpoint smallest (l : list Satisfaction) : option Satisfaction :=
  match l with
  | nil => None
  | s :: rest =>
      match smallest rest with
      | Some t => if weight t <? weight s then Some t else Some s
      | None => Some s
      end
  end.

(** Modelled from the spec: the function [satisfyMiniscript] of the module
    [./miniscript] is not part of the sources at hand.  Following section
    4.5 of the spec, it collects the valid satisfactions that the supplied
    material allows, keeps those consistent with the time constraints when
    they are supplied, and selects the smallest by weight; with none left
    the outcome is "incomplete", raised as an error. *)
Definition satisfyMiniscript (expandedMiniscript : string)
           (expansionMap : ExpansionMap) (signatures : list PartialSig)
           (preimages : list Preimage)
           (timeConstraints : option TimeConstraints) : Result Satisfaction :=
  sats <- validSatisfactions expandedMiniscript expansionMap signatures
            preimages ;;
  let admissible :=
    match timeConstraints with
    | Some tc => filter (consistent tc) sats
    | None => sats
    end in
  match smallest admissible with
  | Some sat => Ok sat
  | None => Throw ErrUnresolvableMiniscript
  end.
End Satisfier.

(* ===================================================================== *)
(** ** The [Descriptor] class *)

(** The private fields of a [Descriptor]. *)
Record Descriptor : Type := mkDescriptor {
  d_payment : Payment;
  d_preimages : list Preimage;
  d_miniscript : option string;
  d_witnessScript : option Buffer;
  d_redeemScript : option Buffer;
  d_isSegwit : option bool;
  d_expandedExpression : option string;
  d_expandedMiniscript : option string;
  d_expansionMap : option ExpansionMap;
  d_network : Network;
  d_signersKeyExpressions : option (list string)
}.

(** The object passed to the constructor, defaults filled in. *)
Record Params : Type := mkParams {
  expression : string;
  index : option JsNumber;
  checksumRequired : bool;
  allowMiniscriptInP2SH : bool;
  network : Network;
  preimages : list Preimage;
  signersKeyExpressions : option (list string)
}.

Definition default_params (expression : string) : Params :=
  mkParams expression None false false networks_bitcoin nil None.

(** [!s] for a string. *)
Definition is_empty (s : string) : bool :=
  match s with
  | EmptyString => true
  | String _ _ => false
  end.

(** The top-level expressions that are allowed within [sh]:
    [pk(], [pkh(], [wpkh(], [combo(], [multi(], [sortedmulti(], [multi_a(],
    [sortedmulti_a(], the alternatives of the anchored pattern. *)
Definition sh_top_level : list string :=
  ["pk("; "pkh("; "wpkh("; "combo("; "multi("; "sortedmulti("; "multi_a(";
   "sortedmulti_a("].

(** [miniscript.search(/^(...)/)]: [0] when one of the alternatives is a
    prefix of the text and [-1] otherwise. *)
Definition search_sh_top_level (miniscript : string) : Z :=
  if existsb (fun p => String.prefix p miniscript) sh_top_level then 0 else -1.

Fixpoint Buffer_eqb (a b : Buffer) : bool :=
  match a, b with
  | nil, nil => true
  | x :: a', y :: b' => Byte.eqb x y && Buffer_eqb a' b'
  | _, _ => false
  end.

(** The production that the constructor selects for an evaluated expression:
    the anchored patterns are tried in this order. *)
Inductive Production : Type :=
| PAddr | PPk | PPkh | PShWpkh | PWpkh | PShWsh | PSh | PWsh | PNone.

Section DescriptorClass.
Context {rt : JsRuntime} {lib : Collaborators}.

(** addr(ADDR) *)
Definition construct_addr (matched : string) (a : Params)
  : Result Descriptor :=
  let matchedAddress := matched in
  if is_empty matchedAddress then Throw ErrCouldNotGetAddress
  else
    match address_toOutputScript matchedAddress (network a) with
    | Throw _ => Throw ErrInvalidAddress
    | Ok output =>
        let payment := None in
        let payment :=
          try_assign payment (p2pkh (with_output output) (network a)) in
        let payment :=
          try_assign payment (p2sh (with_output output) (network a)) in
        let payment :=
          try_assign payment (p2wpkh (with_output output) (network a)) in
        let payment :=
          try_assign payment (p2wsh (with_output output) (network a)) in
        let payment :=
          try_assign payment (p2tr (with_output output) (network a)) in
        match payment with
        | None => Throw ErrInvalidAddress
        | Some payment =>
            Ok (mkDescriptor payment (preimages a) None None None None None
                  None None (network a) (signersKeyExpressions a))
        end
    end.

(** The part shared, statement for statement, by the productions with a
    single key: extraction of the key expression, comparison with the
    expected text and expansion to [@0]. *)
Definition single_key (evaluatedExpression : string) (a : Params)
           (isSegwit : bool) (opening closing : string)
  : Result (ExpansionMap * Buffer) :=
  match reKeyExp evaluatedExpression with
  | None => Throw ErrKeyExpressionNotExtracted
  | Some keyExpression =>
      if is_empty keyExpression then Throw ErrKeyExpressionNotExtracted
      else if negb (String.eqb evaluatedExpression
                      (opening ++ keyExpression ++ closing)%string)
      then Throw ErrInvalidExpression
      else
        keyInfo <- parseKeyExpression keyExpression (network a) isSegwit ;;
        Ok ([("@0", keyInfo)], ki_pubkey keyInfo)
  end.

(** pk(KEY) *)
Definition construct_pk (evaluatedExpression : string) (a : Params)
  : Result Descriptor :=
  let isSegwit := false in
  '(expansionMap, pubkey) <-
    single_key evaluatedExpression a isSegwit "pk(" ")" ;;
  payment <- p2pk (with_pubkey pubkey) (network a) ;;
  Ok (mkDescriptor payment (preimages a) None None None (Some isSegwit)
        (Some "pk(@0)") None (Some expansionMap) (network a)
        (signersKeyExpressions a)).

(** pkh(KEY) - legacy *)
Definition construct_pkh (evaluatedExpression : string) (a : Params)
  : Result Descriptor :=
  let isSegwit := false in
  '(expansionMap, pubkey) <-
    single_key evaluatedExpression a isSegwit "pkh(" ")" ;;
  payment <- p2pkh (with_pubkey pubkey) (network a) ;;
  Ok (mkDescriptor payment (preimages a) None None None (Some isSegwit)
        (Some "pkh(@0)") None (Some expansionMap) (network a)
        (signersKeyExpressions a)).

(** sh(wpkh(KEY)) - nested segwit *)
Definition construct_sh_wpkh (evaluatedExpression : string) (a : Params)
  : Result Descriptor :=
  let isSegwit := true in
  '(expansionMap, pubkey) <-
    single_key evaluatedExpression a isSegwit "sh(wpkh(" "))" ;;
  inner <- p2wpkh (with_pubkey pubkey) (network a) ;;
  payment <- p2sh (with_redeem inner) (network a) ;;
  match pay_redeem_output payment with
  | None => Throw ErrNoRedeemScript
  | Some redeemScript =>
      Ok (mkDescriptor payment (preimages a) None None (Some redeemScript)
            (Some isSegwit) (Some "sh(wpkh(@0))") None (Some expansionMap)
            (network a) (signersKeyExpressions a))
  end.

(** wpkh(KEY) - native segwit *)
Definition construct_wpkh (evaluatedExpression : string) (a : Params)
  : Result Descriptor :=
  let isSegwit := true in
  '(expansionMap, pubkey) <-
    single_key evaluatedExpression a isSegwit "wpkh(" ")" ;;
  payment <- p2wpkh (with_pubkey pubkey) (network a) ;;
  Ok (mkDescriptor payment (preimages a) None None None (Some isSegwit)
        (Some "wpkh(@0)") None (Some expansionMap) (network a)
        (signersKeyExpressions a)).

(** sh(wsh(miniscript)) *)
Definition construct_sh_wsh (matched : string) (a : Params)
  : Result Descriptor :=
  let isSegwit := true in
  let miniscript := matched in
  if is_empty miniscript then Throw ErrCouldNotGetMiniscript
  else
    '(expandedMiniscript, expansionMap) <-
      expandMiniscript miniscript isSegwit (network a) ;;
    let expandedExpression :=
      ("sh(wsh(" ++ expandedMiniscript ++ "))")%string in
    script <- miniscript2Script expandedMiniscript expansionMap ;;
    if byteLength script >? MAX_STANDARD_P2WSH_SCRIPT_SIZE
    then Throw (ErrScriptTooLarge (byteLength script))
    else
      nonPushOnlyOps <- countNonPushOnlyOPs script ;;
      if nonPushOnlyOps >? MAX_OPS_PER_SCRIPT
      then Throw (ErrTooManyNonPushOps nonPushOnlyOps)
      else
        inner <- p2wsh (with_redeem (with_output script)) (network a) ;;
        payment <- p2sh (with_redeem inner) (network a) ;;
        match pay_redeem_output payment with
        | None => Throw ErrNoRedeemScript
        | Some redeemScript =>
            Ok (mkDescriptor payment (preimages a) (Some miniscript)
                  (Some script) (Some redeemScript) (Some isSegwit)
                  (Some expandedExpression) (Some expandedMiniscript)
                  (Some expansionMap) (network a) (signersKeyExpressions a))
        end.

(** sh(miniscript) *)
Definition construct_sh (matched : string) (a : Params)
  : Result Descriptor :=
  let isSegwit := false in
  let miniscript := matched in
  if is_empty miniscript then Throw ErrCouldNotGetMiniscript
  else if negb (allowMiniscriptInP2SH a)
          && negb (search_sh_top_level miniscript =? 0)
  then Throw ErrMiniscriptOnlyInWsh
  else
    '(expandedMiniscript, expansionMap) <-
      expandMiniscript miniscript isSegwit (network a) ;;
    let expandedExpression := ("sh(" ++ expandedMiniscript ++ ")")%string in
    script <- miniscript2Script expandedMiniscript expansionMap ;;
    let redeemScript := script in
    if byteLength script >? MAX_SCRIPT_ELEMENT_SIZE
    then Throw (ErrP2SHScriptTooLarge (byteLength script))
    else
      nonPushOnlyOps <- countNonPushOnlyOPs script ;;
      if nonPushOnlyOps >? MAX_OPS_PER_SCRIPT
      then Throw (ErrTooManyNonPushOps nonPushOnlyOps)
      else
        payment <- p2sh (with_redeem (with_output script)) (network a) ;;
        if negb (Buffer_eqb script redeemScript)
        then Throw ErrRedeemScriptNotSet
        else
          Ok (mkDescriptor payment (preimages a) (Some miniscript) None
                (Some redeemScript) (Some isSegwit)
                (Some expandedExpression) (Some expandedMiniscript)
                (Some expansionMap) (network a) (signersKeyExpressions a)).

(** wsh(miniscript) *)
Definition construct_wsh (matched : string) (a : Params)
  : Result Descriptor :=
  let isSegwit := true in
  let miniscript := matched in
  if is_empty miniscript then Throw ErrCouldNotGetMiniscript
  else
    '(expandedMiniscript, expansionMap) <-
      expandMiniscript miniscript isSegwit (network a) ;;
    let expandedExpression := ("wsh(" ++ expandedMiniscript ++ ")")%string in
    script <- miniscript2Script expandedMiniscript expansionMap ;;
    if byteLength script >? MAX_STANDARD_P2WSH_SCRIPT_SIZE
    then Throw (ErrScriptTooLarge (byteLength script))
    else
      nonPushOnlyOps <- countNonPushOnlyOPs script ;;
      if nonPushOnlyOps >? MAX_OPS_PER_SCRIPT
      then Throw (ErrTooManyNonPushOps nonPushOnlyOps)
      else
        payment <- p2wsh (with_redeem (with_output script)) (network a) ;;
        Ok (mkDescriptor payment (preimages a) (Some miniscript)
              (Some script) None (Some isSegwit) (Some expandedExpression)
              (Some expandedMiniscript) (Some expansionMap) (network a)
              (signersKeyExpressions a)).

(** The chain of [if (evaluatedExpression.match(RE....))] tests. *)
Definition production (evaluatedExpression : string) : Production :=
  let e := evaluatedExpression in
  match reAddrAnchored e with
  | Some _ => PAddr
  | None =>
  if rePkAnchored e then PPk
  else if rePkhAnchored e then PPkh
  else if reShWpkhAnchored e then PShWpkh
  else if reWpkhAnchored e then PWpkh
  else
  match reShWshMiniscriptAnchored e with
  | Some _ => PShWsh
  | None =>
  match reShMiniscriptAnchored e with
  | Some _ => PSh
  | None =>
  match reWshMiniscriptAnchored e with
  | Some _ => PWsh
  | None => PNone
  end end end end.

(** The constructor.  The test [typeof expression !== 'string'] cannot fail
    for an [expression] of type [string]. *)
Definition Descriptor_constructor (a : Params) : Result Descriptor :=
  (* Verify and remove checksum (if exists) and particularize range
     descriptor for index (if desc is range descriptor) *)
  evaluatedExpression <-
    evaluate (expression a) (checksumRequired a) (index a) ;;
  let e := evaluatedExpression in
  match reAddrAnchored e with
  | Some matched => construct_addr matched a
  | None =>
  if rePkAnchored e then construct_pk e a
  else if rePkhAnchored e then construct_pkh e a
  else if reShWpkhAnchored e then construct_sh_wpkh e a
  else if reWpkhAnchored e then construct_wpkh e a
  else
  match reShWshMiniscriptAnchored e with
  | Some matched => construct_sh_wsh matched a
  | None =>
  match reShMiniscriptAnchored e with
  | Some matched => construct_sh matched a
  | None =>
  match reWshMiniscriptAnchored e with
  | Some matched => construct_wsh matched a
  | None => Throw ErrCouldNotParse
  end end end end.

(** [array.map(f)] for an [f] that may throw. *)
Fixpoint mapM {A B : Type} (f : A -> Result B) (l : list A)
  : Result (list B) :=
  match l with
  | nil => Ok nil
  | x :: rest => y <- f x ;; ys <- mapM f rest ;; Ok (y :: ys)
  end.

(** Gets the TimeConstraints of the miniscript descriptor as passed in the
    constructor, just using the expression, the signersKeyExpressions and
    the preimages. *)
Definition getTimeConstraints (d : Descriptor)
  : Result (option TimeConstraints) :=
  match d_miniscript d with
  | None => Ok None
  | Some miniscript =>
      if is_empty miniscript then Ok None
      else
        match d_expandedMiniscript d, d_expansionMap d, d_isSegwit d with
        | Some expandedMiniscript, Some expansionMap, Some isSegwit =>
            let signersKeyExpressions :=
              match d_signersKeyExpressions d with
              | Some l => l
              | None =>
                  map (fun keyExpression =>
                         Buffer_toHex (ki_pubkey keyExpression))
                      (Object_values expansionMap)
              end in
            (* We create some fakeSignatures since we don't have them yet. *)
            fakeSignatures <-
              mapM (fun keyExpression =>
                      keyInfo <- parseKeyExpression keyExpression
                                   (d_network d) isSegwit ;;
                      Ok (mkPartialSig (ki_pubkey keyInfo)
                            (Buffer_alloc 64)))
                   signersKeyExpressions ;;
            sat <- satisfyMiniscript expandedMiniscript expansionMap
                     fakeSignatures (d_preimages d) None ;;
            Ok (Some (mkTimeConstraints (sat_nLockTime sat)
                        (sat_nSequence sat)))
        | _, _, _ => Throw ErrNotExpandedTimeConstraints
        end
  end.

Definition getPayment (d : Descriptor) : Payment := d_payment d.

Definition getAddress (d : Descriptor) : Result string :=
  match pay_address (d_payment d) with
  | Some address => if is_empty address then Throw ErrNoAddress else Ok address
  | None => Throw ErrNoAddress
  end.

Definition getScriptPubKey (d : Descriptor) : Result Buffer :=
  match pay_output (d_payment d) with
  | Some output => Ok output
  | None => Throw ErrNoOutputScript
  end.

Definition getSequence (d : Descriptor) : Result (option Z) :=
  tc <- getTimeConstraints d ;;
  Ok (match tc with Some tc => nSequence tc | None => None end).

Definition getLockTime (d : Descriptor) : Result (option Z) :=
  tc <- getTimeConstraints d ;;
  Ok (match tc with Some tc => nLockTime tc | None => None end).

Definition getScriptSatisfaction (d : Descriptor)
           (signatures : list PartialSig) : Result Buffer :=
  match d_miniscript d, d_expandedMiniscript d, d_expansionMap d with
  | Some miniscript, Some expandedMiniscript, Some expansionMap =>
      (* Note that we pass the nLockTime and nSequence that is deduced
         using preimages and signersKeyExpressions. *)
      lockTime <- getLockTime d ;;
      sequence <- getSequence d ;;
      sat <- satisfyMiniscript expandedMiniscript expansionMap signatures
               (d_preimages d)
               (Some (mkTimeConstraints lockTime sequence)) ;;
      match scriptSatisfaction sat with
      | None => Throw ErrNoValidSatisfaction
      | Some scriptSatisfaction => Ok scriptSatisfaction
      end
  | _, _, _ => Throw ErrNotExpandedSatisfaction
  end.

Definition getWitnessScript (d : Descriptor) : option Buffer :=
  d_witnessScript d.

Definition getRedeemScript (d : Descriptor) : option Buffer :=
  d_redeemScript d.

Definition isSegwit (d : Descriptor) : Result bool :=
  match d_isSegwit d with
  | Some b => Ok b
  | None => Throw ErrSegwitUndetermined
  end.
End DescriptorClass.

(* ===================================================================== *)
(** ** [updatePsbt]: a state and error monad over the caller's [Psbt] *)

(** A method that mutates the [Psbt] it is given and may throw: the state
    after the call is returned in both cases. *)
Definition PsbtM (A : Type) : Type := Psbt -> Psbt * Result A.

Definition retM {A : Type} (a : A) : PsbtM A := fun psbt => (psbt, Ok a).

Definition throwM {A : Type} (e : Error) : PsbtM A :=
  fun psbt => (psbt, Throw e).

Definition liftM {A : Type} (r : Result A) : PsbtM A := fun psbt => (psbt, r).

Definition bindM {A B : Type} (m : PsbtM A) (k : A -> PsbtM B) : PsbtM B :=
  fun psbt =>
    match m psbt with
    | (psbt', Ok a) => k a psbt'
    | (psbt', Throw e) => (psbt', Throw e)
    end.

Notation "x <~ m ;; k" := (bindM m (fun x => k))
  (at level 61, m at next level, right associativity).

Definition getPsbt : PsbtM Psbt := fun psbt => (psbt, Ok psbt).

(** [array[i]] for a number [i]: [undefined] outside the array. *)
Definition Array_at {A : Type} (l : list A) (i : Z) : option A :=
  if i <? 0 then None else nth_error l (Z.to_nat i).

Definition set_bip32Derivation (v : list Bip32Derivation)
           (i : PsbtInputExtended) : PsbtInputExtended :=
  mkPsbtInput (in_hash i) (in_index i) (nonWitnessUtxo i) (Some v)
    (witnessUtxo i) (in_sequence i) (in_witnessScript i) (in_redeemScript i).

Definition set_witnessUtxo (v : TxOutput) (i : PsbtInputExtended)
  : PsbtInputExtended :=
  mkPsbtInput (in_hash i) (in_index i) (nonWitnessUtxo i) (bip32Derivation i)
    (Some v) (in_sequence i) (in_witnessScript i) (in_redeemScript i).

Definition set_sequence (v : Z) (i : PsbtInputExtended) : PsbtInputExtended :=
  mkPsbtInput (in_hash i) (in_index i) (nonWitnessUtxo i) (bip32Derivation i)
    (witnessUtxo i) (Some v) (in_witnessScript i) (in_redeemScript i).

Definition set_witnessScript (v : Buffer) (i : PsbtInputExtended)
  : PsbtInputExtended :=
  mkPsbtInput (in_hash i) (in_index i) (nonWitnessUtxo i) (bip32Derivation i)
    (witnessUtxo i) (in_sequence i) (Some v) (in_redeemScript i).

Definition set_redeemScript (v : Buffer) (i : PsbtInputExtended)
  : PsbtInputExtended :=
  mkPsbtInput (in_hash i) (in_index i) (nonWitnessUtxo i) (bip32Derivation i)
    (witnessUtxo i) (in_sequence i) (in_witnessScript i) (Some v).

(** [if (v) input.field = v] *)
Definition set_if_defined {A : Type}
           (set : A -> PsbtInputExtended -> PsbtInputExtended) (v : option A)
           (i : PsbtInputExtended) : PsbtInputExtended :=
  match v with
  | Some x => set x i
  | None => i
  end.

Definition MAX_SEQUENCE_WITH_LOCKTIME : Z := 0xfffffffe.

Section UpdatePsbt.
Context {rt : JsRuntime} {lib : Collaborators}.

(** [psbt.setLocktime(locktime)]: the checks, then the write. *)
Definition setLocktime (locktime : Z) : PsbtM unit :=
  fun psbt =>
    match Psbt_checkLocktime psbt locktime with
    | Throw e => (psbt, Throw e)
    | Ok _ => (mkPsbt (Some locktime) (psbt_inputs psbt), Ok tt)
    end.

(** [psbt.addInput(input)]: the checks on the arguments, then the input is
    stored, then the check for a duplicate; when this last check throws,
    the input stays in the [Psbt]. *)
Definition addInput (input : PsbtInputExtended) : PsbtM unit :=
  fun psbt =>
    match Psbt_checkInput psbt input with
    | Throw e => (psbt, Throw e)
    | Ok _ =>
        let stored :=
          mkPsbt (psbt_locktime psbt) (psbt_inputs psbt ++ [input]) in
        match Psbt_checkStored stored with
        | Throw e => (stored, Throw e)
        | Ok _ => (stored, Ok tt)
        end
    end.

(** The keys of the expansion map that carry an origin. *)
Definition bip32Derivations (m : ExpansionMap) : list Bip32Derivation :=
  flat_map
    (fun keyInfo =>
       match masterFingerprint keyInfo, path keyInfo with
       | Some fingerprint, Some p =>
           if is_empty p then nil
           else [mkBip32Derivation fingerprint (ki_pubkey keyInfo) p]
       | _, _ => nil
       end)
    (Object_values m).

Definition updatePsbt (d : Descriptor) (txHex : string) (vout : Z)
  : PsbtM Z :=
  tx <~ liftM (Transaction_fromHex txHex) ;;
  match Array_at (outs tx) vout with
  | None => throwM ErrNoVout
  | Some out =>
      txLockTime <~ liftM (getLockTime d) ;;
      _ <~ match txLockTime with
           | Some lockTime =>
               psbt <~ getPsbt ;;
               match psbt_locktime psbt with
               | Some l =>
                   if negb (l =? 0) then throwM (ErrLocktimeAlreadySet l)
                   else setLocktime lockTime
               | None => setLocktime lockTime
               end
           | None => retM tt
           end ;;
      inputSequence <~ liftM (getSequence d) ;;
      inputSequence <~
        match txLockTime with
        | Some lockTime =>
            match inputSequence with
            | None =>
                (* for CTV nSequence MUST be <= 0xfffffffe otherwise
                   OP_CHECKLOCKTIMEVERIFY will fail. *)
                retM (Some MAX_SEQUENCE_WITH_LOCKTIME)
            | Some s =>
                if s >? MAX_SEQUENCE_WITH_LOCKTIME
                then throwM (ErrIncompatibleSequence s lockTime)
                else retM (Some s)
            end
        | None => retM inputSequence
        end ;;
      let input :=
        mkPsbtInput (tx_hash tx) vout (Some (tx_buffer tx)) None None None
          None None in
      let input :=
        match d_expansionMap d with
        | Some expansionMap =>
            let derivations := bip32Derivations expansionMap in
            if (0 <? List.length derivations)%nat
            then set_bip32Derivation derivations input
            else input
        | None => input
        end in
      segwit <~ liftM (isSegwit d) ;;
      input <~
        (if segwit : bool then
           scriptPubKey <~ liftM (getScriptPubKey d) ;;
           retM (set_witnessUtxo (mkTxOutput scriptPubKey (out_value out))
                   input)
         else retM input) ;;
      let input := set_if_defined set_sequence inputSequence input in
      let witnessScript := getWitnessScript d in
      let redeemScript := getRedeemScript d in
      let input := set_if_defined set_witnessScript witnessScript input in
      let input := set_if_defined set_redeemScript redeemScript input in
      _ <~ addInput input ;;
      psbt <~ getPsbt ;;
      retM (Z.of_nat (List.length (psbt_inputs psbt)) - 1)
  end.
End UpdatePsbt.

(* ===================================================================== *)
(** ** [finalizePsbtInput], [expand] and [checksum] *)

(** An element of [psbt.data.inputs], restricted to the member that
    [finalizePsbtInput] reads. *)
Record PsbtDataInput : Type := mkPsbtDataInput {
  partialSig : option (list PartialSig)
}.

(** The one call that [finalizePsbtInput] makes on the [Psbt]:
    [psbt.finalizeInput(index)], which uses the standard finalizers, or
    [psbt.finalizeInput(index, finalScriptsFuncFactory(scriptSatisfaction,
    network))]. *)
Inductive FinalizeInputCall : Type :=
| FinalizeStandard (index : Z)
| FinalizeWith (index : Z) (scriptSatisfaction : Buffer) (network : Network).

(** [!buffer]: an object is never falsy. *)
Definition Buffer_falsy (_ : Buffer) : bool := false.

(** The object that [expand] returns; a member is present when the field is
    defined. *)
Record Expansion : Type := mkExpansion {
  x_expandedExpression : option string;
  x_miniscript : option string;
  x_expandedMiniscript : option string;
  x_expansionMap : option ExpansionMap
}.

Section FinalizeExpand.
Context {rt : JsRuntime} {lib : Collaborators}.

Definition finalizePsbtInput (d : Descriptor) (index : Z)
           (inputs : list PsbtDataInput) : Result FinalizeInputCall :=
  let signatures :=
    match Array_at inputs index with
    | Some input => partialSig input
    | None => None
    end in
  match signatures with
  | None => Throw ErrNoSignatures
  | Some signatures =>
      scriptSatisfaction <- getScriptSatisfaction d signatures ;;
      if Buffer_falsy scriptSatisfaction then
        (* Use standard finalizers *)
        Ok (FinalizeStandard index)
      else Ok (FinalizeWith index scriptSatisfaction (d_network d))
  end.

Definition expand (d : Descriptor) : Expansion :=
  mkExpansion (d_expandedExpression d) (d_miniscript d)
    (d_expandedMiniscript d) (d_expansionMap d).

(** The static method [checksum]. *)
Definition Descriptor_checksum (expression : string) : string :=
  DescriptorChecksum expression.
End FinalizeExpand.

(* ===================================================================== *)
(** ** Sample collaborators

    A small, executable instance of the collaborators, used to run the model
    on concrete descriptors.  The patterns recognise the shapes that the
    samples use, the payment templates check and build the standard script
    shapes, and [stand_in_digest] takes the place of the hash functions of
    the curve library, which the model does not compute. *)

Module Sample.

Definition is_hex (a : ascii) : bool := string_mem a "0123456789abcdef".

Definition is_alnum (a : ascii) : bool :=
  string_mem a
    "0123456789abcdefghijklmnopqrstuvwxyzABCDEFGHIJKLMNOPQRSTUVWXYZ".

Definition hex_value (a : ascii) : N :=
  match indexOf a "0123456789abcdef" with
  | Some i => Z.to_N i
  | None => 0%N
  end.

(** [Buffer.from(text, 'hex')] *)
Fixpoint hex_decode (s : string) : Buffer :=
  match s with
  | String hi (String lo rest) =>
      match Byte.of_N (hex_value hi * 16 + hex_value lo) with
      | Some b => b :: hex_decode rest
      | None => nil
      end
  | _ => nil
  end.

Definition ends_with (suffix s : string) : bool :=
  let n := String.length s in
  let k := String.length suffix in
  (k <=? n)%nat && String.eqb (String.substring (n - k) k s) suffix.

(** The text between [opening] and [closing] when [s] has that shape. *)
Definition unwrap (opening closing s : string) : option string :=
  let n := String.length s in
  let i := String.length opening in
  let k := String.length closing in
  if (i + k <=? n)%nat && String.prefix opening s && ends_with closing s
  then Some (String.substring i (n - i - k) s)
  else None.

Definition is_key (k : string) : bool :=
  (String.length k =? 66)%nat && string_forallb is_hex k.

Definition wraps_key (opening closing s : string) : bool :=
  match unwrap opening closing s with
  | Some k => is_key k
  | None => false
  end.

Fixpoint find_key (s : string) : option string :=
  match s with
  | EmptyString => None
  | String _ rest =>
      let candidate := String.substring 0 66 s in
      if is_key candidate then Some candidate else find_key rest
  end.

Definition addr_pattern (s : string) : option string :=
  match unwrap "addr(" ")" s with
  | Some a =>
      if negb (is_empty a) && string_forallb is_alnum a then Some a else None
  | None => None
  end.

Definition stand_in_digest (n : nat) (b : Buffer) : Buffer :=
  firstn n (b ++ repeat x00 n).

Definition b (n : N) : byte :=
  match Byte.of_N n with
  | Some x => x
  | None => x00
  end.

Definition has_shape (prefix : Buffer) (payload : nat) (suffix : Buffer)
           (script : Buffer) : bool :=
  (List.length script =? List.length prefix + payload + List.length suffix)%nat
  && Buffer_eqb (firstn (List.length prefix) script) prefix
  && Buffer_eqb (skipn (List.length prefix + payload) script) suffix.

(** A payment template: from [{ output }] it checks the shape of the script,
    from [{ pubkey }] or [{ redeem }] it builds the script around a digest. *)
Definition template (name : string) (prefix : Buffer) (payload : nat)
           (suffix : Buffer) (a : Payment) (_ : Network) : Result Payment :=
  match pay_output a, pay_pubkey a, pay_redeem a with
  | Some output, _, _ =>
      if has_shape prefix payload suffix output
      then Ok (mkPayment (Some (name ++ ":" ++ Buffer_toHex output)%string)
                 (Some output) None None)
      else Throw (ErrCollaborator "output is invalid")
  | None, Some pubkey, _ =>
      let output := prefix ++ stand_in_digest payload pubkey ++ suffix in
      Ok (mkPayment (Some (name ++ ":" ++ Buffer_toHex output)%string)
            (Some output) (Some pubkey) None)
  | None, None, Some redeem =>
      match pay_output redeem with
      | Some script =>
          let output := prefix ++ stand_in_digest payload script ++ suffix in
          Ok (mkPayment (Some (name ++ ":" ++ Buffer_toHex output)%string)
                (Some output) None (Some redeem))
      | None => Throw (ErrCollaborator "not enough data")
      end
  | None, None, None => Throw (ErrCollaborator "not enough data")
  end.

Definition p2pk_template (a : Payment) (_ : Network) : Result Payment :=
  match pay_pubkey a with
  | Some pubkey =>
      Ok (mkPayment None (Some (b 33 :: pubkey ++ [b 0xac])) (Some pubkey)
            None)
  | None => Throw (ErrCollaborator "not enough data")
  end.

(** [asMinimalOP] of bitcoinjs-lib. *)
Definition asMinimalOP (data : Buffer) : option Z :=
  match data with
  | nil => Some 0
  | [x] =>
      let n := Z.of_N (Byte.to_N x) in
      if (1 <=? n) && (n <=? 16) then Some (80 + n)
      else if n =? 0x81 then Some 79
      else None
  | _ => None
  end.

(** [bscript.decompile] for scripts whose pushes are direct (an opcode from
    [0x01] to [0x4b] followed by that many bytes); the [OP_PUSHDATA] forms
    are not used by the samples. *)
Fixpoint decompile_from (fuel : nat) (script : Buffer)
  : option (list Chunk) :=
  match fuel, script with
  | _, nil => Some nil
  | O, _ => None
  | S fuel, op :: rest =>
      let opcode := Z.of_N (Byte.to_N op) in
      if (0 <? opcode) && (opcode <=? 0x4b) then
        let n := Z.to_nat opcode in
        if (List.length rest <? n)%nat then None
        else
          let data := firstn n rest in
          let chunk :=
            match asMinimalOP data with
            | Some o => ChunkOp o
            | None => ChunkData data
            end in
          option_map (cons chunk) (decompile_from fuel (skipn n rest))
      else if (0x4c <=? opcode) && (opcode <=? 0x4e) then None
      else option_map (cons (ChunkOp opcode)) (decompile_from fuel rest)
  end.

Definition decompile (script : Buffer) : option (list Chunk) :=
  decompile_from (S (List.length script)) script.

(** The number that [Number(text)] denotes, for the text of a buffer. *)
Inductive TextNumber : Type :=
| TextNaN
| TextInfinity (negative : bool)
| TextDecimal (negative : bool) (mantissa exponent : Z).

Definition codes (data : Buffer) : list Z :=
  map (fun x => Z.of_N (Byte.to_N x)) data.

Definition starts_with (prefix l : list Z) : bool :=
  (List.length prefix <=? List.length l)%nat
  && forallb (fun xy => fst xy =? snd xy) (combine prefix l).

(** The white space that [StringToNumber] strips, in UTF-8: TAB to CR,
    SP, U+00A0, U+1680, U+2000 to U+200A, U+2028, U+2029, U+202F, U+205F,
    U+3000 and U+FEFF. *)
Definition white_space : list (list Z) :=
  map (fun c => [c]) [9; 10; 11; 12; 13; 32]
  ++ [[0xc2; 0xa0]; [0xe1; 0x9a; 0x80]]
  ++ map (fun c => [0xe2; 0x80; c])
       [0x80; 0x81; 0x82; 0x83; 0x84; 0x85; 0x86; 0x87; 0x88; 0x89; 0x8a;
        0xa8; 0xa9; 0xaf]
  ++ [[0xe2; 0x81; 0x9f]; [0xe3; 0x80; 0x80]; [0xef; 0xbb; 0xbf]].

Fixpoint trim_start (fuel : nat) (spaces : list (list Z)) (l : list Z)
  : list Z :=
  match fuel with
  | O => l
  | S fuel =>
      match find (fun w => starts_with w l) spaces with
      | Some w => trim_start fuel spaces (skipn (List.length w) l)
      | None => l
      end
  end.

Definition trim (l : list Z) : list Z :=
  let l := trim_start (List.length l) white_space l in
  rev (trim_start (List.length l) (map (@rev Z) white_space) (rev l)).

Definition digit_of (base c : Z) : option Z :=
  let v :=
    if (48 <=? c) && (c <=? 57) then c - 48
    else if (97 <=? c) && (c <=? 102) then c - 87
    else if (65 <=? c) && (c <=? 70) then c - 55
    else base in
  if v <? base then Some v else None.

(** The digits at the start of a text: their value after [acc], their
    number, and the rest of the text. *)
Fixpoint read_digits (base : Z) (l : list Z) (acc count : Z)
  : Z * Z * list Z :=
  match l with
  | c :: rest =>
      match digit_of base c with
      | Some v => read_digits base rest (acc * base + v) (count + 1)
      | None => (acc, count, l)
      end
  | nil => (acc, count, l)
  end.

Definition read_sign (l : list Z) : bool * list Z :=
  match l with
  | c :: rest =>
      if c =? 45 then (true, rest)
      else if c =? 43 then (false, rest)
      else (false, l)
  | nil => (false, l)
  end.

Definition in_base (base : Z) (l : list Z) : TextNumber :=
  match read_digits base l 0 0 with
  | (v, count, nil) => if 0 <? count then TextDecimal false v 0 else TextNaN
  | _ => TextNaN
  end.

Definition exponent_part (l : list Z) : option Z :=
  match l with
  | nil => Some 0
  | c :: rest =>
      if (c =? 101) || (c =? 69) then
        let (negative, rest) := read_sign rest in
        match read_digits 10 rest 0 0 with
        | (v, count, nil) =>
            if 0 <? count then Some (if negative : bool then - v else v)
            else None
        | _ => None
        end
      else None
  end.

Definition unsigned_decimal (negative : bool) (l : list Z) : TextNumber :=
  if starts_with [73; 110; 102; 105; 110; 105; 116; 121] l
     && (List.length l =? 8)%nat
  then TextInfinity negative
  else
    let '(whole, n1, rest) := read_digits 10 l 0 0 in
    let '(mantissa, n2, rest) :=
      match rest with
      | c :: rest' =>
          if c =? 46 then read_digits 10 rest' whole 0
          else (whole, 0, rest)
      | nil => (whole, 0, rest)
      end in
    if n1 + n2 =? 0 then TextNaN
    else
      match exponent_part rest with
      | Some e => TextDecimal negative mantissa (e - n2)
      | None => TextNaN
      end.

(** [StringToNumber]: white space is stripped; the empty text is zero; a
    literal is in base 16, 8 or 2 after [0x], [0o] or [0b], or else a
    signed decimal literal or [Infinity]; any other text is NaN. *)
Definition StringToNumber (data : Buffer) : TextNumber :=
  match trim (codes data) with
  | nil => TextDecimal false 0 0
  | (c :: rest) as l =>
      match rest with
      | c' :: digits =>
          if (c =? 48) && ((c' =? 120) || (c' =? 88)) then in_base 16 digits
          else if (c =? 48) && ((c' =? 111) || (c' =? 79))
          then in_base 8 digits
          else if (c =? 48) && ((c' =? 98) || (c' =? 66))
          then in_base 2 digits
          else let (negative, l) := read_sign l in
               unsigned_decimal negative l
      | nil => let (negative, l) := read_sign l in unsigned_decimal negative l
      end
  end.

(** [p / q >= 2^e] *)
Definition at_least (p q e : Z) : bool :=
  if 0 <=? e then q * 2 ^ e <=? p else q <=? p * 2 ^ (- e).

(** The double nearest to the positive rational [p / q], as a significand
    of at most 53 bits and an exponent of two; [None] above the doubles. *)
Definition round_double (p q : Z) : option (Z * Z) :=
  let e := Z.log2 p - Z.log2 q in
  let e := if at_least p q e then e else e - 1 in
  let e := Z.max e (-1022) in
  let s := 52 - e in
  let num := if 0 <=? s then p * 2 ^ s else p in
  let den := if 0 <=? s then q else q * 2 ^ (- s) in
  let m := num / den in
  let r := num mod den in
  let m := if (den <? 2 * r) || ((2 * r =? den) && Z.odd m) then m + 1
           else m in
  if (1023 <? e) || ((e =? 1023) && (2 ^ 53 <=? m)) then None
  else Some (m, e - 52).

(** [value > n] for the double that a text denotes and an integer [n]. *)
Definition TextNumber_gt (v : TextNumber) (n : Z) : bool :=
  match v with
  | TextNaN => false
  | TextInfinity negative => negb negative
  | TextDecimal negative mantissa exponent =>
      let size := Z.of_nat (String.length (decimal mantissa)) + exponent in
      if (mantissa =? 0) || (size <? -330) then 0 >? n
      else if 310 <? size then negb negative
      else
        let p := if 0 <=? exponent then mantissa * 10 ^ exponent
                 else mantissa in
        let q := if 0 <=? exponent then 1 else 10 ^ (- exponent) in
        match round_double p q with
        | None => negb negative
        | Some (m, e) =>
            let m := if negative then - m else m in
            if 0 <=? e then m * 2 ^ e >? n else m >? n * 2 ^ (- e)
        end
  end.

(** The runtime: [buffer > number] compares the number that the text of
    the buffer denotes. *)
#[export] Instance runtime : JsRuntime := {|
  Buffer_gt data n := TextNumber_gt (StringToNumber data) n
|}.

(** The compressed public key of the sample signer. *)
Definition K : string :=
  "0279be667ef9dcbbac55a06295ce870b07029bfcdb2dce28d959f2815b16f81798".

Definition K_info : KeyInfo := mkKeyInfo K (hex_decode K) None None.

Definition push (data : Buffer) : Buffer :=
  b (N.of_nat (List.length data)) :: data.

Definition OP_CHECKSIGVERIFY : byte := b 0xad.
Definition OP_CHECKSEQUENCEVERIFY : byte := b 0xb2.
Definition OP_CHECKLOCKTIMEVERIFY : byte := b 0xb1.
Definition OP_VERIFY : byte := b 0x69.
Definition OP_1 : byte := b 0x51.
Definition OP_10 : byte := b 0x5a.

(** Sample miniscripts (expanded form) with the scripts they compile to. *)
Definition m_older : string := "and_v(v:pk(@0),older(10))".
Definition script_older : Buffer :=
  push (hex_decode K) ++ [OP_CHECKSIGVERIFY; OP_10; OP_CHECKSEQUENCEVERIFY].

Definition m_after : string := "and_v(v:pk(@0),after(500000))".
Definition script_after : Buffer :=
  push (hex_decode K) ++ [OP_CHECKSIGVERIFY] ++ push [b 0x20; b 0xa1; b 0x07]
  ++ [OP_CHECKLOCKTIMEVERIFY].

Fixpoint chain (n : nat) : string :=
  match n with
  | O => "older(1)"
  | S n => ("and_v(v:older(1)," ++ chain n ++ ")")%string
  end.

Fixpoint chain_script (n : nat) : Buffer :=
  match n with
  | O => [OP_1; OP_CHECKSEQUENCEVERIFY]
  | S n => [OP_1; OP_CHECKSEQUENCEVERIFY; OP_VERIFY] ++ chain_script n
  end.

Definition m_chain (n : nat) : string :=
  ("and_v(v:pk(@0)," ++ chain n ++ ")")%string.
Definition script_chain (n : nat) : Buffer :=
  push (hex_decode K) ++ [OP_CHECKSIGVERIFY] ++ chain_script n.

(** A lock of 14137 blocks: its script number is the two bytes [39 37],
    which read as the text [97]. *)
Definition numeric_lock : Buffer := push [b 0x39; b 0x37].

Fixpoint numeric_chain (n : nat) : string :=
  match n with
  | O => "older(14137)"
  | S n => ("and_v(v:older(14137)," ++ numeric_chain n ++ ")")%string
  end.

Fixpoint numeric_chain_script (n : nat) : Buffer :=
  match n with
  | O => numeric_lock ++ [OP_CHECKSEQUENCEVERIFY]
  | S n =>
      numeric_lock ++ [OP_CHECKSEQUENCEVERIFY; OP_VERIFY]
      ++ numeric_chain_script n
  end.

Definition m_numeric (n : nat) : string :=
  ("and_v(v:pk(@0)," ++ numeric_chain n ++ ")")%string.
Definition script_numeric (n : nat) : Buffer :=
  push (hex_decode K) ++ [OP_CHECKSIGVERIFY] ++ numeric_chain_script n.

Definition m_pk : string := "pk(@0)".
Definition script_pk : Buffer := push (hex_decode K) ++ [b 0xac].

Definition compiled : list (string * Buffer) :=
  [(m_pk, script_pk); (m_older, script_older); (m_after, script_after);
   (m_chain 99, script_chain 99); (m_numeric 67, script_numeric 67)].

Fixpoint lookup {A : Type} (key : string) (table : list (string * A))
  : option A :=
  match table with
  | nil => None
  | (k, v) :: rest => if String.eqb k key then Some v else lookup key rest
  end.

(** Replaces the first occurrence of the sample key by its placeholder. *)
Fixpoint expand_key (fuel : nat) (s : string) : string :=
  match fuel, s with
  | S fuel, String c rest =>
      if String.prefix K s
      then ("@0" ++ String.substring 66 (String.length s - 66) s)%string
      else String c (expand_key fuel rest)
  | _, _ => s
  end.

Definition signature_of (pubkey : Buffer) (signatures : list PartialSig)
  : option Buffer :=
  option_map signature
    (find (fun s => Buffer_eqb (ps_pubkey s) pubkey) signatures).

Definition satisfactions (expandedMiniscript : string)
           (signatures : list PartialSig) : list Satisfaction :=
  match signature_of (hex_decode K) signatures with
  | None => nil
  | Some sig =>
      if String.eqb expandedMiniscript m_older
      then [mkSatisfaction (Some (push sig)) None (Some 10)]
      else if String.eqb expandedMiniscript m_after
      then [mkSatisfaction (Some (push sig)) (Some 500000) None]
      else nil
  end.

(** Two inputs that spend the same output of the same transaction. *)
Definition same_outpoint (i j : PsbtInputExtended) : bool :=
  Buffer_eqb (in_hash i) (in_hash j) && (in_index i =? in_index j).

Definition sample_address : string := "1BvBMSEYstWetqTFn5Au4m4GFg7xJaNVN2".
Definition sample_address_script : Buffer :=
  hex_decode "76a91477bff20c60e522dfaa3350c39b030a5d004e839a88ac".

#[export] Instance collaborators : Collaborators := {|
  reAddrAnchored := addr_pattern;
  rePkAnchored := wraps_key "pk(" ")";
  rePkhAnchored := wraps_key "pkh(" ")";
  reShWpkhAnchored := wraps_key "sh(wpkh(" "))";
  reWpkhAnchored := wraps_key "wpkh(" ")";
  reShWshMiniscriptAnchored := unwrap "sh(wsh(" "))";
  reShMiniscriptAnchored := unwrap "sh(" ")";
  reWshMiniscriptAnchored := unwrap "wsh(" ")";
  reKeyExp := find_key;
  address_toOutputScript a _ :=
    if String.eqb a sample_address then Ok sample_address_script
    else Throw (ErrCollaborator "has no matching Script");
  p2pk := p2pk_template;
  p2pkh := template "p2pkh" [b 0x76; b 0xa9; b 0x14] 20 [b 0x88; b 0xac];
  p2sh := template "p2sh" [b 0xa9; b 0x14] 20 [b 0x87];
  p2wpkh := template "p2wpkh" [b 0x00; b 0x14] 20 nil;
  p2wsh := template "p2wsh" [b 0x00; b 0x20] 32 nil;
  p2tr := template "p2tr" [b 0x51; b 0x20] 32 nil;
  bscript_decompile := decompile;
  Transaction_fromHex txHex :=
    let buffer := hex_decode txHex in
    Ok (mkTransaction [mkTxOutput sample_address_script 100000]
          (stand_in_digest 32 buffer) buffer);
  Psbt_checkLocktime _ locktime :=
    if (0 <=? locktime) && (locktime <? 2 ^ 32) then Ok tt
    else Throw (ErrCollaborator "not an integer of 32 bits");
  Psbt_checkInput _ _ := Ok tt;
  Psbt_checkStored psbt :=
    match rev (psbt_inputs psbt) with
    | stored :: earlier =>
        if existsb (same_outpoint stored) earlier
        then Throw (ErrCollaborator "Duplicate input detected.")
        else Ok tt
    | nil => Ok tt
    end;
  parseKeyExpression k _ _ :=
    if is_key k then Ok (mkKeyInfo k (hex_decode k) None None)
    else Throw (ErrCollaborator "could not parse the key expression");
  expandMiniscript m _ _ :=
    Ok (expand_key (String.length m) m, [("@0", K_info)]);
  miniscript2Script expandedMiniscript _ :=
    match lookup expandedMiniscript compiled with
    | Some script => Ok script
    | None => Throw (ErrCollaborator "unknown miniscript")
    end;
  validSatisfactions expandedMiniscript _ signatures _ :=
    Ok (satisfactions expandedMiniscript signatures)
|}.

Definition signature_K : PartialSig :=
  mkPartialSig (hex_decode K) (repeat (b 0x30) 71).

Definition wsh_older : Params :=
  default_params ("wsh(and_v(v:pk(" ++ K ++ "),older(10)))").
Definition wsh_after : Params :=
  default_params ("wsh(and_v(v:pk(" ++ K ++ "),after(500000)))").
Definition sh_wsh_older : Params :=
  default_params ("sh(wsh(and_v(v:pk(" ++ K ++ "),older(10))))").
Definition sh_pk : Params := default_params ("sh(pk(" ++ K ++ "))").
Definition sh_chain (n : nat) (allow : bool) : Params :=
  mkParams ("sh(and_v(v:pk(" ++ K ++ ")," ++ chain n ++ "))") None false
    allow networks_bitcoin nil None.
Definition wsh_chain (n : nat) : Params :=
  default_params ("wsh(and_v(v:pk(" ++ K ++ ")," ++ chain n ++ "))").
Definition wsh_numeric (n : nat) : Params :=
  default_params ("wsh(and_v(v:pk(" ++ K ++ ")," ++ numeric_chain n ++ "))").
Definition sh_wsh_numeric (n : nat) : Params :=
  default_params
    ("sh(wsh(and_v(v:pk(" ++ K ++ ")," ++ numeric_chain n ++ ")))").
Definition sh_numeric (n : nat) : Params :=
  mkParams ("sh(and_v(v:pk(" ++ K ++ ")," ++ numeric_chain n ++ "))") None
    false true networks_bitcoin nil None.
Definition addr_sample : Params :=
  default_params ("addr(" ++ sample_address ++ ")").
Definition wpkh_K : Params := default_params ("wpkh(" ++ K ++ ")").

(** The descriptor that the constructor returns for sample parameters. *)
Definition constructed (a : Params) : Descriptor :=
  match Descriptor_constructor a with
  | Ok d => d
  | Throw _ =>
      mkDescriptor (mkPayment None None None None) nil None None None None
        None None None networks_bitcoin None
  end.

(** A range descriptor with its checksum. *)
Definition ranged_body : string :=
  ("wpkh([d34db33f/84h/0h/0h]"
   ++ "xpub6DJ2dNUysrn5Vt36jH2KLBT2i1auw1tTSSomg8PhqNiUtx8QX2SvC9nrHu81fT41"
   ++ "fvDUnhMjEzQgXnQjKEu3oaqMSzhSrHMxyyoEAmUHQbY/0/*)")%string.
Definition ranged (index : option JsNumber) : Params :=
  mkParams (ranged_body ++ "#cjjspncu") index true false networks_bitcoin nil
    None.

Definition pk_body : string := ("pk(" ++ K ++ ")")%string.

(** A [Psbt] without lock time that already spends output 0 of the sample
    transaction, through a descriptor that has no lock time. *)
Definition spent_once : Psbt :=
  fst (updatePsbt (constructed wsh_older) "0200000001" 0
         (mkPsbt (Some 0) nil)).

End Sample.


(* ===================================================================== *)
(** ** Notions used in the statements *)

(** The two stages of [evaluate]: the expression once its checksum has been
    verified and removed, and the particularisation for an index. *)
Definition checked_body (expression : string) (checksumRequired : bool)
  : Result string :=
  match match_reChecksum_end expression with
  | None => if checksumRequired then Throw ErrNoChecksum else Ok expression
  | Some m0 =>
      let body :=
        js_substring expression 0
          (String.length expression - String.length m0) in
      if String.eqb (js_substring_from m0 1) (DescriptorChecksum body)
      then Ok body
      else Throw ErrInvalidChecksum
  end.

Definition particularise (body : string)
           (index : option JsNumber) : Result string :=
  if (0 <? List.length (match_all_star body))%nat then
    match index with
    | None => Throw ErrIndexNotProvided
    | Some index =>
        if negb (Number_isInteger index) || Number_ltz index
        then Throw ErrInvalidIndex
        else Ok (replaceAll_star body (Number_toString index))
    end
  else Ok body.

Definition has_wildcard (s : string) : bool := string_mem star s.

(** The pieces of a text between its wildcards. *)
Fixpoint segments (s : string) : list string :=
  match s with
  | EmptyString => [EmptyString]
  | String c rest =>
      if Ascii.eqb c star then EmptyString :: segments rest
      else
        match segments rest with
        | seg :: segs => String c seg :: segs
        | nil => [String c EmptyString]
        end
  end.

(** A descriptor body over the input alphabet of the checksum. *)
Definition valid_body (body : string) : Prop :=
  string_forallb (fun a => string_mem a INPUT_CHARSET) body = true.

(** [substitution s t]: [t] is [s] with exactly one character replaced by a
    different one. *)
Inductive substitution : string -> string -> Prop :=
| substitution_here (a b : ascii) (rest : string) :
    a <> b -> substitution (String a rest) (String b rest)
| substitution_later (c : ascii) (s t : string) :
    substitution s t -> substitution (String c s) (String c t).

(** The symbols that [scan] and [finish] feed to [PolyMod] for a list of
    alphabet positions, starting in the middle of a group. *)
Fixpoint symbols (positions : list Z) (cls clscount : Z) : list Z :=
  match positions with
  | nil => if 0 <? clscount then [cls] else nil
  | pos :: rest =>
      Z.land pos 31 ::
      (if clscount + 1 =? 3
       then (cls * 3 + Z.shiftr pos 5) :: symbols rest 0 0
       else symbols rest (cls * 3 + Z.shiftr pos 5) (clscount + 1))
  end.

Fixpoint positions_of (span : string) : option (list Z) :=
  match span with
  | EmptyString => Some nil
  | String ch rest =>
      match indexOf ch INPUT_CHARSET, positions_of rest with
      | Some pos, Some l => Some (pos :: l)
      | _, _ => None
      end
  end.

Definition poly (c : Z) (l : list Z) : Z := fold_left PolyMod l c.

Definition pack (l : list Z) : Z :=
  fold_left (fun acc v => Z.lxor (Z.shiftl acc 5) v) l 0.

(** Ranges: a five-bit symbol, a forty-bit accumulator state, a position
    in the input alphabet, and the group number collected so far together
    with the count of characters it was collected from. *)
Definition symbol (v : Z) : Prop := 0 <= v < 32.
Definition state40 (c : Z) : Prop := 0 <= c < 2 ^ 40.

Definition position (p : Z) : Prop := 0 <= p < 96.

Definition group_state (cls clscount : Z) : Prop :=
  (clscount = 0 /\ cls = 0)
  \/ (clscount = 1 /\ 0 <= cls < 3)
  \/ (clscount = 2 /\ 0 <= cls < 9).

(** The character that stands for a five-bit value, and the eight five-bit
    values of a state, most significant first. *)
Definition char_of (i : Z) : ascii :=
  match String.get (Z.to_nat i) CHECKSUM_CHARSET with
  | Some a => a
  | None => "q"%char
  end.

Definition digit (c : Z) (j : Z) : Z :=
  Z.land (Z.shiftr c (5 * (7 - j))) 31.

(** The template attempts of the [addr] production, in program order. *)
Definition addr_attempts `{Collaborators} (output : Buffer)
           (network : Network) : list (Result Payment) :=
  [p2pkh (with_output output) network;
   p2sh (with_output output) network;
   p2wpkh (with_output output) network;
   p2wsh (with_output output) network;
   p2tr (with_output output) network].

(** The result of the last attempt that did not fail. *)
Fixpoint last_success {A : Type} (attempts : list (Result A)) : option A :=
  match attempts with
  | nil => None
  | r :: rest =>
      match last_success rest with
      | Some a => Some a
      | None =>
          match r with
          | Ok a => Some a
          | Throw _ => None
          end
      end
  end.

Definition miniscript_bearing (p : Production) : bool :=
  match p with
  | PShWsh | PSh | PWsh => true
  | _ => false
  end.

(** What the templates make of a witness script, for the two productions
    that carry one. *)
Definition witness_payment `{Collaborators} (p : Production)
           (script : Buffer) (network : Network) : Result Payment :=
  match p with
  | PShWsh =>
      inner <- p2wsh (with_redeem (with_output script)) network ;;
      payment <- p2sh (with_redeem inner) network ;;
      match pay_redeem_output payment with
      | None => Throw ErrNoRedeemScript
      | Some _ => Ok payment
      end
  | _ => p2wsh (with_redeem (with_output script)) network
  end.

Definition matched_miniscript `{Collaborators} (e : string) : option string :=
  match production e with
  | PShWsh => reShWshMiniscriptAnchored e
  | PSh => reShMiniscriptAnchored e
  | PWsh => reWshMiniscriptAnchored e
  | _ => None
  end.

(** A descriptor with its miniscript expanded, as the three miniscript
    productions leave it. *)
Definition expanded (d : Descriptor) (miniscript : string) : Prop :=
  d_miniscript d = Some miniscript /\
  miniscript <> EmptyString /\
  (exists expandedMiniscript expansionMap segwit,
      d_expandedMiniscript d = Some expandedMiniscript
      /\ d_expansionMap d = Some expansionMap
      /\ d_isSegwit d = Some segwit).


(** The constructor's parameters with one of them replaced. *)
Definition with_index (a : Params) (index : option JsNumber) : Params :=
  mkParams (expression a) index (checksumRequired a)
    (allowMiniscriptInP2SH a) (network a) (preimages a)
    (signersKeyExpressions a).

Definition with_checksumRequired (a : Params) (required : bool) : Params :=
  mkParams (expression a) (index a) required (allowMiniscriptInP2SH a)
    (network a) (preimages a) (signersKeyExpressions a).

Definition with_allowMiniscriptInP2SH (a : Params) (allow : bool) : Params :=
  mkParams (expression a) (index a) (checksumRequired a) allow (network a)
    (preimages a) (signersKeyExpressions a).

Definition with_expression (a : Params) (expression : string) : Params :=
  mkParams expression (index a) (checksumRequired a)
    (allowMiniscriptInP2SH a) (network a) (preimages a)
    (signersKeyExpressions a).

(** What the constructor does with an evaluated expression. *)
Definition dispatch {rt : JsRuntime} {lib : Collaborators} (e : string)
           (a : Params) : Result Descriptor :=
  match production e with
  | PAddr =>
      match reAddrAnchored e with
      | Some matched => construct_addr matched a
      | None => Throw ErrCouldNotParse
      end
  | PPk => construct_pk e a
  | PPkh => construct_pkh e a
  | PShWpkh => construct_sh_wpkh e a
  | PWpkh => construct_wpkh e a
  | PShWsh | PSh | PWsh =>
      match matched_miniscript e with
      | Some matched =>
          match production e with
          | PShWsh => construct_sh_wsh matched a
          | PSh => construct_sh matched a
          | _ => construct_wsh matched a
          end
      | None => Throw ErrCouldNotParse
      end
  | PNone => Throw ErrCouldNotParse
  end.

(** Whether a production sets the segwit flag, and to what. *)
Definition segwit_of (p : Production) : option bool :=
  match p with
  | PPk | PPkh | PSh => Some false
  | PShWpkh | PWpkh | PShWsh | PWsh => Some true
  | PAddr | PNone => None
  end.

Definition single_key_bearing (p : Production) : bool :=
  match p with
  | PPk | PPkh | PShWpkh | PWpkh => true
  | _ => false
  end.

(** The text that a production puts around its key expression or its
    miniscript. *)
Definition opening (p : Production) : string :=
  match p with
  | PPk => "pk("
  | PPkh => "pkh("
  | PShWpkh => "sh(wpkh("
  | PWpkh => "wpkh("
  | PShWsh => "sh(wsh("
  | PSh => "sh("
  | PWsh => "wsh("
  | PAddr | PNone => ""
  end.

Definition closing (p : Production) : string :=
  match p with
  | PShWpkh | PShWsh => "))"
  | PAddr | PNone => ""
  | _ => ")"
  end.

Definition wrap (p : Production) (inner : string) : string :=
  opening p ++ inner ++ closing p.

(** The payment of a production with a single key, from the templates. *)
Definition key_payment `{Collaborators} (p : Production) (pubkey : Buffer)
           (network : Network) : Result Payment :=
  match p with
  | PPk => p2pk (with_pubkey pubkey) network
  | PPkh => p2pkh (with_pubkey pubkey) network
  | PShWpkh =>
      inner <- p2wpkh (with_pubkey pubkey) network ;;
      p2sh (with_redeem inner) network
  | _ => p2wpkh (with_pubkey pubkey) network
  end.

(** The size limit of the script that a miniscript production compiles. *)
Definition script_size_limit (p : Production) : Z :=
  match p with
  | PSh => MAX_SCRIPT_ELEMENT_SIZE
  | _ => MAX_STANDARD_P2WSH_SCRIPT_SIZE
  end.

(** The payment of a miniscript production, from the templates. *)
Definition script_payment `{Collaborators} (p : Production) (script : Buffer)
           (network : Network) : Result Payment :=
  match p with
  | PSh => p2sh (with_redeem (with_output script)) network
  | PShWsh =>
      inner <- p2wsh (with_redeem (with_output script)) network ;;
      p2sh (with_redeem inner) network
  | _ => p2wsh (with_redeem (with_output script)) network
  end.

(** The opcodes of a decompiled script above [OP_16]: its operations other
    than pushes. *)
Definition non_push_ops (chunks : list Chunk) : Z :=
  Z.of_nat
    (List.length
       (filter (fun op => match op with
                          | ChunkOp n => n >? OP_16
                          | ChunkData _ => false
                          end) chunks)).

(** The pushes of a decompiled script whose data compares greater than
    [OP_16]. *)
Definition numeric_pushes `{JsRuntime} (chunks : list Chunk) : Z :=
  Z.of_nat
    (List.length
       (filter (fun op => match op with
                          | ChunkOp _ => false
                          | ChunkData data => Buffer_gt data OP_16
                          end) chunks)).

Definition with_signersKeyExpressions (a : Params)
           (declared : option (list string)) : Params :=
  mkParams (expression a) (index a) (checksumRequired a)
    (allowMiniscriptInP2SH a) (network a) (preimages a) declared.

(** A descriptor with other declared signers. *)
Definition declare (d : Descriptor) (declared : option (list string))
  : Descriptor :=
  mkDescriptor (d_payment d) (d_preimages d) (d_miniscript d)
    (d_witnessScript d) (d_redeemScript d) (d_isSegwit d)
    (d_expandedExpression d) (d_expandedMiniscript d) (d_expansionMap d)
    (d_network d) declared.

(** A step of [updatePsbt] that leaves the lock time of the [Psbt] as it
    is, whether it returns or throws. *)
Definition keeps_locktime {A : Type} (m : PsbtM A) : Prop :=
  forall psbt, psbt_locktime (fst (m psbt)) = psbt_locktime psbt.

(** A key of the expansion map with an origin: a master fingerprint and a
    non-empty path. *)
Definition has_origin (keyInfo : KeyInfo) : Prop :=
  exists fingerprint p,
    masterFingerprint keyInfo = Some fingerprint
    /\ path keyInfo = Some p /\ p <> EmptyString.

(* ===================================================================== *)
(** * Properties *)

(** ** Strings *)

Lemma length_append (s t : string) :
  String.length (s ++ t) = (String.length s + String.length t)%nat.
Proof. induction s as [|c s IH]; simpl; [reflexivity | now rewrite IH]. Qed.

Lemma substring_0_length (s : string) :
  String.substring 0 (String.length s) s = s.
Proof. induction s as [|c s IH]; simpl; [reflexivity | now rewrite IH]. Qed.

Lemma substring_0_append (s t : string) :
  String.substring 0 (String.length s) (s ++ t) = s.
Proof.
  induction s as [|c s IH]; simpl.
  - destruct t; reflexivity.
  - now rewrite IH.
Qed.

Lemma substring_skip_append (s t : string) (n : nat) :
  String.substring (String.length s) n (s ++ t) = String.substring 0 n t.
Proof. induction s as [|c s IH]; simpl; [reflexivity | exact IH]. Qed.

Lemma substring_split (s : string) (n : nat) :
  (n <= String.length s)%nat ->
  s = (String.substring 0 n s
       ++ String.substring n (String.length s - n) s)%string.
Proof.
  revert n; induction s as [|c s IH]; intros n Hn; simpl in *.
  - destruct n; [reflexivity | lia].
  - destruct n as [|n]; simpl.
    + now rewrite substring_0_length.
    + f_equal. apply IH. lia.
Qed.

Lemma length_substring (s : string) (n m : nat) :
  (n + m <= String.length s)%nat ->
  String.length (String.substring n m s) = m.
Proof.
  revert n m; induction s as [|c s IH]; intros n m Hn; simpl in *.
  - destruct n, m; simpl; lia.
  - destruct n as [|n].
    + destruct m as [|m]; simpl; [reflexivity|]. f_equal.
      apply (IH 0%nat). lia.
    + apply IH. lia.
Qed.

Lemma string_mem_append (c : ascii) (s t : string) :
  string_mem c (s ++ t) = string_mem c s || string_mem c t.
Proof.
  induction s as [|x s IH]; simpl; [reflexivity|].
  now rewrite IH, orb_assoc.
Qed.

Lemma string_forallb_mem (p : ascii -> bool) (s : string) (c : ascii) :
  string_forallb p s = true -> string_mem c s = true -> p c = true.
Proof.
  induction s as [|x s IH]; simpl; [discriminate|].
  intros Hall Hmem. apply andb_true_iff in Hall as [Hx Hs].
  apply orb_true_iff in Hmem as [Heq | Hin].
  - apply Ascii.eqb_eq in Heq. now subst.
  - now apply IH.
Qed.

Lemma string_forallb_append (p : ascii -> bool) (s t : string) :
  string_forallb p (s ++ t) = string_forallb p s && string_forallb p t.
Proof.
  induction s as [|x s IH]; simpl; [reflexivity|].
  now rewrite IH, andb_assoc.
Qed.

Lemma match_all_star_wildcard (s : string) :
  (0 <? List.length (match_all_star s))%nat = has_wildcard s.
Proof.
  unfold has_wildcard.
  induction s as [|c s IH]; simpl; [reflexivity|].
  destruct (Ascii.eqb c star); simpl; [reflexivity | exact IH].
Qed.

(** ** [evaluate] *)

Section EvaluateFacts.

Lemma evaluate_stages (expression : string) (checksumRequired : bool)
      (index : option JsNumber) :
  evaluate expression checksumRequired index =
  (body <- checked_body expression checksumRequired ;;
   particularise body index).
Proof.
  unfold evaluate, checked_body, particularise.
  destruct (match_reChecksum_end expression) as [m0|];
    destruct checksumRequired; simpl; try reflexivity;
    destruct (String.eqb _ _); reflexivity.
Qed.

Lemma particularise_wildcard (body : string) (index : option JsNumber) :
  has_wildcard body = true ->
  particularise body index =
  match index with
  | None => Throw ErrIndexNotProvided
  | Some (JsInt z) =>
      if z <? 0 then Throw ErrInvalidIndex
      else Ok (replaceAll_star body (Number_toString (JsInt z)))
  | Some (JsNonInt _) => Throw ErrInvalidIndex
  end.
Proof.
  intros Hw. unfold particularise.
  rewrite match_all_star_wildcard, Hw.
  destruct index as [[z|printed]|]; simpl; reflexivity.
Qed.

Lemma particularise_plain (body : string) (index : option JsNumber) :
  has_wildcard body = false -> particularise body index = Ok body.
Proof.
  intros Hw. unfold particularise.
  now rewrite match_all_star_wildcard, Hw.
Qed.
End EvaluateFacts.

Lemma checksum_charset_no_star (s : string) :
  string_forallb (fun a => string_mem a CHECKSUM_CHARSET) s = true ->
  string_mem star s = false.
Proof.
  intros Hall. destruct (string_mem star s) eqn:Hmem; [|reflexivity].
  pose proof (string_forallb_mem _ _ _ Hall Hmem) as Habs.
  vm_compute in Habs. discriminate.
Qed.

Lemma reChecksum_no_star (m0 : string) :
  reChecksum_matches m0 = true -> has_wildcard m0 = false.
Proof.
  unfold reChecksum_matches, has_wildcard.
  destruct m0 as [|c rest]; [discriminate|].
  intros Hm. apply andb_true_iff in Hm as [Hm Hall].
  apply andb_true_iff in Hm as [Hc _].
  apply Ascii.eqb_eq in Hc. subst c. simpl.
  now apply checksum_charset_no_star.
Qed.

(** What a match of the checksum pattern at the end of the expression says:
    the expression is a body followed by the nine matched characters. *)
Lemma match_reChecksum_end_inv (expression m0 : string) :
  match_reChecksum_end expression = Some m0 ->
  reChecksum_matches m0 = true /\
  String.length m0 = 9%nat /\
  expression =
  (js_substring expression 0 (String.length expression - String.length m0)
   ++ m0)%string.
Proof.
  unfold match_reChecksum_end, js_substring.
  destruct (String.length expression <? 9)%nat eqn:Hlen; [discriminate|].
  apply Nat.ltb_ge in Hlen.
  destruct (reChecksum_matches _) eqn:Hre; [|discriminate].
  intros Heq. injection Heq as <-.
  assert (Hl : String.length
                 (String.substring (String.length expression - 9)
                    (String.length expression - (String.length expression - 9))
                    expression) = 9%nat).
  { rewrite length_substring; lia. }
  repeat split; [assumption | assumption |].
  rewrite Hl, Nat.sub_0_r.
  apply substring_split. lia.
Qed.

Lemma checked_body_wildcard (expression body : string) (required : bool) :
  checked_body expression required = Ok body ->
  has_wildcard body = has_wildcard expression.
Proof.
  unfold checked_body.
  destruct (match_reChecksum_end expression) as [m0|] eqn:Hm.
  - destruct (match_reChecksum_end_inv _ _ Hm) as (Hre & _ & Hsplit).
    remember (js_substring expression 0
                (String.length expression - String.length m0)) as prefix.
    destruct (String.eqb _ _); [|discriminate].
    intros Heq. injection Heq as <-.
    rewrite Hsplit. pose proof (reChecksum_no_star _ Hre) as Hnone.
    unfold has_wildcard in *.
    now rewrite string_mem_append, Hnone, orb_false_r.
  - destruct required; [discriminate|]. now intros [= <-].
Qed.

(** ** Wildcards and their segments *)

Lemma segments_nonempty (s : string) : segments s <> nil.
Proof.
  induction s as [|c s IH]; simpl; [discriminate|].
  destruct (Ascii.eqb c star); [discriminate|].
  destruct (segments s); [contradiction | discriminate].
Qed.

Lemma concat_cons_char (sep : string) (c : ascii) (seg : string)
      (segs : list string) :
  String.concat sep (String c seg :: segs) =
  String c (String.concat sep (seg :: segs)).
Proof. destruct segs; reflexivity. Qed.

Lemma replaceAll_star_segments (s by_ : string) :
  replaceAll_star s by_ = String.concat by_ (segments s).
Proof.
  induction s as [|c s IH]; simpl; [reflexivity|].
  destruct (Ascii.eqb c star).
  - rewrite IH. pose proof (segments_nonempty s) as Hne.
    destruct (segments s) as [|seg segs]; [contradiction | reflexivity].
  - rewrite IH. pose proof (segments_nonempty s) as Hne.
    destruct (segments s) as [|seg segs]; [contradiction|].
    now rewrite concat_cons_char.
Qed.

Lemma segments_no_wildcard (s : string) :
  Forall (fun seg => has_wildcard seg = false) (segments s).
Proof.
  induction s as [|c s IH]; simpl.
  - constructor; [reflexivity | constructor].
  - destruct (Ascii.eqb c star) eqn:Hc.
    + constructor; [reflexivity | exact IH].
    + destruct (segments s) as [|seg segs]; inversion IH; subst.
      * repeat constructor. unfold has_wildcard. simpl. now rewrite Hc.
      * constructor; [|assumption].
        unfold has_wildcard in *. simpl. now rewrite Hc.
Qed.

Lemma segments_join (s : string) : String.concat "*" (segments s) = s.
Proof.
  induction s as [|c s IH]; simpl; [reflexivity|].
  destruct (Ascii.eqb c star) eqn:Hc.
  - apply Ascii.eqb_eq in Hc. subst c.
    pose proof (segments_nonempty s) as Hne.
    destruct (segments s) as [|seg segs]; [contradiction|].
    simpl in *. now rewrite IH.
  - pose proof (segments_nonempty s) as Hne.
    destruct (segments s) as [|seg segs]; [contradiction|].
    rewrite concat_cons_char. now rewrite IH.
Qed.

Lemma segments_count (s : string) :
  List.length (segments s) = S (List.length (match_all_star s)).
Proof.
  induction s as [|c s IH]; simpl; [reflexivity|].
  destruct (Ascii.eqb c star); simpl; [now rewrite IH|].
  pose proof (segments_nonempty s) as Hne.
  destruct (segments s) as [|seg segs]; [contradiction|].
  simpl in *. exact IH.
Qed.

(** ** The constructor: checksum, index and dispatch *)

Section ConstructorFacts.
Context {rt : JsRuntime} {lib : Collaborators}.

Lemma constructor_evaluate_throws (a : Params) (e : Error) :
  evaluate (expression a) (checksumRequired a) (index a) = Throw e ->
  Descriptor_constructor a = Throw e.
Proof. intros He. unfold Descriptor_constructor. now rewrite He. Qed.

(** C7.  For an expression that contains a wildcard, construction throws
    when the index is omitted and when the index is not an integer or is
    negative (the error is the one of the checksum stage, if that stage
    fails first, and the index error otherwise); a non-negative integer
    index is accepted: [evaluate] returns the body with its wildcards
    replaced. *)
Theorem wildcard_index_checked (a : Params) :
  has_wildcard (expression a) = true ->
  (index a = None ->
   exists e, Descriptor_constructor a = Throw e /\
             (checked_body (expression a) (checksumRequired a) = Throw e
              \/ e = ErrIndexNotProvided)) /\
  (forall n, index a = Some n ->
             Number_isInteger n = false \/ Number_ltz n = true ->
   exists e, Descriptor_constructor a = Throw e /\
             (checked_body (expression a) (checksumRequired a) = Throw e
              \/ e = ErrInvalidIndex)) /\
  (forall z body, index a = Some (JsInt z) -> 0 <= z ->
     checked_body (expression a) (checksumRequired a) = Ok body ->
     evaluate (expression a) (checksumRequired a) (index a) =
     Ok (replaceAll_star body (Number_toString (JsInt z)))).
Proof.
  intros Hw.
  assert (Hstage :
            forall body,
              checked_body (expression a) (checksumRequired a) = Ok body ->
              evaluate (expression a) (checksumRequired a) (index a) =
              match index a with
              | None => Throw ErrIndexNotProvided
              | Some (JsInt z) =>
                  if z <? 0 then Throw ErrInvalidIndex
                  else Ok (replaceAll_star body (Number_toString (JsInt z)))
              | Some (JsNonInt _) => Throw ErrInvalidIndex
              end).
  { intros body Hbody. rewrite evaluate_stages, Hbody. simpl.
    apply particularise_wildcard.
    now rewrite (checked_body_wildcard _ _ _ Hbody). }
  repeat split.
  - intros Hidx.
    destruct (checked_body (expression a) (checksumRequired a))
      as [body|e] eqn:Hbody.
    + exists ErrIndexNotProvided. split; [|now right].
      apply constructor_evaluate_throws.
      now rewrite (Hstage body eq_refl), Hidx.
    + exists e. split; [|now left].
      apply constructor_evaluate_throws.
      now rewrite evaluate_stages, Hbody.
  - intros n Hidx Hbad.
    destruct (checked_body (expression a) (checksumRequired a))
      as [body|e] eqn:Hbody.
    + exists ErrInvalidIndex. split; [|now right].
      apply constructor_evaluate_throws.
      rewrite (Hstage body eq_refl), Hidx.
      destruct n as [z|printed]; [|reflexivity].
      destruct Hbad as [Hbad|Hbad]; simpl in Hbad; [discriminate|].
      now rewrite Hbad.
    + exists e. split; [|now left].
      apply constructor_evaluate_throws.
      now rewrite evaluate_stages, Hbody.
  - intros z body Hidx Hz Hbody.
    rewrite (Hstage body Hbody), Hidx.
    destruct (z <? 0) eqn:Hneg; [|reflexivity].
    apply Z.ltb_lt in Hneg. lia.
Qed.
End ConstructorFacts.

(** Up to [2^53] an integral value prints as its decimal notation. *)
Lemma integer_text_safe (z : Z) :
  Z.abs z <= 2 ^ 53 -> integer_text z = decimal z.
Proof.
  intros Hsafe. unfold integer_text.
  destruct (Z.leb_spec (Z.abs z) (2 ^ 53)) as [_|Hgt]; [reflexivity|lia].
Qed.

Section RangeFacts.

(** C8, as the code has it.  For a body with wildcards and a non-negative
    integer index [i], [evaluate] replaces every wildcard by the same
    text, the one that [i.toString()] returns: the results at [i] and at
    [i + 1] are the same wildcard-free segments of the body, joined by the
    one text and by the other.  Up to [2^53] that text is the decimal
    notation of the index. *)
Theorem range_substitution_lockstep (expression body : string)
        (required : bool) (i : Z) :
  0 <= i ->
  has_wildcard body = true ->
  checked_body expression required = Ok body ->
  evaluate expression required (Some (JsInt i)) =
    Ok (String.concat (Number_toString (JsInt i)) (segments body)) /\
  evaluate expression required (Some (JsInt (i + 1))) =
    Ok (String.concat (Number_toString (JsInt (i + 1))) (segments body)) /\
  String.concat "*" (segments body) = body /\
  Forall (fun seg => has_wildcard seg = false) (segments body) /\
  List.length (segments body) = S (List.length (match_all_star body)) /\
  (i <= 2 ^ 53 -> Number_toString (JsInt i) = decimal i) /\
  (i + 1 <= 2 ^ 53 -> Number_toString (JsInt (i + 1)) = decimal (i + 1)).
Proof.
  intros Hi Hw Hbody.
  assert (Hat : forall j, 0 <= j ->
              evaluate expression required (Some (JsInt j)) =
              Ok (String.concat (Number_toString (JsInt j))
                    (segments body))).
  { intros j Hj. rewrite evaluate_stages, Hbody. simpl.
    rewrite (particularise_wildcard _ _ Hw).
    destruct (j <? 0) eqn:Hneg; [apply Z.ltb_lt in Hneg; lia|].
    now rewrite replaceAll_star_segments. }
  split; [apply Hat; lia|]. split; [apply Hat; lia|].
  split; [apply segments_join|]. split; [apply segments_no_wildcard|].
  split; [apply segments_count|].
  split; intros Hsafe; apply integer_text_safe; lia.
Qed.
End RangeFacts.

(** ** Error monad *)

Lemma bind_ok {A B : Type} (r : Result A) (k : A -> Result B) (b : B) :
  bind r k = Ok b -> exists a, r = Ok a /\ k a = Ok b.
Proof. destruct r as [a|e]; simpl; [eauto | discriminate]. Qed.

Lemma throws_iff {A : Type} (r : Result A) :
  throws r <-> exists e, r = Throw e.
Proof.
  destruct r as [a|e]; simpl; split; try tauto.
  - intros [e He]; discriminate.
  - eauto.
Qed.

(** Case analysis on the scrutinee of the first [match] or [bind] of a
    hypothesis [_ = Ok _]. *)
Ltac step_ok Hok :=
  match type of Hok with
  | bind ?r _ = Ok _ =>
      let x := fresh "x" in
      let Hx := fresh "Hx" in
      apply bind_ok in Hok as (x & Hx & Hok)
  | Throw _ = Ok _ => discriminate Hok
  | (if ?c then _ else _) = Ok _ =>
      let Hc := fresh "Hc" in
      destruct c eqn:Hc
  | match ?c with _ => _ end = Ok _ =>
      let Hc := fresh "Hc" in
      destruct c eqn:Hc
  | (let _ := _ in _) = Ok _ => cbv zeta in Hok
  end.

Ltac run_ok Hok := cbv zeta in Hok; repeat (step_ok Hok; cbv zeta in Hok).

(** ** The [addr] production *)

Lemma last_success_throws {A : Type} (attempts : list (Result A)) :
  last_success attempts = None <-> Forall throws attempts.
Proof.
  induction attempts as [|r rest IH]; simpl.
  - split; [constructor | reflexivity].
  - destruct (last_success rest) as [a|].
    + split; [discriminate|]. intros Hall. inversion Hall; subst.
      destruct IH as [_ IH]. now specialize (IH H2).
    + destruct r as [a|e]; split; try discriminate.
      * intros Hall. inversion Hall; subst. contradiction.
      * intros _. constructor; [exact I | now apply IH].
      * reflexivity.
Qed.

Lemma last_success_last {A : Type} (attempts : list (Result A)) (a : A) :
  last_success attempts = Some a <->
  exists before after,
    attempts = before ++ Ok a :: after /\ Forall throws after.
Proof.
  induction attempts as [|r rest IH]; simpl.
  - split; [discriminate|]. intros (before & after & Heq & _).
    destruct before; discriminate.
  - destruct (last_success rest) as [a'|] eqn:Hrest.
    + split.
      * intros Heq. apply IH in Heq as (before & after & -> & Hall).
        now exists (r :: before), after.
      * intros (before & after & Heq & Hall).
        destruct before as [|x before]; simpl in Heq; injection Heq as -> ->.
        -- apply last_success_throws in Hall. congruence.
        -- apply IH. now exists before, after.
    + apply last_success_throws in Hrest. destruct r as [x|e]; split.
      * intros [= ->]. now exists nil, rest.
      * intros (before & after & Heq & Hall).
        destruct before as [|y before]; simpl in Heq; injection Heq as Hy ->.
        -- congruence.
        -- exfalso. apply Forall_app in Hrest as [_ Hrest].
           inversion Hrest; subst. contradiction.
      * discriminate.
      * intros (before & after & Heq & Hall).
        destruct before as [|y before]; simpl in Heq; [discriminate|].
        injection Heq as _ ->. exfalso.
        apply Forall_app in Hrest as [_ Hrest].
        inversion Hrest; subst. contradiction.
Qed.

Section ProductionFacts.
Context {rt : JsRuntime} {lib : Collaborators}.

Lemma constructor_addr (a : Params) (e matched : string) :
  evaluate (expression a) (checksumRequired a) (index a) = Ok e ->
  reAddrAnchored e = Some matched ->
  Descriptor_constructor a = construct_addr matched a.
Proof.
  intros He Hre. unfold Descriptor_constructor.
  rewrite He. simpl. now rewrite Hre.
Qed.

Lemma constructor_miniscript (a : Params) (e matched : string) :
  evaluate (expression a) (checksumRequired a) (index a) = Ok e ->
  matched_miniscript e = Some matched ->
  Descriptor_constructor a =
  match production e with
  | PShWsh => construct_sh_wsh matched a
  | PSh => construct_sh matched a
  | _ => construct_wsh matched a
  end.
Proof.
  intros He. unfold Descriptor_constructor, matched_miniscript, production.
  rewrite He. simpl.
  destruct (reAddrAnchored e); [discriminate|].
  destruct (rePkAnchored e); [discriminate|].
  destruct (rePkhAnchored e); [discriminate|].
  destruct (reShWpkhAnchored e); [discriminate|].
  destruct (reWpkhAnchored e); [discriminate|].
  destruct (reShWshMiniscriptAnchored e) as [m|]; [now intros [= ->]|].
  destruct (reShMiniscriptAnchored e) as [m|]; [now intros [= ->]|].
  destruct (reWshMiniscriptAnchored e) as [m|]; [now intros [= ->]|].
  discriminate.
Qed.

Lemma try_assign_last (output : Buffer) (network : Network) :
  try_assign
    (try_assign
       (try_assign
          (try_assign
             (try_assign None (p2pkh (with_output output) network))
             (p2sh (with_output output) network))
          (p2wpkh (with_output output) network))
       (p2wsh (with_output output) network))
    (p2tr (with_output output) network) =
  last_success (addr_attempts output network).
Proof.
  unfold addr_attempts. simpl.
  destruct (p2tr _ _), (p2wsh _ _), (p2wpkh _ _), (p2sh _ _), (p2pkh _ _);
    reflexivity.
Qed.

(** C6.  For an [addr(ADDRESS)] expression whose address decodes to an
    output script, the templates are attempted in the order P2PKH, P2SH,
    P2WPKH, P2WSH, P2TR ([addr_attempts]); the stored payment is the result
    of the last attempt that does not fail, and construction throws exactly
    when every attempt fails.  When the address does not decode,
    construction throws as well. *)
Theorem addr_keeps_last_template (a : Params) (e address : string) :
  evaluate (expression a) (checksumRequired a) (index a) = Ok e ->
  reAddrAnchored e = Some address ->
  address <> EmptyString ->
  match address_toOutputScript address (network a) with
  | Throw _ => Descriptor_constructor a = Throw ErrInvalidAddress
  | Ok output =>
      let attempts := addr_attempts output (network a) in
      (forall payment,
          (exists before after,
              attempts = before ++ Ok payment :: after
              /\ Forall throws after) <->
          (exists d, Descriptor_constructor a = Ok d
                     /\ getPayment d = payment)) /\
      (Forall throws attempts <->
       Descriptor_constructor a = Throw ErrInvalidAddress) /\
      (Forall throws attempts <-> throws (Descriptor_constructor a))
  end.
Proof.
  intros He Hre Hne.
  rewrite (constructor_addr _ _ _ He Hre). unfold construct_addr.
  destruct address as [|c address]; [contradiction|]. simpl is_empty. cbv iota.
  destruct (address_toOutputScript _ _) as [output|err]; [|reflexivity].
  cbv zeta. rewrite try_assign_last.
  destruct (last_success (addr_attempts output (network a)))
    as [payment|] eqn:Hlast.
  - repeat split.
    + intros Hex. apply last_success_last in Hex.
      rewrite Hlast in Hex. injection Hex as ->. eauto.
    + intros (d & [= <-] & Hd). simpl in Hd. subst.
      now apply last_success_last.
    + intros Hall. apply last_success_throws in Hall. congruence.
    + discriminate.
    + intros Hall. apply last_success_throws in Hall. congruence.
    + simpl. tauto.
  - apply last_success_throws in Hlast. repeat split; auto.
    + intros (before & after & Heq & _). rewrite Heq in Hlast.
      apply Forall_app in Hlast as [_ Hlast].
      inversion Hlast; subst. contradiction.
    + intros (d & Hd & _). discriminate.
Qed.
End ProductionFacts.

(** ** Resource limits of the miniscript productions *)

Section LimitFacts.
Context {rt : JsRuntime} {lib : Collaborators}.

Lemma is_empty_false (s : string) : s <> EmptyString -> is_empty s = false.
Proof. destruct s; [contradiction | reflexivity]. Qed.

Lemma search_sh_top_level_hit (miniscript : string) :
  (search_sh_top_level miniscript =? 0) =
  existsb (fun p => String.prefix p miniscript) sh_top_level.
Proof.
  unfold search_sh_top_level.
  now destruct (existsb _ sh_top_level).
Qed.

(** What [countNonPushOnlyOPs] returns: the operations of the script and,
    with them, every push whose data compares greater than [OP_16]. *)
Lemma countNonPushOnlyOPs_counts (script : Buffer) (chunks : list Chunk) :
  bscript_decompile script = Some chunks ->
  countNonPushOnlyOPs script
  = Ok (non_push_ops chunks + numeric_pushes chunks).
Proof.
  intros Hchunks. unfold countNonPushOnlyOPs. rewrite Hchunks. f_equal.
  clear Hchunks. unfold non_push_ops, numeric_pushes.
  induction chunks as [|op rest IH]; [reflexivity|].
  cbn [filter].
  destruct op as [n|data]; cbn [above_OP_16].
  - destruct (n >? OP_16); cbn [List.length]; lia.
  - destruct (Buffer_gt data OP_16); cbn [List.length]; lia.
Qed.

(** The limits of the witness-script productions as the constructor checks
    them, on the count that [countNonPushOnlyOPs] returns.  For an
    [sh(wsh(MINISCRIPT))] or [wsh(MINISCRIPT)] expression whose miniscript
    compiles to [script]: construction throws when the script is longer
    than 3600 bytes and when the count is above 201; with at most 3600
    bytes and a count of at most 201 both checks pass and construction
    succeeds with the payment that the templates build around the
    script. *)
Theorem witness_script_limits (a : Params) (e miniscript : string)
        (expandedMiniscript : string) (expansionMap : ExpansionMap)
        (script : Buffer) :
  evaluate (expression a) (checksumRequired a) (index a) = Ok e ->
  production e = PShWsh \/ production e = PWsh ->
  matched_miniscript e = Some miniscript ->
  miniscript <> EmptyString ->
  expandMiniscript miniscript true (network a) =
    Ok (expandedMiniscript, expansionMap) ->
  miniscript2Script expandedMiniscript expansionMap = Ok script ->
  (3601 <= byteLength script ->
   Descriptor_constructor a = Throw (ErrScriptTooLarge (byteLength script)))
  /\
  (forall n, countNonPushOnlyOPs script = Ok n ->
     (202 <= n -> throws (Descriptor_constructor a)) /\
     (byteLength script <= 3600 -> 202 <= n ->
      Descriptor_constructor a = Throw (ErrTooManyNonPushOps n)) /\
     (byteLength script <= 3600 -> n <= 201 ->
      forall payment,
        witness_payment (production e) script (network a) = Ok payment ->
        exists d, Descriptor_constructor a = Ok d
                  /\ getWitnessScript d = Some script
                  /\ getPayment d = payment)).
Proof.
  intros He Hprod Hm Hne Hexp Hcomp.
  rewrite (constructor_miniscript _ _ _ He Hm).
  assert (Hlarge : 3601 <= byteLength script ->
                   (byteLength script >? MAX_STANDARD_P2WSH_SCRIPT_SIZE)
                   = true).
  { intros Hl. apply Z.gtb_lt. unfold MAX_STANDARD_P2WSH_SCRIPT_SIZE. lia. }
  assert (Hsmall : byteLength script <= 3600 ->
                   (byteLength script >? MAX_STANDARD_P2WSH_SCRIPT_SIZE)
                   = false).
  { intros Hl. unfold MAX_STANDARD_P2WSH_SCRIPT_SIZE.
    destruct (byteLength script >? 3600) eqn:Hgt; [|reflexivity].
    apply Z.gtb_lt in Hgt. lia. }
  assert (Hmany : forall n, 202 <= n -> (n >? MAX_OPS_PER_SCRIPT) = true).
  { intros n Hn. apply Z.gtb_lt. unfold MAX_OPS_PER_SCRIPT. lia. }
  assert (Hfew : forall n, n <= 201 -> (n >? MAX_OPS_PER_SCRIPT) = false).
  { intros n Hn. unfold MAX_OPS_PER_SCRIPT.
    destruct (n >? 201) eqn:Hgt; [|reflexivity].
    apply Z.gtb_lt in Hgt. lia. }
  destruct Hprod as [Hprod|Hprod]; rewrite Hprod;
    unfold construct_sh_wsh, construct_wsh; cbv zeta;
    rewrite (is_empty_false _ Hne), Hexp; simpl bind; rewrite Hcomp;
    simpl bind; unfold witness_payment.
  - split.
    + intros Hl. now rewrite (Hlarge Hl).
    + intros n Hn. rewrite Hn. simpl bind. repeat split.
      * intros Hops.
        destruct (byteLength script >? MAX_STANDARD_P2WSH_SCRIPT_SIZE);
          [exact I|]. now rewrite (Hmany _ Hops).
      * intros Hl Hops. now rewrite (Hsmall Hl), (Hmany _ Hops).
      * intros Hl Hops payment Hpay.
        rewrite (Hsmall Hl), (Hfew _ Hops).
        destruct (p2wsh _ _) as [inner|]; [|discriminate]. simpl in *.
        destruct (p2sh _ _) as [outer|]; [|discriminate]. simpl in *.
        destruct (pay_redeem_output outer); [|discriminate].
        injection Hpay as <-. eexists. repeat split.
  - split.
    + intros Hl. now rewrite (Hlarge Hl).
    + intros n Hn. rewrite Hn. simpl bind. repeat split.
      * intros Hops.
        destruct (byteLength script >? MAX_STANDARD_P2WSH_SCRIPT_SIZE);
          [exact I|]. now rewrite (Hmany _ Hops).
      * intros Hl Hops. now rewrite (Hsmall Hl), (Hmany _ Hops).
      * intros Hl Hops payment Hpay.
        rewrite (Hsmall Hl), (Hfew _ Hops), Hpay. simpl.
        eexists. repeat split.
Qed.

Lemma Buffer_eqb_refl (script : Buffer) : Buffer_eqb script script = true.
Proof.
  induction script as [|x rest IH]; simpl; [reflexivity|].
  rewrite IH, andb_true_r. now apply Byte.byte_dec_lb.
Qed.

(** The checks of the [sh] production once the script is compiled. *)
Lemma sh_script_checks (a : Params) (miniscript expandedMiniscript : string)
      (expansionMap : ExpansionMap) (script : Buffer) :
  let rest :=
    if byteLength script >? MAX_SCRIPT_ELEMENT_SIZE
    then Throw (ErrP2SHScriptTooLarge (byteLength script))
    else
      nonPushOnlyOps <- countNonPushOnlyOPs script ;;
      if nonPushOnlyOps >? MAX_OPS_PER_SCRIPT
      then Throw (ErrTooManyNonPushOps nonPushOnlyOps)
      else
        payment <- p2sh (with_redeem (with_output script)) (network a) ;;
        if negb (Buffer_eqb script script)
        then Throw ErrRedeemScriptNotSet
        else
          Ok (mkDescriptor payment (preimages a) (Some miniscript) None
                (Some script) (Some false)
                (Some ("sh(" ++ expandedMiniscript ++ ")")%string)
                (Some expandedMiniscript) (Some expansionMap) (network a)
                (signersKeyExpressions a)) in
  (520 < byteLength script -> throws rest) /\
  (allowMiniscriptInP2SH a = true
   \/ (exists p, In p sh_top_level /\ String.prefix p miniscript = true)
   ->
   (520 < byteLength script ->
    rest = Throw (ErrP2SHScriptTooLarge (byteLength script))) /\
   (forall n, byteLength script <= 520 ->
      countNonPushOnlyOPs script = Ok n ->
      (201 < n -> rest = Throw (ErrTooManyNonPushOps n)) /\
      (n <= 201 ->
       forall payment,
         p2sh (with_redeem (with_output script)) (network a) = Ok payment ->
         exists d, rest = Ok d
                   /\ getRedeemScript d = Some script
                   /\ getPayment d = payment))).
Proof.
  intros rest. subst rest.
  unfold MAX_SCRIPT_ELEMENT_SIZE, MAX_OPS_PER_SCRIPT.
  destruct (byteLength script >? 520) eqn:Hsize.
  - apply Z.gtb_lt in Hsize. split; [intros _; exact I|].
    intros _. split; [reflexivity|]. intros n Hn. lia.
  - assert (Hle : byteLength script <= 520).
    { destruct (Z.gtb_spec (byteLength script) 520); [discriminate | lia]. }
    split; [lia|]. intros _. split; [lia|].
    intros n _ Hn. rewrite Hn. simpl bind.
    destruct (Z.gtb_spec n 201) as [Hgt|Hgt].
    + split; [reflexivity | lia].
    + split; [lia|]. intros _ payment Hpay.
      rewrite Hpay, Buffer_eqb_refl. simpl. eexists. repeat split.
Qed.

(** The checks of the bare [sh(MINISCRIPT)] production as the constructor
    makes them, on the count that [countNonPushOnlyOPs] returns: without
    the opt-in flag construction throws for a miniscript that starts with
    none of the allowed top-level expressions; whenever the miniscript
    compiles to a script longer than 520 bytes construction throws; and
    when the flag is set or the top-level expression is allowed, a script
    of at most 520 bytes is accepted if the count is at most 201, and is
    refused if it is more. *)
Theorem sh_miniscript_limits (a : Params) (e miniscript : string) :
  evaluate (expression a) (checksumRequired a) (index a) = Ok e ->
  production e = PSh ->
  matched_miniscript e = Some miniscript ->
  miniscript <> EmptyString ->
  (allowMiniscriptInP2SH a = false ->
   (forall p, In p sh_top_level -> String.prefix p miniscript = false) ->
   Descriptor_constructor a = Throw ErrMiniscriptOnlyInWsh) /\
  (forall expandedMiniscript expansionMap script,
     expandMiniscript miniscript false (network a) =
       Ok (expandedMiniscript, expansionMap) ->
     miniscript2Script expandedMiniscript expansionMap = Ok script ->
     (520 < byteLength script -> throws (Descriptor_constructor a)) /\
     (allowMiniscriptInP2SH a = true
      \/ (exists p, In p sh_top_level /\ String.prefix p miniscript = true)
      ->
      (520 < byteLength script ->
       Descriptor_constructor a =
         Throw (ErrP2SHScriptTooLarge (byteLength script))) /\
      (forall n, byteLength script <= 520 ->
         countNonPushOnlyOPs script = Ok n ->
         (201 < n ->
          Descriptor_constructor a = Throw (ErrTooManyNonPushOps n)) /\
         (n <= 201 ->
          forall payment,
            p2sh (with_redeem (with_output script)) (network a)
              = Ok payment ->
            exists d, Descriptor_constructor a = Ok d
                      /\ getRedeemScript d = Some script
                      /\ getPayment d = payment)))).
Proof.
  intros He Hprod Hm Hne.
  rewrite (constructor_miniscript _ _ _ He Hm), Hprod.
  unfold construct_sh. cbv zeta.
  rewrite (is_empty_false _ Hne), search_sh_top_level_hit.
  destruct (existsb (fun p => String.prefix p miniscript) sh_top_level)
    eqn:Hhit.
  all: split.
  - intros Hflag Hnone.
    apply existsb_exists in Hhit as (p & Hin & Hp).
    rewrite (Hnone p Hin) in Hp. discriminate.
  - rewrite andb_false_r.
    intros em map script Hexp Hcomp.
    rewrite Hexp. simpl bind. rewrite Hcomp. simpl bind.
    apply sh_script_checks.
  - intros Hflag _. now rewrite Hflag.
  - intros em map script Hexp Hcomp.
    destruct (allowMiniscriptInP2SH a) eqn:Hflag; simpl negb; cbv iota.
    + rewrite Hexp. simpl bind. rewrite Hcomp. simpl bind.
      pose proof (sh_script_checks a miniscript em map script) as Hchecks.
      cbv zeta in Hchecks. rewrite Hflag in Hchecks. exact Hchecks.
    + split; [intros _; exact I|].
      intros [Habs | (p & Hin & Hp)]; [discriminate|].
      assert (Hex : existsb (fun p => String.prefix p miniscript)
                      sh_top_level = true)
        by (apply existsb_exists; eauto).
      congruence.
Qed.
End LimitFacts.

(** ** Which descriptors carry a miniscript *)

Section MiniscriptFacts.
Context {rt : JsRuntime} {lib : Collaborators}.

Lemma single_key_productions (e : string) (a : Params) (d : Descriptor) :
  construct_pk e a = Ok d \/ construct_pkh e a = Ok d
  \/ construct_sh_wpkh e a = Ok d \/ construct_wpkh e a = Ok d ->
  d_miniscript d = None.
Proof.
  unfold construct_pk, construct_pkh, construct_sh_wpkh, construct_wpkh.
  intros [Hd | [Hd | [Hd | Hd]]]; run_ok Hd;
    injection Hd as <-; reflexivity.
Qed.

Lemma construct_addr_plain (matched : string) (a : Params)
      (d : Descriptor) :
  construct_addr matched a = Ok d -> d_miniscript d = None.
Proof.
  unfold construct_addr. intros Hd. run_ok Hd.
  injection Hd as <-. reflexivity.
Qed.

Lemma miniscript_productions (matched : string) (a : Params)
      (d : Descriptor) :
  construct_sh_wsh matched a = Ok d \/ construct_sh matched a = Ok d
  \/ construct_wsh matched a = Ok d ->
  expanded d matched.
Proof.
  unfold construct_sh_wsh, construct_sh, construct_wsh, expanded.
  intros [Hd | [Hd | Hd]]; run_ok Hd; injection Hd as <-; simpl;
    (split; [reflexivity|]);
    (split; [intros ->; discriminate | eauto 8]).
Qed.

(** What a successful construction says about the production that built
    the descriptor. *)
Lemma constructor_production (a : Params) (d : Descriptor) :
  Descriptor_constructor a = Ok d ->
  exists e,
    evaluate (expression a) (checksumRequired a) (index a) = Ok e /\
    production e <> PNone /\
    if miniscript_bearing (production e)
    then exists miniscript,
        matched_miniscript e = Some miniscript /\ expanded d miniscript
    else d_miniscript d = None.
Proof.
  unfold Descriptor_constructor. intros Hd.
  apply bind_ok in Hd as (e & He & Hd).
  exists e. split; [exact He|].
  unfold matched_miniscript, production.
  destruct (reAddrAnchored e) as [m|].
  { split; [discriminate|]. now apply construct_addr_plain in Hd. }
  destruct (rePkAnchored e).
  { split; [discriminate|]. apply (single_key_productions e a). tauto. }
  destruct (rePkhAnchored e).
  { split; [discriminate|]. apply (single_key_productions e a). tauto. }
  destruct (reShWpkhAnchored e).
  { split; [discriminate|]. apply (single_key_productions e a). tauto. }
  destruct (reWpkhAnchored e).
  { split; [discriminate|]. apply (single_key_productions e a). tauto. }
  destruct (reShWshMiniscriptAnchored e) as [m|].
  { split; [discriminate|]. exists m. split; [reflexivity|].
    apply (miniscript_productions m a). tauto. }
  destruct (reShMiniscriptAnchored e) as [m|].
  { split; [discriminate|]. exists m. split; [reflexivity|].
    apply (miniscript_productions m a). tauto. }
  destruct (reWshMiniscriptAnchored e) as [m|]; [|discriminate].
  split; [discriminate|]. exists m. split; [reflexivity|].
  apply (miniscript_productions m a). tauto.
Qed.

Lemma plain_descriptor (d : Descriptor) :
  d_miniscript d = None ->
  (forall signatures,
      getScriptSatisfaction d signatures = Throw ErrNotExpandedSatisfaction)
  /\ getSequence d = Ok None /\ getLockTime d = Ok None.
Proof.
  intros Hnone.
  unfold getScriptSatisfaction, getSequence, getLockTime,
    getTimeConstraints.
  rewrite Hnone. repeat split.
Qed.

(** C10.  A descriptor constructed by one of the productions without a
    miniscript ([addr], [pk], [pkh], [sh(wpkh)], [wpkh]) throws from
    [getScriptSatisfaction] for every list of signatures, while
    [getSequence] and [getLockTime] return [undefined] without throwing;
    so a satisfaction or a defined time constraint can only come from a
    descriptor built by [sh(wsh)], [sh(miniscript)] or [wsh]. *)
Theorem satisfaction_only_with_miniscript (a : Params) (d : Descriptor)
        (e : string) :
  Descriptor_constructor a = Ok d ->
  evaluate (expression a) (checksumRequired a) (index a) = Ok e ->
  (In (production e) [PAddr; PPk; PPkh; PShWpkh; PWpkh] ->
   (forall signatures,
       getScriptSatisfaction d signatures
       = Throw ErrNotExpandedSatisfaction)
   /\ getSequence d = Ok None /\ getLockTime d = Ok None) /\
  ((exists signatures witness,
       getScriptSatisfaction d signatures = Ok witness)
   \/ (exists sequence, getSequence d = Ok (Some sequence))
   \/ (exists lockTime, getLockTime d = Ok (Some lockTime)) ->
   In (production e) [PShWsh; PSh; PWsh]).
Proof.
  intros Hd He.
  destruct (constructor_production a d Hd) as (e' & He' & Hsome & Hprod).
  rewrite He in He'. injection He' as <-.
  split.
  - intros Hin.
    assert (Hplain : miniscript_bearing (production e) = false).
    { simpl in Hin.
      destruct Hin as [<- | [<- | [<- | [<- | [<- | []]]]]]; reflexivity. }
    rewrite Hplain in Hprod. now apply plain_descriptor.
  - intros Hyield.
    destruct (miniscript_bearing (production e)) eqn:Hbearing.
    + destruct (production e); simpl in *; try discriminate; tauto.
    + destruct (plain_descriptor d Hprod) as (Hsat & Hseq & Hlock).
      destruct Hyield as [(s & w & Hw) | [(s & Hs) | (l & Hl)]];
        [rewrite Hsat in Hw | rewrite Hseq in Hs | rewrite Hlock in Hl];
        discriminate.
Qed.
End MiniscriptFacts.

(** ** Time constraints and satisfaction *)

Section SatisfactionFacts.
Context {rt : JsRuntime} {lib : Collaborators}.






End SatisfactionFacts.

(** ** [updatePsbt] *)

Lemma bindM_run {A B : Type} (m : PsbtM A) (k : A -> PsbtM B)
      (psbt psbt' : Psbt) (r : Result B) :
  bindM m k psbt = (psbt', r) ->
  (exists e, m psbt = (psbt', Throw e) /\ r = Throw e)
  \/ (exists a psbt1, m psbt = (psbt1, Ok a) /\ k a psbt1 = (psbt', r)).
Proof.
  unfold bindM. destruct (m psbt) as [psbt1 [a|e]]; intros Hk.
  - right. now exists a, psbt1.
  - injection Hk as <- <-. left. now exists e.
Qed.

Lemma liftM_run {A : Type} (r r' : Result A) (psbt psbt' : Psbt) :
  liftM r psbt = (psbt', r') -> r = r' /\ psbt' = psbt.
Proof. unfold liftM. intros [= -> ->]. split; reflexivity. Qed.

Lemma set_scripts_fields (witnessScript redeemScript : option Buffer)
      (sequence : option Z) (i : PsbtInputExtended) :
  in_witnessScript i = None -> in_redeemScript i = None ->
  in_sequence i = None ->
  let input :=
    set_if_defined set_redeemScript redeemScript
      (set_if_defined set_witnessScript witnessScript
         (set_if_defined set_sequence sequence i)) in
  in_hash input = in_hash i /\ in_index input = in_index i /\
  nonWitnessUtxo input = nonWitnessUtxo i /\
  bip32Derivation input = bip32Derivation i /\
  witnessUtxo input = witnessUtxo i /\
  in_sequence input = sequence /\
  in_witnessScript input = witnessScript /\
  in_redeemScript input = redeemScript.
Proof.
  intros Hw Hr Hs.
  destruct witnessScript, redeemScript, sequence; simpl;
    repeat split; assumption.
Qed.

Lemma Array_at_last {A : Type} (l : list A) (x : A) :
  Array_at (l ++ [x]) (Z.of_nat (List.length (l ++ [x])) - 1) = Some x.
Proof.
  unfold Array_at. rewrite length_app. simpl.
  destruct (Z.ltb_spec (Z.of_nat (List.length l + 1) - 1) 0); [lia|].
  replace (Z.to_nat (Z.of_nat (List.length l + 1) - 1))
    with (List.length l) by lia.
  now rewrite nth_error_app2, Nat.sub_diag by lia.
Qed.

Section UpdatePsbtFacts.
Context {rt : JsRuntime} {lib : Collaborators}.

(** Every outcome of [updatePsbt]: either it throws before an input is
    stored, or it has stored the input described here, at the end of the
    inputs, and then returns its number or throws the error of the check
    made on the stored input. *)
Lemma updatePsbt_outcome (d : Descriptor) (txHex : string) (vout : Z)
      (psbt psbt' : Psbt) (result : Result Z) :
  updatePsbt d txHex vout psbt = (psbt', result) ->
  (throws result /\ psbt_inputs psbt' = psbt_inputs psbt)
  \/ exists tx out lockTime sequence segwit input,
    Transaction_fromHex txHex = Ok tx /\
    Array_at (outs tx) vout = Some out /\
    getLockTime d = Ok lockTime /\
    getSequence d = Ok sequence /\
    isSegwit d = Ok segwit /\
    (lockTime <> None ->
     psbt_locktime psbt = None \/ psbt_locktime psbt = Some 0) /\
    psbt_locktime psbt' =
    match lockTime with
    | Some l => Some l
    | None => psbt_locktime psbt
    end /\
    psbt_inputs psbt' = psbt_inputs psbt ++ [input] /\
    (result = Ok (Z.of_nat (List.length (psbt_inputs psbt)))
     \/ throws result) /\
    Psbt_checkInput (mkPsbt (psbt_locktime psbt') (psbt_inputs psbt)) input
    = Ok tt /\
    in_hash input = tx_hash tx /\
    in_index input = vout /\
    nonWitnessUtxo input = Some (tx_buffer tx) /\
    bip32Derivation input =
    match d_expansionMap d with
    | Some expansionMap =>
        if (0 <? List.length (bip32Derivations expansionMap))%nat
        then Some (bip32Derivations expansionMap)
        else None
    | None => None
    end /\
    (if segwit : bool
     then exists scriptPubKey,
         getScriptPubKey d = Ok scriptPubKey /\
         witnessUtxo input = Some (mkTxOutput scriptPubKey (out_value out))
     else witnessUtxo input = None) /\
    in_sequence input =
    match lockTime with
    | Some _ =>
        Some (match sequence with
              | Some s => s
              | None => MAX_SEQUENCE_WITH_LOCKTIME
              end)
    | None => sequence
    end /\
    (forall l s, lockTime = Some l -> sequence = Some s ->
                 s <= MAX_SEQUENCE_WITH_LOCKTIME) /\
    in_witnessScript input = getWitnessScript d /\
    in_redeemScript input = getRedeemScript d.
Proof.
  unfold updatePsbt. intros Hrun.
  apply bindM_run in Hrun as [(e & Htx & ->) | (tx & p & Htx & Hrun)];
    apply liftM_run in Htx as [Htx ->];
    [left; split; [exact I | reflexivity]|].
  destruct (Array_at (outs tx) vout) as [out|] eqn:Hout.
  2:{ unfold throwM in Hrun. injection Hrun as <- <-.
      left. split; [exact I | reflexivity]. }
  apply bindM_run in Hrun
      as [(e & Hlock & ->) | (lockTime & p & Hlock & Hrun)];
    apply liftM_run in Hlock as [Hlock ->];
    [left; split; [exact I | reflexivity]|].
  (* the lock time *)
  apply bindM_run in Hrun as [(e & Hset & ->) | ([] & psbt1 & Hset & Hrun)].
  { left. split; [exact I|].
    destruct lockTime as [l|]; [|discriminate].
    unfold bindM, getPsbt, throwM, setLocktime in Hset.
    destruct (psbt_locktime psbt) as [l0|].
    - destruct (negb (l0 =? 0)); [now injection Hset as <-|].
      destruct (Psbt_checkLocktime psbt l); [discriminate|].
      now injection Hset as <-.
    - destruct (Psbt_checkLocktime psbt l); [discriminate|].
      now injection Hset as <-. }
  assert (Hlocktime :
            (lockTime <> None ->
             psbt_locktime psbt = None \/ psbt_locktime psbt = Some 0) /\
            psbt1 =
            mkPsbt (match lockTime with
                    | Some l => Some l
                    | None => psbt_locktime psbt
                    end) (psbt_inputs psbt)).
  { destruct lockTime as [l|].
    - unfold bindM, getPsbt, throwM, setLocktime in Hset.
      destruct (psbt_locktime psbt) as [l0|] eqn:Hl0.
      + destruct (Z.eqb_spec l0 0) as [->|_]; [|discriminate].
        cbn [negb] in Hset.
        destruct (Psbt_checkLocktime psbt l); [|discriminate].
        injection Hset as <-. split; [right|]; reflexivity.
      + destruct (Psbt_checkLocktime psbt l); [|discriminate].
        injection Hset as <-. split; [left|]; reflexivity.
    - unfold retM in Hset. injection Hset as <-.
      split; [congruence|]. now destruct psbt. }
  destruct Hlocktime as [Hunset ->].
  (* the sequence *)
  apply bindM_run in Hrun
      as [(e & Hseq & ->) | (sequence & p & Hseq & Hrun)];
    apply liftM_run in Hseq as [Hseq ->];
    [left; split; [exact I | reflexivity]|].
  apply bindM_run in Hrun
      as [(e & Hchecked & ->) | (checked & p & Hchecked & Hrun)].
  { left. split; [exact I|].
    destruct lockTime as [l|]; [|discriminate].
    destruct sequence as [s|]; [|discriminate].
    destruct (s >? MAX_SEQUENCE_WITH_LOCKTIME); [|discriminate].
    unfold throwM in Hchecked. now injection Hchecked as <-. }
  assert (Hsequence :
            p = mkPsbt (match lockTime with
                        | Some l => Some l
                        | None => psbt_locktime psbt
                        end) (psbt_inputs psbt) /\
            checked =
            match lockTime with
            | Some _ =>
                Some (match sequence with
                      | Some s => s
                      | None => MAX_SEQUENCE_WITH_LOCKTIME
                      end)
            | None => sequence
            end /\
            (forall l s, lockTime = Some l -> sequence = Some s ->
                         s <= MAX_SEQUENCE_WITH_LOCKTIME)).
  { destruct lockTime as [l|].
    - destruct sequence as [s|].
      + destruct (Z.gtb_spec s MAX_SEQUENCE_WITH_LOCKTIME) as [_|Hle];
          [discriminate|].
        unfold retM in Hchecked. injection Hchecked as <- <-.
        split; [reflexivity|]. split; [reflexivity|].
        intros l' s' _ [= <-]. exact Hle.
      + unfold retM in Hchecked. injection Hchecked as <- <-.
        split; [reflexivity|]. split; [reflexivity|]. discriminate.
    - unfold retM in Hchecked. injection Hchecked as <- <-.
      split; [reflexivity|]. split; [reflexivity|]. discriminate. }
  destruct Hsequence as (-> & -> & Hbound).
  cbv zeta in Hrun.
  (* the input before the sequence and the scripts are set *)
  remember (match d_expansionMap d with
            | Some expansionMap =>
                if (0 <? List.length (bip32Derivations expansionMap))%nat
                then set_bip32Derivation (bip32Derivations expansionMap)
                       (mkPsbtInput (tx_hash tx) vout (Some (tx_buffer tx))
                          None None None None None)
                else mkPsbtInput (tx_hash tx) vout (Some (tx_buffer tx))
                       None None None None None
            | None =>
                mkPsbtInput (tx_hash tx) vout (Some (tx_buffer tx)) None
                  None None None None
            end) as base eqn:Hbase.
  assert (Hfields :
            in_hash base = tx_hash tx /\ in_index base = vout /\
            nonWitnessUtxo base = Some (tx_buffer tx) /\
            bip32Derivation base =
            match d_expansionMap d with
            | Some expansionMap =>
                if (0 <? List.length (bip32Derivations expansionMap))%nat
                then Some (bip32Derivations expansionMap)
                else None
            | None => None
            end /\
            witnessUtxo base = None /\ in_sequence base = None /\
            in_witnessScript base = None /\ in_redeemScript base = None).
  { subst base. destruct (d_expansionMap d) as [expansionMap|].
    - destruct (0 <? _)%nat; repeat split.
    - repeat split. }
  destruct Hfields
    as (Hhash & Hindex & Hutxo0 & Hbip & Hwit & Hs & Hw & Hr).
  apply bindM_run in Hrun
      as [(e & Hsegwit & ->) | (segwit & p & Hsegwit & Hrun)];
    apply liftM_run in Hsegwit as [Hsegwit ->];
    [left; split; [exact I | reflexivity]|].
  apply bindM_run in Hrun
      as [(e & Hutxo & ->) | (input0 & p & Hutxo & Hrun)].
  { left. split; [exact I|].
    destruct segwit; [|discriminate].
    unfold bindM, liftM, retM in Hutxo.
    destruct (getScriptPubKey d); [discriminate|].
    now injection Hutxo as <-. }
  assert (Hinput0 :
            p = mkPsbt (match lockTime with
                        | Some l => Some l
                        | None => psbt_locktime psbt
                        end) (psbt_inputs psbt) /\
            in_hash input0 = tx_hash tx /\ in_index input0 = vout /\
            nonWitnessUtxo input0 = Some (tx_buffer tx) /\
            bip32Derivation input0 = bip32Derivation base /\
            in_sequence input0 = None /\
            in_witnessScript input0 = None /\ in_redeemScript input0 = None /\
            if segwit
            then exists scriptPubKey,
                getScriptPubKey d = Ok scriptPubKey /\
                witnessUtxo input0
                = Some (mkTxOutput scriptPubKey (out_value out))
            else witnessUtxo input0 = None).
  { destruct segwit.
    - unfold bindM, liftM, retM in Hutxo.
      destruct (getScriptPubKey d) as [scriptPubKey|]; [|discriminate].
      injection Hutxo as <- <-.
      repeat split; try assumption. now exists scriptPubKey.
    - unfold retM in Hutxo. injection Hutxo as <- <-.
      repeat split; assumption. }
  destruct Hinput0
    as (-> & Hhash0 & Hindex0 & Hnon0 & Hbip0 & Hs0 & Hw0 & Hr0 & Hwit0).
  pose proof (set_scripts_fields (getWitnessScript d) (getRedeemScript d)
                (match lockTime with
                 | Some _ =>
                     Some (match sequence with
                           | Some s => s
                           | None => MAX_SEQUENCE_WITH_LOCKTIME
                           end)
                 | None => sequence
                 end) input0 Hw0 Hr0 Hs0) as Hset'.
  cbv zeta in Hset'.
  destruct Hset' as (H1 & H2 & H3 & H4 & H5 & H6 & H7 & H8).
  match type of Hrun with
  | bindM (addInput ?i) _ _ = _ => remember i as input eqn:Hinput
  end.
  apply bindM_run in Hrun as [(e & Hadd & ->) | ([] & psbt2 & Hadd & Hrun)];
    unfold addInput in Hadd;
    destruct (Psbt_checkInput _ input) as [[]|err] eqn:Hcheck.
  - (* stored, then refused *)
    cbv zeta in Hadd.
    destruct (Psbt_checkStored _); [discriminate|].
    injection Hadd as <- <-. right.
    exists tx, out, lockTime, sequence, segwit, input.
    cbn [psbt_locktime psbt_inputs].
    repeat (split; [assumption || congruence || reflexivity|]).
    split; [right; exact I|].
    repeat (split; [assumption || congruence || reflexivity|]).
    split.
    { destruct segwit.
      - destruct Hwit0 as (scriptPubKey & Hspk & Hwit0).
        exists scriptPubKey. split; [assumption|]. congruence.
      - congruence. }
    repeat split; assumption.
  - (* refused before it is stored *)
    injection Hadd as <- <-. left. split; [exact I | reflexivity].
  - cbv zeta in Hadd.
    destruct (Psbt_checkStored _); [|discriminate].
    injection Hadd as <-.
    unfold bindM, getPsbt, retM in Hrun. injection Hrun as <- <-.
    right. exists tx, out, lockTime, sequence, segwit, input.
    cbn [psbt_locktime psbt_inputs].
    repeat (split; [assumption || congruence || reflexivity|]).
    split.
    { left. rewrite length_app. cbn [List.length]. f_equal. lia. }
    repeat (split; [assumption || congruence || reflexivity|]).
    split.
    { destruct segwit.
      - destruct Hwit0 as (scriptPubKey & Hspk & Hwit0).
        exists scriptPubKey. split; [assumption|]. congruence.
      - congruence. }
    repeat split; assumption.
  - discriminate.
Qed.

(** What a call that returns has done. *)
Lemma updatePsbt_ok (d : Descriptor) (txHex : string) (vout : Z)
      (psbt psbt' : Psbt) (i : Z) :
  updatePsbt d txHex vout psbt = (psbt', Ok i) ->
  exists tx out lockTime sequence segwit input,
    Transaction_fromHex txHex = Ok tx /\
    Array_at (outs tx) vout = Some out /\
    getLockTime d = Ok lockTime /\
    getSequence d = Ok sequence /\
    isSegwit d = Ok segwit /\
    (lockTime <> None ->
     psbt_locktime psbt = None \/ psbt_locktime psbt = Some 0) /\
    psbt_locktime psbt' =
    match lockTime with
    | Some l => Some l
    | None => psbt_locktime psbt
    end /\
    psbt_inputs psbt' = psbt_inputs psbt ++ [input] /\
    i = Z.of_nat (List.length (psbt_inputs psbt)) /\
    Psbt_checkInput (mkPsbt (psbt_locktime psbt') (psbt_inputs psbt)) input
    = Ok tt /\
    in_hash input = tx_hash tx /\
    in_index input = vout /\
    nonWitnessUtxo input = Some (tx_buffer tx) /\
    bip32Derivation input =
    match d_expansionMap d with
    | Some expansionMap =>
        if (0 <? List.length (bip32Derivations expansionMap))%nat
        then Some (bip32Derivations expansionMap)
        else None
    | None => None
    end /\
    (if segwit : bool
     then exists scriptPubKey,
         getScriptPubKey d = Ok scriptPubKey /\
         witnessUtxo input = Some (mkTxOutput scriptPubKey (out_value out))
     else witnessUtxo input = None) /\
    in_sequence input =
    match lockTime with
    | Some _ =>
        Some (match sequence with
              | Some s => s
              | None => MAX_SEQUENCE_WITH_LOCKTIME
              end)
    | None => sequence
    end /\
    in_witnessScript input = getWitnessScript d /\
    in_redeemScript input = getRedeemScript d.
Proof.
  intros Hrun.
  destruct (updatePsbt_outcome d txHex vout psbt psbt' (Ok i) Hrun)
    as [[[] _] | (tx & out & lockTime & sequence & segwit & input & Htx
                  & Hout & Hlock & Hseq & Hsegwit & Hunset & Hset & Hinputs
                  & Hresult & Hcheck & Hhash & Hindex & Hnon & Hbip & Hutxo
                  & Hsequence & _ & Hw & Hr)].
  exists tx, out, lockTime, sequence, segwit, input.
  destruct Hresult as [[= ->] | []].
  repeat (split; [assumption || reflexivity|]). assumption.
Qed.

(** C9.  When the derived lock time is defined, the input that
    [updatePsbt] adds has a sequence of at most [0xfffffffe]: the derived
    sequence when there is one, [0xfffffffe] when it is missing; this also
    holds of an input that is left in the [Psbt] by a call that throws
    after it has stored it.  With a derived sequence above [0xfffffffe],
    [updatePsbt] throws and stores no input. *)
Theorem updatePsbt_sequence_bound (d : Descriptor) (txHex : string)
        (vout : Z) (psbt : Psbt) (lockTime : Z) :
  getLockTime d = Ok (Some lockTime) ->
  let (psbt', result) := updatePsbt d txHex vout psbt in
  match result with
  | Ok i =>
      exists input s,
        psbt_inputs psbt' = psbt_inputs psbt ++ [input]
        /\ Array_at (psbt_inputs psbt') i = Some input
        /\ in_sequence input = Some s
        /\ s <= 0xfffffffe
        /\ match getSequence d with
           | Ok None => s = 0xfffffffe
           | Ok (Some derived) => s = derived
           | Throw _ => False
           end
  | Throw _ =>
      psbt_inputs psbt' = psbt_inputs psbt
      \/ exists input s,
          psbt_inputs psbt' = psbt_inputs psbt ++ [input]
          /\ in_sequence input = Some s
          /\ s <= 0xfffffffe
  end
  /\ (forall derived,
         getSequence d = Ok (Some derived) -> 0xfffffffe < derived ->
         throws result /\ psbt_inputs psbt' = psbt_inputs psbt).
Proof.
  intros Hlock.
  destruct (updatePsbt d txHex vout psbt) as [psbt' result] eqn:Hrun.
  destruct (updatePsbt_outcome d txHex vout psbt psbt' result Hrun)
    as [[Hthrows Hinputs]
       | (tx & out & lockTime' & sequence & segwit & input & _ & _ & Hlock'
          & Hseq & _ & _ & _ & Hinputs & Hresult & _ & _ & _ & _ & _ & _
          & Hsequence & Hbound & _)].
  - destruct result as [i|err]; [contradiction|].
    split; [left; exact Hinputs|]. intros derived _ _.
    split; [exact I | exact Hinputs].
  - rewrite Hlock in Hlock'. injection Hlock' as <-.
    assert (Hs : exists s,
               in_sequence input = Some s /\ s <= 0xfffffffe /\
               match getSequence d with
               | Ok None => s = 0xfffffffe
               | Ok (Some derived) => s = derived
               | Throw _ => False
               end).
    { rewrite Hseq, Hsequence. destruct sequence as [s|].
      - exists s. split; [reflexivity|]. split; [|reflexivity].
        exact (Hbound lockTime s eq_refl eq_refl).
      - exists MAX_SEQUENCE_WITH_LOCKTIME. split; [reflexivity|].
        split; [|reflexivity]. unfold MAX_SEQUENCE_WITH_LOCKTIME. lia. }
    destruct Hs as (s & Hs & Hle & Hderived). split.
    + destruct Hresult as [-> | Hthrows].
      * exists input, s. split; [exact Hinputs|]. split.
        { rewrite Hinputs.
          replace (Z.of_nat (List.length (psbt_inputs psbt)))
            with (Z.of_nat (List.length (psbt_inputs psbt ++ [input])) - 1)
            by (rewrite length_app; cbn [List.length]; lia).
          apply Array_at_last. }
        repeat split; assumption.
      * destruct result as [i|err]; [contradiction|].
        right. exists input, s. repeat split; assumption.
    + intros derived Hd Hgt. exfalso.
      rewrite Hseq in Hd. injection Hd as ->.
      pose proof (Hbound lockTime derived eq_refl eq_refl) as Hmax.
      unfold MAX_SEQUENCE_WITH_LOCKTIME in Hmax. lia.
Qed.
End UpdatePsbtFacts.

(** ** The descriptor checksum: bits *)

Lemma log2_below (n a : Z) : 0 < n -> 0 <= a < 2 ^ n -> Z.log2 a < n.
Proof.
  intros Hn Ha. destruct (Z.eq_dec a 0) as [-> | Hnz]; [simpl; lia|].
  apply Z.log2_lt_pow2; lia.
Qed.

Lemma lxor_range (n a b : Z) :
  0 <= n -> 0 <= a < 2 ^ n -> 0 <= b < 2 ^ n -> 0 <= Z.lxor a b < 2 ^ n.
Proof.
  intros Hn Ha Hb.
  assert (Hnn : 0 <= Z.lxor a b) by (apply Z.lxor_nonneg; lia).
  split; [exact Hnn|].
  destruct (Z.eq_dec (Z.lxor a b) 0) as [-> | Hz].
  - apply Z.pow_pos_nonneg; lia.
  - assert (Hpos : 0 < n).
    { destruct (Z.eq_dec n 0) as [-> | Hn0]; [|lia].
      change (2 ^ 0) with 1 in Ha, Hb.
      assert (a = 0) by lia. assert (b = 0) by lia. subst.
      now rewrite Z.lxor_0_l in Hz. }
    apply Z.log2_lt_pow2; [lia|].
    pose proof (Z.log2_lxor a b ltac:(lia) ltac:(lia)) as Hlog.
    pose proof (log2_below n a Hpos Ha).
    pose proof (log2_below n b Hpos Hb).
    lia.
Qed.

Lemma lxor_cancel_r (a b x : Z) : Z.lxor a x = Z.lxor b x -> a = b.
Proof.
  intros Heq. apply (f_equal (fun t => Z.lxor t x)) in Heq.
  now rewrite !Z.lxor_assoc, !Z.lxor_nilpotent, !Z.lxor_0_r in Heq.
Qed.

Lemma lxor_cancel_l (a b x : Z) : Z.lxor x a = Z.lxor x b -> a = b.
Proof. rewrite !(Z.lxor_comm x). apply lxor_cancel_r. Qed.

(** Appending a five-bit symbol to a packed value. *)
Lemma lxor_shiftl5 (p v : Z) :
  symbol v -> Z.lxor (Z.shiftl p 5) v = p * 32 + v.
Proof.
  intros Hv. rewrite Z.shiftl_mul_pow2 by lia. change (2 ^ 5) with 32.
  symmetry. apply Z.add_nocarry_lxor.
  apply Z.bits_inj'. intros i Hi.
  rewrite Z.land_spec, Z.bits_0.
  destruct (Z.lt_ge_cases i 5) as [Hlt|Hge].
  - change 32 with (2 ^ 5). rewrite Z.mul_pow2_bits_low by lia. reflexivity.
  - replace (Z.testbit v i) with false; [apply andb_false_r|].
    symmetry. destruct (Z.eq_dec v 0) as [->|Hnz]; [apply Z.bits_0|].
    apply Z.bits_above_log2; [unfold symbol in Hv; lia|].
    assert (Z.log2 v < 5); [|lia].
    apply Z.log2_lt_pow2; unfold symbol in Hv; simpl; lia.
Qed.

Lemma feedback_cases (c0 : Z) :
  feedback c0 =
  Z.lxor (Z.lxor (Z.lxor (Z.lxor
    (if Z.testbit c0 0 then 0xf5dee51989 else 0)
    (if Z.testbit c0 1 then 0xa9fdca3312 else 0))
    (if Z.testbit c0 2 then 0x1bab10e32d else 0))
    (if Z.testbit c0 3 then 0x3706b1677a else 0))
    (if Z.testbit c0 4 then 0x644d626ffd else 0).
Proof.
  reflexivity.
Qed.

Lemma feedback_range (c0 : Z) : state40 (feedback c0).
Proof.
  rewrite feedback_cases. unfold state40.
  destruct (Z.testbit c0 0), (Z.testbit c0 1), (Z.testbit c0 2),
    (Z.testbit c0 3), (Z.testbit c0 4); vm_compute; split; congruence.
Qed.

(** The feedback term is a multiple of the state's top symbol in the field
    of 32 elements, so its low five bits determine that symbol. *)
Lemma feedback_low_bits (c0 c0' : Z) :
  Z.land (feedback c0) 31 = Z.land (feedback c0') 31 ->
  forall i, 0 <= i < 5 -> Z.testbit c0 i = Z.testbit c0' i.
Proof.
  rewrite !feedback_cases. intros Heq.
  assert (Hall : Z.testbit c0 0 = Z.testbit c0' 0
                 /\ Z.testbit c0 1 = Z.testbit c0' 1
                 /\ Z.testbit c0 2 = Z.testbit c0' 2
                 /\ Z.testbit c0 3 = Z.testbit c0' 3
                 /\ Z.testbit c0 4 = Z.testbit c0' 4).
  { destruct (Z.testbit c0 0), (Z.testbit c0 1), (Z.testbit c0 2),
      (Z.testbit c0 3), (Z.testbit c0 4),
      (Z.testbit c0' 0), (Z.testbit c0' 1), (Z.testbit c0' 2),
      (Z.testbit c0' 3), (Z.testbit c0' 4);
      vm_compute in Heq; try discriminate Heq; repeat split. }
  intros i Hi.
  assert (Hcase : i = 0 \/ i = 1 \/ i = 2 \/ i = 3 \/ i = 4) by lia.
  destruct Hcase as [-> | [-> | [-> | [-> | ->]]]]; tauto.
Qed.

(** ** The polynomial step *)

Ltac xor_bits :=
  apply Z.bits_inj'; intros ? ?;
  repeat (rewrite Z.lxor_spec || rewrite Z.land_spec || rewrite Z.bits_0);
  repeat match goal with
         | |- context [Z.testbit ?a ?i] => destruct (Z.testbit a i)
         end; reflexivity.

Lemma land_lxor (a b m : Z) :
  Z.land (Z.lxor a b) m = Z.lxor (Z.land a m) (Z.land b m).
Proof. xor_bits. Qed.

Lemma low35 (c : Z) : Z.land c 0x7ffffffff = c mod 2 ^ 35.
Proof. change 0x7ffffffff with (Z.ones 35). apply Z.land_ones. lia. Qed.

Lemma PolyMod_range (c v : Z) : state40 v -> state40 (PolyMod c v).
Proof.
  intros Hv. unfold PolyMod, state40.
  pose proof (feedback_range (Z.shiftr c 35)) as Hf.
  apply lxor_range; [lia | | exact Hf].
  apply lxor_range; [lia | | exact Hv].
  rewrite low35, Z.shiftl_mul_pow2 by lia.
  pose proof (Z.mod_pos_bound c (2 ^ 35) ltac:(lia)). lia.
Qed.

Lemma symbol_state40 (v : Z) : symbol v -> state40 v.
Proof. unfold symbol, state40. lia. Qed.

(** A difference confined to the low 35 bits of the state does not reach
    the feedback: it is shifted by one symbol, whatever symbol is fed. *)
Lemma PolyMod_lxor_low (c d v : Z) :
  0 <= d < 2 ^ 35 ->
  PolyMod (Z.lxor c d) v =
  Z.lxor (PolyMod c 0) (Z.lxor (Z.shiftl d 5) v).
Proof.
  intros Hd. unfold PolyMod.
  assert (Hhigh : Z.shiftr d 35 = 0).
  { rewrite Z.shiftr_div_pow2 by lia. apply Z.div_small. lia. }
  assert (Hlow : Z.land d 0x7ffffffff = d).
  { rewrite low35. apply Z.mod_small. lia. }
  rewrite Z.shiftr_lxor, Hhigh, Z.lxor_0_r.
  rewrite land_lxor, Hlow, Z.shiftl_lxor.
  xor_bits.
Qed.

Lemma PolyMod_low_bits (c v : Z) :
  symbol v ->
  Z.land (PolyMod c v) 31 =
  Z.lxor v (Z.land (feedback (Z.shiftr c 35)) 31).
Proof.
  intros Hv. unfold PolyMod.
  rewrite !land_lxor.
  replace (Z.land (Z.shiftl (Z.land c 0x7ffffffff) 5) 31) with 0.
  - rewrite Z.lxor_0_l. f_equal.
    change 31 with (Z.ones 5). rewrite Z.land_ones by lia.
    apply Z.mod_small. unfold symbol in Hv. simpl. lia.
  - symmetry. change 31 with (Z.ones 5). rewrite Z.land_ones by lia.
    rewrite Z.shiftl_mul_pow2 by lia. apply Z.mod_mul. lia.
Qed.

Lemma top_symbol_eq (c c' : Z) :
  state40 c -> state40 c' ->
  (forall i, 0 <= i < 5 ->
             Z.testbit (Z.shiftr c 35) i = Z.testbit (Z.shiftr c' 35) i) ->
  Z.shiftr c 35 = Z.shiftr c' 35.
Proof.
  intros Hc Hc' Hbits. apply Z.bits_inj'. intros i Hi.
  destruct (Z.lt_ge_cases i 5) as [Hlt|Hge]; [apply Hbits; lia|].
  rewrite !Z.shiftr_spec by lia.
  assert (Habove : forall x, state40 x -> Z.testbit x (i + 35) = false).
  { intros x Hx. destruct (Z.eq_dec x 0) as [->|Hnz]; [apply Z.bits_0|].
    apply Z.bits_above_log2; [unfold state40 in Hx; lia|].
    assert (Z.log2 x < 40); [|lia].
    apply Z.log2_lt_pow2; unfold state40 in Hx; lia. }
  now rewrite !Habove.
Qed.

(** The step is injective in the state. *)
Lemma PolyMod_injective (c c' v : Z) :
  state40 c -> state40 c' -> symbol v ->
  PolyMod c v = PolyMod c' v -> c = c'.
Proof.
  intros Hc Hc' Hv Heq.
  assert (Htop : Z.shiftr c 35 = Z.shiftr c' 35).
  { apply top_symbol_eq; try assumption.
    apply feedback_low_bits.
    apply (f_equal (fun x => Z.land x 31)) in Heq.
    rewrite !PolyMod_low_bits in Heq by assumption.
    now apply lxor_cancel_l in Heq. }
  unfold PolyMod in Heq. rewrite Htop in Heq.
  apply lxor_cancel_r, lxor_cancel_r in Heq.
  rewrite !Z.shiftl_mul_pow2, !low35 in Heq by lia.
  rewrite !Z.shiftr_div_pow2 in Htop by lia.
  rewrite (Z.div_mod c (2 ^ 35)), (Z.div_mod c' (2 ^ 35)) by lia.
  rewrite Htop. f_equal. lia.
Qed.

Lemma poly_app (c : Z) (l l' : list Z) :
  poly c (l ++ l') = poly (poly c l) l'.
Proof. unfold poly. apply fold_left_app. Qed.

Lemma poly_range (c : Z) (l : list Z) :
  state40 c -> Forall symbol l -> state40 (poly c l).
Proof.
  revert c; induction l as [|v l IH]; intros c Hc Hl; [exact Hc|].
  inversion Hl; subst. apply IH; [|assumption].
  now apply PolyMod_range, symbol_state40.
Qed.

Lemma poly_injective (c c' : Z) (l : list Z) :
  state40 c -> state40 c' -> Forall symbol l ->
  poly c l = poly c' l -> c = c'.
Proof.
  revert c c'; induction l as [|v l IH]; intros c c' Hc Hc' Hl Heq;
    [exact Heq|].
  inversion Hl; subst.
  apply (PolyMod_injective c c' v); try assumption.
  apply IH; try assumption; now apply PolyMod_range, symbol_state40.
Qed.

(** ** Windows of symbols *)

Lemma pack_snoc (l : list Z) (v : Z) :
  pack (l ++ [v]) = Z.lxor (Z.shiftl (pack l) 5) v.
Proof. unfold pack. now rewrite fold_left_app. Qed.

Lemma pack_range (l : list Z) :
  Forall symbol l -> 0 <= pack l < 2 ^ (5 * Z.of_nat (List.length l)).
Proof.
  induction l as [|v l IH] using rev_ind; intros Hl.
  - vm_compute. split; congruence.
  - apply Forall_app in Hl as [Hl Hv]. inversion Hv; subst.
    specialize (IH Hl).
    rewrite pack_snoc, lxor_shiftl5, length_app by assumption.
    change (List.length [v]) with 1%nat.
    rewrite Nat2Z.inj_add, Z.mul_add_distr_l, Z.pow_add_r by lia.
    change (2 ^ (5 * Z.of_nat 1)) with 32.
    remember (2 ^ (5 * Z.of_nat (List.length l))) as bound.
    unfold symbol in *. lia.
Qed.

(** Feeding at most seven symbols adds their packed value to what the same
    number of zero symbols gives. *)
Lemma poly_window (c : Z) (w : list Z) :
  Forall symbol w -> (List.length w <= 7)%nat ->
  poly c w = Z.lxor (poly c (repeat 0 (List.length w))) (pack w).
Proof.
  induction w as [|v w IH] using rev_ind; intros Hw Hlen.
  - simpl. now rewrite Z.lxor_0_r.
  - apply Forall_app in Hw as [Hw Hv]. inversion Hv; subst.
    rewrite length_app in *. simpl in Hlen.
    rewrite poly_app, IH by (assumption || lia). simpl poly at 1.
    rewrite PolyMod_lxor_low.
    + rewrite pack_snoc. f_equal.
      replace (List.length w + List.length [v])%nat
        with (S (List.length w)) by (simpl; lia).
      simpl repeat. rewrite repeat_cons, poly_app. reflexivity.
    + pose proof (pack_range w Hw) as Hp.
      assert (2 ^ (5 * Z.of_nat (List.length w)) <= 2 ^ 35)
        by (apply Z.pow_le_mono_r; lia).
      lia.
Qed.

Lemma pack_injective (w w' : list Z) :
  Forall symbol w -> Forall symbol w' ->
  List.length w = List.length w' -> pack w = pack w' -> w = w'.
Proof.
  revert w'; induction w as [|v w IH] using rev_ind; intros w' Hw Hw' Hlen Heq.
  - destruct w'; [reflexivity | discriminate].
  - destruct w' as [|v' w'] using rev_ind.
    { rewrite length_app in Hlen. simpl in Hlen. lia. }
    clear IHw'.
    apply Forall_app in Hw as [Hw Hv]. inversion Hv; subst.
    apply Forall_app in Hw' as [Hw' Hv']. inversion Hv'; subst.
    rewrite !length_app in Hlen. simpl in Hlen.
    rewrite !pack_snoc, !lxor_shiftl5 in Heq by assumption.
    unfold symbol in *.
    assert (pack w = pack w' /\ v = v') as [Hp ->] by lia.
    f_equal. apply IH; (assumption || lia).
Qed.

Lemma poly_window_injective (c : Z) (w w' : list Z) :
  Forall symbol w -> Forall symbol w' ->
  List.length w = List.length w' -> (List.length w <= 7)%nat ->
  poly c w = poly c w' -> w = w'.
Proof.
  intros Hw Hw' Hlen Hshort Heq.
  rewrite (poly_window c w), (poly_window c w') in Heq
    by (assumption || lia).
  rewrite Hlen in Heq. apply lxor_cancel_l in Heq.
  now apply pack_injective.
Qed.

(** Two symbol streams that differ inside a short window lead to different
    accumulator states, whatever follows the window. *)
Lemma poly_detects_window (c : Z) (before w w' after : list Z) :
  state40 c ->
  Forall symbol before -> Forall symbol w -> Forall symbol w' ->
  Forall symbol after ->
  List.length w = List.length w' -> (List.length w <= 7)%nat ->
  w <> w' ->
  poly c (before ++ w ++ after) <> poly c (before ++ w' ++ after).
Proof.
  intros Hc Hb Hw Hw' Ha Hlen Hshort Hdiff Heq.
  rewrite !poly_app in Heq.
  apply poly_injective in Heq;
    try assumption; try (apply poly_range; [apply poly_range|]; assumption).
  apply poly_window_injective in Heq; auto.
Qed.

(** ** From characters to symbols *)

Lemma indexOf_get (ch : ascii) (s : string) (i : Z) :
  indexOf ch s = Some i ->
  0 <= i < Z.of_nat (String.length s)
  /\ String.get (Z.to_nat i) s = Some ch.
Proof.
  revert i; induction s as [|c s IH]; simpl; intros i; [discriminate|].
  destruct (Ascii.eqb c ch) eqn:Hc.
  - intros [= <-]. apply Ascii.eqb_eq in Hc. subst. split; [lia | reflexivity].
  - destruct (indexOf ch s) as [j|]; [|discriminate].
    intros [= <-]. destruct (IH j eq_refl) as [Hj Hget].
    split; [lia|].
    replace (Z.to_nat (Z.succ j)) with (S (Z.to_nat j)) by lia.
    exact Hget.
Qed.

Lemma indexOf_mem (ch : ascii) (s : string) :
  string_mem ch s = true <-> exists i, indexOf ch s = Some i.
Proof.
  induction s as [|c s IH]; simpl.
  - split; [discriminate | intros [i Hi]; discriminate].
  - destruct (Ascii.eqb c ch); simpl; [split; eauto|].
    rewrite IH. destruct (indexOf ch s) as [j|]; simpl.
    + split; eauto.
    + split; intros [i Hi]; discriminate.
Qed.

Lemma indexOf_injective (a b : ascii) (s : string) (i : Z) :
  indexOf a s = Some i -> indexOf b s = Some i -> a = b.
Proof.
  intros Ha Hb.
  apply indexOf_get in Ha as [_ Ha]. apply indexOf_get in Hb as [_ Hb].
  congruence.
Qed.

Lemma positions_of_valid (span : string) :
  valid_body span <-> exists ps, positions_of span = Some ps.
Proof.
  unfold valid_body.
  induction span as [|ch rest IH]; cbn [string_forallb positions_of].
  - split; eauto.
  - rewrite andb_true_iff, IH, indexOf_mem.
    destruct (indexOf ch INPUT_CHARSET) as [pos|];
      destruct (positions_of rest) as [l|];
      (split; [intros [[i Hi] [ps Hps]] | intros [ps Hps]]);
      try discriminate; eauto.
Qed.

Lemma positions_of_range (span : string) (ps : list Z) :
  positions_of span = Some ps -> Forall position ps.
Proof.
  revert ps; induction span as [|ch rest IH]; cbn [positions_of]; intros ps.
  - intros [= <-]. constructor.
  - destruct (indexOf ch INPUT_CHARSET) as [pos|] eqn:Hpos; [|discriminate].
    destruct (positions_of rest) as [l|]; [|discriminate].
    intros [= <-]. constructor; [|now apply IH].
    apply indexOf_get in Hpos as [Hpos _].
    change (Z.of_nat (String.length INPUT_CHARSET)) with 95 in Hpos.
    unfold position. lia.
Qed.

Lemma position_split (p : Z) :
  position p ->
  symbol (Z.land p 31) /\ 0 <= Z.shiftr p 5 < 3
  /\ p = Z.shiftr p 5 * 32 + Z.land p 31.
Proof.
  unfold position, symbol. intros Hp.
  change 31 with (Z.ones 5). rewrite Z.land_ones, Z.shiftr_div_pow2 by lia.
  change (2 ^ 5) with 32.
  pose proof (Z.div_mod p 32 ltac:(lia)).
  pose proof (Z.mod_pos_bound p 32 ltac:(lia)).
  assert (0 <= p / 32 < 3)
    by (split; [apply Z.div_pos; lia | apply Z.div_lt_upper_bound; lia]).
  lia.
Qed.

Lemma symbols_range (ps : list Z) (cls clscount : Z) :
  Forall position ps -> group_state cls clscount ->
  Forall symbol (symbols ps cls clscount).
Proof.
  revert cls clscount; induction ps as [|p ps IH]; intros cls k Hps Hg.
  - simpl. unfold group_state, symbol in *.
    destruct (0 <? k); repeat constructor; lia.
  - inversion Hps; subst.
    destruct (position_split p H1) as (Hlo & Hhi & _).
    simpl. constructor; [exact Hlo|].
    unfold group_state in Hg.
    destruct Hg as [[-> ->] | [[-> Hc] | [-> Hc]]]; simpl.
    + apply IH; [assumption|]. unfold group_state. lia.
    + apply IH; [assumption|]. unfold group_state. lia.
    + constructor; [unfold symbol; lia|].
      apply IH; [assumption|]. unfold group_state. lia.
Qed.

Lemma iter_poly (n : nat) (c : Z) :
  Nat.iter n (fun c => PolyMod c 0) c = poly c (repeat 0 n).
Proof.
  induction n as [|n IH]; [reflexivity|].
  cbn [Nat.iter nat_rect repeat]. rewrite repeat_cons, poly_app.
  unfold Nat.iter in IH. rewrite IH. reflexivity.
Qed.

Lemma poly_cons (c v : Z) (l : list Z) :
  poly c (v :: l) = poly (PolyMod c v) l.
Proof. reflexivity. Qed.

(** What [scan] and [finish] compute, as one run of [PolyMod] over the
    symbols of the span followed by eight zero symbols. *)
Lemma scan_symbols (span : string) (ps : list Z) (st : State) :
  positions_of span = Some ps ->
  exists st',
    scan span st = Some st'
    /\ finish st' =
       Z.lxor (poly (st_c st)
                 (symbols ps (st_cls st) (st_clscount st) ++ repeat 0 8)) 1.
Proof.
  revert ps st; induction span as [|ch rest IH]; cbn [positions_of scan];
    intros ps st.
  - intros [= <-]. exists st. split; [reflexivity|].
    unfold finish. rewrite iter_poly. cbn [symbols].
    destruct (0 <? st_clscount st); cbn [app]; [|reflexivity].
    now rewrite poly_cons.
  - destruct (indexOf ch INPUT_CHARSET) as [pos|]; [|discriminate].
    destruct (positions_of rest) as [l|] eqn:Hl; [|discriminate].
    intros [= <-].
    destruct (IH l (feed st pos) eq_refl) as (st' & Hscan & Hfin).
    exists st'. split; [exact Hscan|]. rewrite Hfin.
    unfold feed. cbn [symbols].
    destruct (st_clscount st + 1 =? 3); cbn [st_c st_cls st_clscount app];
      now rewrite ?poly_cons.
Qed.

Lemma scan_invalid (span : string) (st : State) :
  positions_of span = None -> scan span st = None.
Proof.
  revert st; induction span as [|ch rest IH]; cbn [positions_of scan];
    intros st; [discriminate|].
  destruct (indexOf ch INPUT_CHARSET) as [pos|]; [|reflexivity].
  destruct (positions_of rest) as [l|]; [discriminate|].
  intros _. now apply IH.
Qed.

(** Inside an open group, the pending group number reaches the stream in
    one symbol, at most two symbols further. *)
Lemma symbols_pending (ps : list Z) (clscount : Z) :
  clscount = 1 \/ clscount = 2 ->
  exists before (group : Z -> Z) after,
    (forall cls, symbols ps cls clscount = before ++ group cls :: after)
    /\ (forall cls cls', group cls = group cls' -> cls = cls')
    /\ (List.length before <= 2)%nat.
Proof.
  intros [-> | ->].
  - destruct ps as [|p [|q ps]].
    + exists nil, (fun cls => cls), nil. simpl. repeat split; auto.
    + exists [Z.land p 31], (fun cls => cls * 3 + Z.shiftr p 5), nil.
      simpl. repeat split; auto. intros; lia.
    + exists [Z.land p 31; Z.land q 31],
        (fun cls => (cls * 3 + Z.shiftr p 5) * 3 + Z.shiftr q 5),
        (symbols ps 0 0).
      simpl. repeat split; auto. intros; lia.
  - destruct ps as [|p ps].
    + exists nil, (fun cls => cls), nil. simpl. repeat split; auto.
    + exists [Z.land p 31], (fun cls => cls * 3 + Z.shiftr p 5),
        (symbols ps 0 0).
      simpl. repeat split; auto. intros; lia.
Qed.

(** Replacing one character changes the symbol stream inside a window of at
    most four symbols. *)
Lemma substitution_window (s t : string) :
  substitution s t ->
  forall ps ps' cls clscount,
    positions_of s = Some ps -> positions_of t = Some ps' ->
    group_state cls clscount ->
    exists before w w' after,
      symbols ps cls clscount = before ++ w ++ after
      /\ symbols ps' cls clscount = before ++ w' ++ after
      /\ List.length w = List.length w'
      /\ (List.length w <= 4)%nat
      /\ w <> w'.
Proof.
  induction 1 as [a b rest Hab | c s t Hst IH];
    intros ps ps' cls k Hps Hps' Hg; cbn [positions_of] in Hps, Hps'.
  - destruct (indexOf a INPUT_CHARSET) as [pa|] eqn:Ha; [|discriminate].
    destruct (indexOf b INPUT_CHARSET) as [pb|] eqn:Hb; [|discriminate].
    destruct (positions_of rest) as [l|] eqn:Hl; [|discriminate].
    injection Hps as <-. injection Hps' as <-.
    assert (Hpab : pa <> pb).
    { intros ->. apply Hab. eapply indexOf_injective; eassumption. }
    assert (Hposa : position pa).
    { apply indexOf_get in Ha as [Ha _].
      change (Z.of_nat (String.length INPUT_CHARSET)) with 95 in Ha.
      unfold position; lia. }
    assert (Hposb : position pb).
    { apply indexOf_get in Hb as [Hb _].
      change (Z.of_nat (String.length INPUT_CHARSET)) with 95 in Hb.
      unfold position; lia. }
    destruct (position_split pa Hposa) as (_ & _ & Hsa).
    destruct (position_split pb Hposb) as (_ & _ & Hsb).
    unfold group_state in Hg.
    destruct Hg as [[-> ->] | [[-> Hc] | [-> Hc]]]; simpl symbols.
    + destruct (symbols_pending l 1 ltac:(now left))
        as (u & g & r & Hsym & Hinj & Hu).
      change (0 + 1 =? 3) with false. cbv iota. change (0 + 1) with 1.
      rewrite !Hsym.
      exists nil, (Z.land pa 31 :: u ++ [g (0 * 3 + Z.shiftr pa 5)]),
        (Z.land pb 31 :: u ++ [g (0 * 3 + Z.shiftr pb 5)]), r.
      simpl. rewrite <- !app_assoc, !length_app. simpl.
      repeat split; try lia.
      intros [= Hlo Hgr]. apply app_inv_head in Hgr.
      injection Hgr as Hgr. apply Hinj in Hgr. lia.
    + destruct (symbols_pending l 2 ltac:(now right))
        as (u & g & r & Hsym & Hinj & Hu).
      change (1 + 1 =? 3) with false. cbv iota. change (1 + 1) with 2.
      rewrite !Hsym.
      exists nil, (Z.land pa 31 :: u ++ [g (cls * 3 + Z.shiftr pa 5)]),
        (Z.land pb 31 :: u ++ [g (cls * 3 + Z.shiftr pb 5)]), r.
      simpl. rewrite <- !app_assoc, !length_app. simpl.
      repeat split; try lia.
      intros [= Hlo Hgr]. apply app_inv_head in Hgr.
      injection Hgr as Hgr. apply Hinj in Hgr. lia.
    + change (2 + 1 =? 3) with true. cbv iota.
      exists nil, [Z.land pa 31; cls * 3 + Z.shiftr pa 5],
        [Z.land pb 31; cls * 3 + Z.shiftr pb 5], (symbols l 0 0).
      simpl. repeat split; try lia.
      intros [= Hlo Hgr]. lia.
  - destruct (indexOf c INPUT_CHARSET) as [pc|] eqn:Hc; [|discriminate].
    destruct (positions_of s) as [l|] eqn:Hl; [|discriminate].
    destruct (positions_of t) as [l'|] eqn:Hl'; [|discriminate].
    injection Hps as <-. injection Hps' as <-.
    assert (Hposc : position pc).
    { apply indexOf_get in Hc as [Hc _].
      change (Z.of_nat (String.length INPUT_CHARSET)) with 95 in Hc.
      unfold position; lia. }
    destruct (position_split pc Hposc) as (_ & Hhi & _).
    simpl symbols.
    destruct (k + 1 =? 3) eqn:Hk.
    + destruct (IH l l' 0 0 eq_refl eq_refl)
        as (u & w & w' & r & H1 & H2 & Hlen & Hshort & Hdiff).
      { unfold group_state. lia. }
      rewrite H1, H2.
      exists (Z.land pc 31 :: cls * 3 + Z.shiftr pc 5 :: u), w, w', r.
      repeat split; assumption.
    + destruct (IH l l' (cls * 3 + Z.shiftr pc 5) (k + 1) eq_refl eq_refl)
        as (u & w & w' & r & H1 & H2 & Hlen & Hshort & Hdiff).
      { apply Z.eqb_neq in Hk. unfold group_state in *. lia. }
      rewrite H1, H2.
      exists (Z.land pc 31 :: u), w, w', r.
      repeat split; assumption.
Qed.

(** ** The eight characters of the checksum *)

Lemma symbol_cases (P : Z -> Prop) :
  (forall n, (n < 32)%nat -> P (Z.of_nat n)) -> forall i, symbol i -> P i.
Proof.
  intros HP i Hi. unfold symbol in Hi.
  replace i with (Z.of_nat (Z.to_nat i)) by lia. apply HP. lia.
Qed.

Lemma char_of_index (i : Z) :
  symbol i ->
  charAt CHECKSUM_CHARSET i = String (char_of i) EmptyString
  /\ indexOf (char_of i) CHECKSUM_CHARSET = Some i.
Proof.
  revert i. apply symbol_cases. intros n Hn.
  do 32 (destruct n as [|n]; [vm_compute; split; reflexivity|]). lia.
Qed.

Lemma char_of_injective (i j : Z) :
  symbol i -> symbol j -> char_of i = char_of j -> i = j.
Proof.
  intros Hi Hj Heq.
  destruct (char_of_index i Hi) as [_ Hii].
  destruct (char_of_index j Hj) as [_ Hjj].
  rewrite Heq in Hii. congruence.
Qed.

Lemma digit_symbol (c j : Z) : symbol (digit c j).
Proof.
  unfold digit, symbol. change 31 with (Z.ones 5).
  rewrite Z.land_ones by lia. apply Z.mod_pos_bound. lia.
Qed.

Lemma encode_chars (c : Z) :
  encode c =
  String (char_of (digit c 0)) (String (char_of (digit c 1))
  (String (char_of (digit c 2)) (String (char_of (digit c 3))
  (String (char_of (digit c 4)) (String (char_of (digit c 5))
  (String (char_of (digit c 6)) (String (char_of (digit c 7))
     EmptyString))))))).
Proof.
  unfold encode. cbn [map String.concat].
  fold (digit c 0) (digit c 1) (digit c 2) (digit c 3) (digit c 4)
    (digit c 5) (digit c 6) (digit c 7).
  rewrite !(proj1 (char_of_index _ (digit_symbol c _))).
  reflexivity.
Qed.

Lemma encode_shape (c : Z) :
  String.length (encode c) = 8%nat
  /\ string_forallb (fun a => string_mem a CHECKSUM_CHARSET) (encode c)
     = true.
Proof.
  rewrite encode_chars. split; [reflexivity|].
  cbn [string_forallb].
  assert (Hmem : forall j, string_mem (char_of (digit c j)) CHECKSUM_CHARSET
                           = true).
  { intros j. apply indexOf_mem. exists (digit c j).
    apply char_of_index, digit_symbol. }
  now rewrite !Hmem.
Qed.

Lemma digit_testbit (c n : Z) :
  0 <= n < 40 ->
  Z.testbit c n = Z.testbit (digit c (7 - n / 5)) (n mod 5).
Proof.
  intros Hn. unfold digit.
  pose proof (Z.div_mod n 5 ltac:(lia)) as Hdm.
  pose proof (Z.mod_pos_bound n 5 ltac:(lia)) as Hmod.
  rewrite Z.land_spec, Z.shiftr_spec by lia.
  replace (n mod 5 + 5 * (7 - (7 - n / 5))) with n by lia.
  replace (Z.testbit 31 (n mod 5)) with true; [now rewrite andb_true_r|].
  assert (Hcase : n mod 5 = 0 \/ n mod 5 = 1 \/ n mod 5 = 2
                  \/ n mod 5 = 3 \/ n mod 5 = 4) by lia.
  destruct Hcase as [-> | [-> | [-> | [-> | ->]]]]; reflexivity.
Qed.

Lemma state40_high_bits (c n : Z) :
  state40 c -> 40 <= n -> Z.testbit c n = false.
Proof.
  intros Hc Hn. unfold state40 in Hc.
  destruct (Z.eq_dec c 0) as [-> | Hnz]; [apply Z.bits_0|].
  apply Z.bits_above_log2; [lia|].
  assert (Z.log2 c < 40); [|lia].
  apply Z.log2_lt_pow2; lia.
Qed.

Lemma digits_determine (c c' : Z) :
  state40 c -> state40 c' ->
  (forall j, 0 <= j < 8 -> digit c j = digit c' j) -> c = c'.
Proof.
  intros Hc Hc' Hd. apply Z.bits_inj'. intros n Hn.
  destruct (Z.lt_ge_cases n 40) as [Hlt|Hge].
  - rewrite (digit_testbit c n), (digit_testbit c' n) by lia.
    rewrite Hd; [reflexivity|].
    pose proof (Z.div_pos n 5 ltac:(lia) ltac:(lia)).
    assert (n / 5 < 8) by (apply Z.div_lt_upper_bound; lia).
    lia.
  - now rewrite !state40_high_bits.
Qed.

Lemma encode_injective (c c' : Z) :
  state40 c -> state40 c' -> encode c = encode c' -> c = c'.
Proof.
  intros Hc Hc' Heq. rewrite !encode_chars in Heq.
  injection Heq as E0 E1 E2 E3 E4 E5 E6 E7.
  apply digits_determine; try assumption.
  intros j Hj.
  assert (Hcase : j = 0 \/ j = 1 \/ j = 2 \/ j = 3 \/ j = 4 \/ j = 5
                  \/ j = 6 \/ j = 7) by lia.
  destruct Hcase as [-> | [-> | [-> | [-> | [-> | [-> | [-> | ->]]]]]]];
    apply char_of_injective; auto using digit_symbol.
Qed.

(** ** The checksum detects a substituted character *)

Lemma DescriptorChecksum_valid (body : string) (ps : list Z) :
  positions_of body = Some ps ->
  DescriptorChecksum body =
  encode (Z.lxor (poly 1 (symbols ps 0 0 ++ repeat 0 8)) 1).
Proof.
  intros Hps. unfold DescriptorChecksum.
  destruct (scan_symbols body ps initial Hps) as (st & -> & ->).
  reflexivity.
Qed.

Lemma DescriptorChecksum_invalid (body : string) :
  positions_of body = None -> DescriptorChecksum body = EmptyString.
Proof.
  intros Hps. unfold DescriptorChecksum. now rewrite scan_invalid.
Qed.

Lemma DescriptorChecksum_shape (body : string) :
  valid_body body ->
  String.length (DescriptorChecksum body) = 8%nat
  /\ string_forallb (fun a => string_mem a CHECKSUM_CHARSET)
       (DescriptorChecksum body) = true.
Proof.
  intros Hvalid. apply positions_of_valid in Hvalid as [ps Hps].
  rewrite (DescriptorChecksum_valid _ _ Hps). apply encode_shape.
Qed.

Lemma zeros_symbols (n : nat) : Forall symbol (repeat 0 n).
Proof.
  induction n; simpl; constructor; [unfold symbol; lia | assumption].
Qed.

Lemma final_state40 (l : list Z) :
  Forall symbol l -> state40 (Z.lxor (poly 1 l) 1).
Proof.
  intros Hl. unfold state40. apply lxor_range; [lia | | lia].
  apply poly_range; [unfold state40; lia | assumption].
Qed.

Theorem checksum_detects_substitution (body body' : string) :
  valid_body body -> substitution body body' ->
  DescriptorChecksum body' <> DescriptorChecksum body.
Proof.
  intros Hvalid Hsub.
  pose proof (DescriptorChecksum_shape body Hvalid) as [Hlen _].
  apply positions_of_valid in Hvalid as [ps Hps].
  destruct (positions_of body') as [ps'|] eqn:Hps'.
  - rewrite (DescriptorChecksum_valid _ _ Hps),
      (DescriptorChecksum_valid _ _ Hps').
    assert (Hstart : group_state 0 0) by (unfold group_state; lia).
    destruct (substitution_window _ _ Hsub ps ps' 0 0 Hps Hps' Hstart)
      as (before & w & w' & after & Hs & Hs' & Hwlen & Hshort & Hdiff).
    pose proof (symbols_range ps 0 0 (positions_of_range _ _ Hps) Hstart)
      as Hrange.
    pose proof (symbols_range ps' 0 0 (positions_of_range _ _ Hps') Hstart)
      as Hrange'.
    rewrite Hs in *. rewrite Hs' in *.
    apply Forall_app in Hrange as [Hb Hrange].
    apply Forall_app in Hrange as [Hw Ha].
    apply Forall_app in Hrange' as [_ Hrange'].
    apply Forall_app in Hrange' as [Hw' _].
    intros Heq. apply encode_injective in Heq.
    + apply lxor_cancel_r in Heq. rewrite <- !app_assoc in Heq.
      revert Heq.
      apply not_eq_sym, poly_detects_window;
        try assumption; try lia.
      * unfold state40; lia.
      * apply Forall_app; split; [assumption | apply zeros_symbols].
    + apply final_state40.
      repeat (apply Forall_app; split); auto using zeros_symbols.
    + apply final_state40.
      repeat (apply Forall_app; split); auto using zeros_symbols.
  - rewrite (DescriptorChecksum_invalid _ Hps'). intros Heq.
    rewrite <- Heq in Hlen. discriminate.
Qed.

(** ** Checksum validation in [evaluate] *)

Lemma substitution_length (s t : string) :
  substitution s t -> String.length s = String.length t.
Proof. induction 1; simpl; congruence. Qed.

Lemma substitution_neq (s t : string) : substitution s t -> s <> t.
Proof.
  induction 1 as [a b rest Hab | c s t Hst IH]; intros [=]; auto.
Qed.

Lemma substitution_append (s t suffix : string) :
  substitution s t -> substitution (s ++ suffix) (t ++ suffix).
Proof. induction 1; simpl; constructor; assumption. Qed.

Lemma substring_all (s : string) (n : nat) :
  String.length s = n -> String.substring 0 n s = s.
Proof. intros <-. apply substring_0_length. Qed.

(** The pattern at the end of a body followed by a hash sign and eight
    characters: it matches exactly when the eight characters belong to the
    checksum charset. *)
Lemma match_reChecksum_end_suffix (body cs : string) :
  String.length cs = 8%nat ->
  match_reChecksum_end (body ++ "#" ++ cs) =
  if string_forallb (fun a => string_mem a CHECKSUM_CHARSET) cs
  then Some ("#" ++ cs)%string
  else None.
Proof.
  intros Hlen. unfold match_reChecksum_end, js_substring.
  rewrite length_append. cbn [String.length append]. rewrite Hlen.
  destruct (Nat.ltb_spec (String.length body + 9) 9) as [Hlt|_]; [lia|].
  replace (String.length body + 9 - 9)%nat with (String.length body) by lia.
  replace (String.length body + 9 - String.length body)%nat with 9%nat
    by lia.
  rewrite substring_skip_append.
  rewrite (substring_all (String "#" cs) 9) by (simpl; lia).
  unfold reChecksum_matches. rewrite Hlen. reflexivity.
Qed.

Lemma checked_body_suffix (body cs : string) (required : bool) :
  String.length cs = 8%nat ->
  checked_body (body ++ "#" ++ cs) required =
  if string_forallb (fun a => string_mem a CHECKSUM_CHARSET) cs
  then if String.eqb cs (DescriptorChecksum body)
       then Ok body else Throw ErrInvalidChecksum
  else if required then Throw ErrNoChecksum
       else Ok (body ++ "#" ++ cs)%string.
Proof.
  intros Hlen. unfold checked_body.
  rewrite (match_reChecksum_end_suffix body cs Hlen).
  destruct (string_forallb _ cs); [|reflexivity].
  unfold js_substring, js_substring_from.
  assert (Hbody : String.substring 0
                    (String.length (body ++ "#" ++ cs)
                     - String.length ("#" ++ cs) - 0)
                    (body ++ "#" ++ cs) = body).
  { rewrite length_append. cbn [String.length append]. rewrite Hlen.
    replace (String.length body + 9 - 9 - 0)%nat with (String.length body)
      by lia.
    apply substring_0_append. }
  rewrite Hbody. cbn [String.length append]. rewrite Hlen.
  change (String.substring 1 (9 - 1) (String "#" cs))
    with (String.substring 0 8 cs).
  now rewrite (substring_all cs 8 Hlen).
Qed.

Section ChecksumFacts.
Context {rt : JsRuntime} {lib : Collaborators}.

(** C4, as the code has it.  For a body [D] over the checksum's input
    alphabet: the expression [D#checksum(D)] passes checksum validation;
    replacing one character of [D] makes construction throw the
    checksum-mismatch error, and so does replacing one character of the
    checksum by another character of the checksum charset; a replacement
    by a character outside that charset leaves no checksum to recognise,
    so that construction throws the missing-checksum error when a
    checksum is required and otherwise takes the whole text as the body,
    without validation. *)
Theorem checksum_validation (a : Params) (D : string) :
  valid_body D ->
  (expression a = (D ++ "#" ++ DescriptorChecksum D)%string ->
   checked_body (expression a) (checksumRequired a) = Ok D
   /\ evaluate (expression a) (checksumRequired a) (index a)
      = particularise D (index a)) /\
  (forall D', substitution D D' ->
     expression a = (D' ++ "#" ++ DescriptorChecksum D)%string ->
     Descriptor_constructor a = Throw ErrInvalidChecksum) /\
  (forall cs', substitution (DescriptorChecksum D) cs' ->
     expression a = (D ++ "#" ++ cs')%string ->
     if string_forallb (fun ch => string_mem ch CHECKSUM_CHARSET) cs'
     then Descriptor_constructor a = Throw ErrInvalidChecksum
     else checked_body (expression a) (checksumRequired a) =
          if checksumRequired a then Throw ErrNoChecksum
          else Ok (expression a)).
Proof.
  intros Hvalid.
  destruct (DescriptorChecksum_shape D Hvalid) as [Hlen Hcharset].
  split; [|split].
  - intros ->. rewrite evaluate_stages.
    rewrite checked_body_suffix, Hcharset by assumption.
    rewrite String.eqb_refl. split; reflexivity.
  - intros D' Hsub Hexpr. apply constructor_evaluate_throws.
    rewrite evaluate_stages, Hexpr.
    rewrite checked_body_suffix, Hcharset by assumption.
    destruct (String.eqb_spec (DescriptorChecksum D)
                (DescriptorChecksum D')) as [Heq|_]; [|reflexivity].
    exfalso. now apply (checksum_detects_substitution D D').
  - intros cs' Hsub Hexpr.
    assert (Hlen' : String.length cs' = 8%nat)
      by (rewrite <- (substitution_length _ _ Hsub); assumption).
    destruct (string_forallb _ cs') eqn:Hcs'.
    + apply constructor_evaluate_throws.
      rewrite evaluate_stages, Hexpr.
      rewrite checked_body_suffix, Hcs' by assumption.
      destruct (String.eqb_spec cs' (DescriptorChecksum D)) as [Heq|_];
        [|reflexivity].
      exfalso. apply (substitution_neq _ _ Hsub). now symmetry.
    + rewrite Hexpr, checked_body_suffix, Hcs' by assumption.
      reflexivity.
Qed.
End ChecksumFacts.

(* ===================================================================== *)
(** * Further properties of the code *)

(** ** The constructor, production by production *)

Section DispatchFacts.
Context {rt : JsRuntime} {lib : Collaborators}.

Lemma constructor_dispatch (a : Params) :
  Descriptor_constructor a =
  (e <- evaluate (expression a) (checksumRequired a) (index a) ;;
   dispatch e a).
Proof.
  unfold Descriptor_constructor, dispatch, matched_miniscript, production.
  destruct (evaluate _ _ _) as [e|err]; [|reflexivity]. simpl.
  destruct (reAddrAnchored e); [reflexivity|].
  destruct (rePkAnchored e); [reflexivity|].
  destruct (rePkhAnchored e); [reflexivity|].
  destruct (reShWpkhAnchored e); [reflexivity|].
  destruct (reWpkhAnchored e); [reflexivity|].
  destruct (reShWshMiniscriptAnchored e); [reflexivity|].
  destruct (reShMiniscriptAnchored e); [reflexivity|].
  destruct (reWshMiniscriptAnchored e); reflexivity.
Qed.

(** The productions read the network, the preimages, the signers and the
    opt-in flag of the parameters, nothing else. *)
Lemma dispatch_parameters (e : string) (a a' : Params) :
  network a = network a' -> preimages a = preimages a' ->
  signersKeyExpressions a = signersKeyExpressions a' ->
  allowMiniscriptInP2SH a = allowMiniscriptInP2SH a' ->
  dispatch e a = dispatch e a'.
Proof.
  intros Hn Hp Hs Hf.
  unfold dispatch, construct_addr, construct_pk, construct_pkh,
    construct_sh_wpkh, construct_wpkh, construct_sh_wsh, construct_sh,
    construct_wsh, single_key.
  rewrite Hn, Hp, Hs, Hf. reflexivity.
Qed.
End DispatchFacts.

(** ** The parameters of the constructor *)

Lemma decimal_digits_no_star (d : Decimal.uint) :
  string_mem star (NilEmpty.string_of_uint d) = false.
Proof. induction d; simpl; auto. Qed.

Lemma decimal_no_star (z : Z) : has_wildcard (decimal z) = false.
Proof.
  unfold has_wildcard, decimal.
  destruct z as [|p|p]; [reflexivity| |]; simpl;
    unfold NilZero.string_of_uint;
    destruct (Pos.to_uint p); try reflexivity; apply decimal_digits_no_star.
Qed.

Lemma substring_no_star (s : string) (n m : nat) :
  string_mem star s = false ->
  string_mem star (String.substring n m s) = false.
Proof.
  revert n m. induction s as [|c rest IH]; intros n m Hs.
  - now destruct n, m.
  - simpl in Hs. apply orb_false_iff in Hs as [Hc Hrest].
    destruct n as [|n]; destruct m as [|m]; simpl; auto.
    now rewrite Hc, IH.
Qed.

Lemma drop_zeros_no_star (s : string) :
  string_mem star s = false -> string_mem star (drop_zeros s) = false.
Proof.
  induction s as [|c rest IH]; intros Hs; [reflexivity|].
  simpl in Hs. apply orb_false_iff in Hs as [Hc Hrest].
  specialize (IH Hrest). simpl.
  destruct (drop_zeros rest) as [|c' kept].
  - destruct (Ascii.eqb c "0"); [reflexivity|]. simpl. now rewrite Hc.
  - cbn [string_mem]. rewrite Hc. exact IH.
Qed.

Lemma exponent_text_no_star (p : Z) :
  has_wildcard (exponent_text p) = false.
Proof.
  unfold has_wildcard, exponent_text. cbv zeta.
  pose proof (decimal_no_star p) as Hdigits. unfold has_wildcard in Hdigits.
  rewrite !string_mem_append.
  rewrite (substring_no_star _ 0 1 Hdigits).
  pose proof (drop_zeros_no_star _
                (substring_no_star _ 1 (String.length (decimal p) - 1)
                   Hdigits)) as Hfraction.
  pose proof (decimal_no_star (Z.of_nat (String.length (decimal p)) - 1))
    as Hexponent.
  unfold has_wildcard in Hexponent. rewrite Hexponent.
  destruct (drop_zeros _) as [|c kept]; [reflexivity|].
  rewrite string_mem_append, Hfraction. reflexivity.
Qed.

Lemma integer_text_no_star (z : Z) :
  has_wildcard (integer_text z) = false.
Proof.
  unfold integer_text.
  destruct (Z.abs z <=? 2 ^ 53); [apply decimal_no_star|].
  cbv zeta. unfold has_wildcard. rewrite string_mem_append.
  replace (string_mem star (if z <? 0 then "-" else "")) with false
    by (now destruct (z <? 0)).
  destruct (_ <? 10 ^ 21);
    [apply decimal_no_star | apply exponent_text_no_star].
Qed.

Lemma replaceAll_star_no_wildcard (s by_ : string) :
  has_wildcard by_ = false -> has_wildcard (replaceAll_star s by_) = false.
Proof.
  intros Hby. unfold has_wildcard in *.
  induction s as [|c rest IH]; [reflexivity|].
  simpl. destruct (Ascii.eqb c star) eqn:Hc.
  - rewrite string_mem_append, Hby, IH. reflexivity.
  - simpl. rewrite Hc, IH. reflexivity.
Qed.

Section ParameterFacts.
Context {rt : JsRuntime} {lib : Collaborators}.

Lemma evaluate_plain (expression : string) (required : bool)
      (index : option JsNumber) :
  has_wildcard expression = false ->
  evaluate expression required index = checked_body expression required.
Proof.
  intros Hplain. rewrite evaluate_stages.
  destruct (checked_body expression required) as [body|err] eqn:Hbody;
    [|reflexivity].
  simpl. apply particularise_plain.
  now rewrite (checked_body_wildcard _ _ _ Hbody).
Qed.

(** X1.  An expression without a wildcard is not a range descriptor: the
    index passed to the constructor is never looked at, so that any index,
    also a missing, negative or fractional one, leads to the same
    descriptor or to the same error. *)
Theorem index_ignored_without_wildcard (a : Params)
        (i : option JsNumber) :
  has_wildcard (expression a) = false ->
  Descriptor_constructor (with_index a i) = Descriptor_constructor a.
Proof.
  intros Hplain. rewrite !constructor_dispatch.
  cbn [with_index expression checksumRequired index].
  rewrite !evaluate_plain by assumption.
  destruct (checked_body _ _) as [e|err]; [|reflexivity].
  simpl. now apply dispatch_parameters.
Qed.

(** X2.  Requiring a checksum can only reject: when the expression ends in
    a checksum the flag changes nothing, and when it does not, construction
    with the flag set throws the missing-checksum error, whatever the
    expression is otherwise. *)
Theorem checksumRequired_only_rejects (a : Params) :
  match match_reChecksum_end (expression a) with
  | Some _ =>
      Descriptor_constructor (with_checksumRequired a true)
      = Descriptor_constructor (with_checksumRequired a false)
  | None =>
      Descriptor_constructor (with_checksumRequired a true)
      = Throw ErrNoChecksum
  end.
Proof.
  rewrite !constructor_dispatch.
  cbn [with_checksumRequired expression checksumRequired index].
  unfold evaluate.
  destruct (match_reChecksum_end (expression a)) as [m0|]; [|reflexivity].
  match goal with
  | |- bind ?r _ = bind ?r _ => destruct r as [e|err]; [|reflexivity]
  end.
  simpl. now apply dispatch_parameters.
Qed.

(** X3.  What [evaluate] returns is never a range expression: with an index
    below [10^21] (any BIP32 child index) the evaluated expression contains
    no wildcard. *)
Theorem evaluated_expression_has_no_wildcard (expression e : string)
        (required : bool) (index : option JsNumber) :
  (forall z, index = Some (JsInt z) -> z < 10 ^ 21) ->
  evaluate expression required index = Ok e ->
  has_wildcard e = false.
Proof.
  intros Hsmall Heval. rewrite evaluate_stages in Heval.
  apply bind_ok in Heval as (body & Hbody & Hpart).
  destruct (has_wildcard body) eqn:Hwild.
  - rewrite (particularise_wildcard body index Hwild) in Hpart.
    destruct index as [[z|printed]|]; try discriminate.
    destruct (Z.ltb_spec z 0) as [Hneg|Hpos]; [discriminate|].
    injection Hpart as <-. apply replaceAll_star_no_wildcard.
    exact (integer_text_no_star z).
  - rewrite (particularise_plain body index Hwild) in Hpart.
    now injection Hpart as <-.
Qed.

(** X4.  Appending to a body the checksum that the static method [checksum]
    computes for it changes nothing but the check: for a body over the
    input alphabet that does not itself end in a checksum, the constructor
    returns for [D#checksum(D)], also when a checksum is required, what it
    returns for [D] when none is required. *)
Theorem own_checksum_accepted (a : Params) (D : string) :
  valid_body D ->
  match_reChecksum_end D = None ->
  Descriptor_constructor
    (with_expression a (D ++ "#" ++ Descriptor_checksum D))
  = Descriptor_constructor
      (with_checksumRequired (with_expression a D) false).
Proof.
  intros Hvalid Hbare.
  destruct (DescriptorChecksum_shape D Hvalid) as [Hlen Hcharset].
  rewrite !constructor_dispatch.
  cbn [with_expression with_checksumRequired expression checksumRequired
       index].
  rewrite !evaluate_stages. unfold Descriptor_checksum.
  rewrite checked_body_suffix, Hcharset, String.eqb_refl by assumption.
  unfold checked_body at 1. rewrite Hbare.
  cbn [bind].
  destruct (particularise D (index a)) as [e|err]; [|reflexivity].
  now apply dispatch_parameters.
Qed.

(** X5.  The opt-in flag [allowMiniscriptInP2SH] only lifts one refusal:
    without it the constructor returns what it returns with it, or throws
    because the expression is a bare [sh(miniscript)] whose miniscript
    starts with none of the allowed top-level expressions. *)
Theorem allowMiniscriptInP2SH_only_lifts_refusal (a : Params) :
  Descriptor_constructor (with_allowMiniscriptInP2SH a false)
  = Descriptor_constructor (with_allowMiniscriptInP2SH a true)
  \/ (Descriptor_constructor (with_allowMiniscriptInP2SH a false)
      = Throw ErrMiniscriptOnlyInWsh
      /\ exists e miniscript,
          evaluate (expression a) (checksumRequired a) (index a) = Ok e
          /\ production e = PSh
          /\ matched_miniscript e = Some miniscript
          /\ forall p, In p sh_top_level ->
                       String.prefix p miniscript = false).
Proof.
  rewrite !constructor_dispatch.
  cbn [with_allowMiniscriptInP2SH expression checksumRequired index].
  destruct (evaluate _ _ _) as [e|err] eqn:Heval; [|left; reflexivity].
  cbn [bind]. unfold dispatch.
  destruct (production e) eqn:Hprod; try (left; reflexivity).
  destruct (matched_miniscript e) as [m|] eqn:Hm; [|left; reflexivity].
  unfold construct_sh.
  cbn [allowMiniscriptInP2SH with_allowMiniscriptInP2SH network negb andb].
  destruct (is_empty m); [left; reflexivity|].
  rewrite search_sh_top_level_hit.
  destruct (existsb (fun p => String.prefix p m) sh_top_level) eqn:Hhit;
    [left; reflexivity|].
  right. split; [reflexivity|]. exists e, m.
  repeat (split; [assumption || reflexivity|]).
  intros p Hp.
  destruct (String.prefix p m) eqn:Hpre; [|reflexivity].
  assert (existsb (fun p => String.prefix p m) sh_top_level = true)
    by (apply existsb_exists; exists p; split; assumption).
  congruence.
Qed.
End ParameterFacts.

(** ** What each production leaves in the descriptor *)

Ltac bounds :=
  repeat match goal with
         | H : (_ >? _) = false |- _ =>
             rewrite Z.gtb_ltb in H; apply Z.ltb_ge in H
         end.

Section InversionFacts.
Context {rt : JsRuntime} {lib : Collaborators}.

Lemma single_key_ok (e : string) (a : Params) (segwit : bool)
      (before after : string) (expansionMap : ExpansionMap)
      (pubkey : Buffer) :
  single_key e a segwit before after = Ok (expansionMap, pubkey) ->
  exists k keyInfo,
    reKeyExp e = Some k /\
    e = (before ++ k ++ after)%string /\
    parseKeyExpression k (network a) segwit = Ok keyInfo /\
    expansionMap = [("@0", keyInfo)] /\
    pubkey = ki_pubkey keyInfo.
Proof.
  unfold single_key. intros Hok.
  destruct (reKeyExp e) as [k|]; [|discriminate].
  destruct (is_empty k); [discriminate|].
  destruct (String.eqb_spec e (before ++ k ++ after)) as [He|_];
    [|discriminate].
  cbn [negb] in Hok. apply bind_ok in Hok as (keyInfo & Hparse & Hok).
  injection Hok as <- <-. exists k, keyInfo. repeat split; assumption.
Qed.

(** The productions with a single key. *)
Lemma constructor_single_key (a : Params) (e : string) (d : Descriptor) :
  evaluate (expression a) (checksumRequired a) (index a) = Ok e ->
  single_key_bearing (production e) = true ->
  Descriptor_constructor a = Ok d ->
  exists k keyInfo payment segwit,
    reKeyExp e = Some k /\
    e = wrap (production e) k /\
    segwit_of (production e) = Some segwit /\
    parseKeyExpression k (network a) segwit = Ok keyInfo /\
    key_payment (production e) (ki_pubkey keyInfo) (network a) = Ok payment /\
    (production e = PShWpkh -> pay_redeem_output payment <> None) /\
    d = mkDescriptor payment (preimages a) None None
          (match production e with
           | PShWpkh => pay_redeem_output payment
           | _ => None
           end)
          (Some segwit) (Some (wrap (production e) "@0")) None
          (Some [("@0", keyInfo)]) (network a) (signersKeyExpressions a).
Proof.
  intros Heval Hkey Hd. rewrite constructor_dispatch, Heval in Hd.
  cbn [bind] in Hd. unfold dispatch in Hd.
  destruct (production e); try discriminate Hkey;
    unfold construct_pk, construct_pkh, construct_sh_wpkh, construct_wpkh
      in Hd;
    cbv zeta in Hd;
    apply bind_ok in Hd as ([expansionMap pubkey] & Hsingle & Hd);
    apply single_key_ok in Hsingle
      as (k & keyInfo & Hk & He & Hparse & -> & ->);
    run_ok Hd.
  - injection Hd as <-. exists k, keyInfo, x, false.
    repeat split; try assumption; try reflexivity. discriminate.
  - injection Hd as <-. exists k, keyInfo, x, false.
    repeat split; try assumption; try reflexivity. discriminate.
  - injection Hd as <-. exists k, keyInfo, x0, true.
    unfold key_payment. rewrite Hx. cbn [bind].
    repeat split; try assumption; try reflexivity.
    + congruence.
    + now rewrite Hc.
  - injection Hd as <-. exists k, keyInfo, x, true.
    repeat split; try assumption; try reflexivity. discriminate.
Qed.

(** The productions with a miniscript. *)
Lemma constructor_script (a : Params) (e : string) (d : Descriptor) :
  evaluate (expression a) (checksumRequired a) (index a) = Ok e ->
  miniscript_bearing (production e) = true ->
  Descriptor_constructor a = Ok d ->
  exists miniscript expandedMiniscript expansionMap script ops payment segwit,
    matched_miniscript e = Some miniscript /\
    is_empty miniscript = false /\
    segwit_of (production e) = Some segwit /\
    expandMiniscript miniscript segwit (network a)
    = Ok (expandedMiniscript, expansionMap) /\
    miniscript2Script expandedMiniscript expansionMap = Ok script /\
    byteLength script <= script_size_limit (production e) /\
    countNonPushOnlyOPs script = Ok ops /\
    ops <= MAX_OPS_PER_SCRIPT /\
    script_payment (production e) script (network a) = Ok payment /\
    (production e = PShWsh -> pay_redeem_output payment <> None) /\
    d = mkDescriptor payment (preimages a) (Some miniscript)
          (match production e with
           | PSh => None
           | _ => Some script
           end)
          (match production e with
           | PSh => Some script
           | PShWsh => pay_redeem_output payment
           | _ => None
           end)
          (Some segwit) (Some (wrap (production e) expandedMiniscript))
          (Some expandedMiniscript) (Some expansionMap) (network a)
          (signersKeyExpressions a).
Proof.
  intros Heval Hmini Hd. rewrite constructor_dispatch, Heval in Hd.
  cbn [bind] in Hd. unfold dispatch in Hd.
  destruct (matched_miniscript e) as [m|] eqn:Hm.
  2: destruct (production e); discriminate.
  destruct (production e); try discriminate Hmini;
    unfold construct_sh_wsh, construct_sh, construct_wsh in Hd;
    run_ok Hd.
  - injection Hd as <-. bounds.
    exists m, s, e0, x0, x1, x3, true.
    unfold script_payment. rewrite Hx2. cbn [bind].
    repeat split; try assumption; try reflexivity.
    + congruence.
    + now rewrite Hc3.
  - injection Hd as <-. bounds.
    exists m, s, e0, x0, x1, x2, false.
    repeat split; try assumption; try reflexivity. discriminate.
  - injection Hd as <-. bounds.
    exists m, s, e0, x0, x1, x2, true.
    repeat split; try assumption; try reflexivity. discriminate.
Qed.

(** The [addr] production. *)
Lemma constructor_address (a : Params) (e : string) (d : Descriptor) :
  evaluate (expression a) (checksumRequired a) (index a) = Ok e ->
  production e = PAddr ->
  Descriptor_constructor a = Ok d ->
  exists payment,
    d = mkDescriptor payment (preimages a) None None None None None None
          None (network a) (signersKeyExpressions a).
Proof.
  intros Heval Hprod Hd. rewrite constructor_dispatch, Heval in Hd.
  cbn [bind] in Hd. unfold dispatch in Hd. rewrite Hprod in Hd.
  unfold construct_addr in Hd. run_ok Hd.
  injection Hd as <-. now eexists.
Qed.

Lemma constructor_evaluated (a : Params) (d : Descriptor) :
  Descriptor_constructor a = Ok d ->
  exists e,
    evaluate (expression a) (checksumRequired a) (index a) = Ok e /\
    (production e = PAddr
     \/ single_key_bearing (production e) = true
     \/ miniscript_bearing (production e) = true).
Proof.
  intros Hd. pose proof Hd as Hd'. rewrite constructor_dispatch in Hd'.
  apply bind_ok in Hd' as (e & Heval & Hd'). exists e. split; [assumption|].
  unfold dispatch in Hd'.
  destruct (production e); try discriminate; auto.
Qed.
End InversionFacts.

Section DescriptorFacts.
Context {rt : JsRuntime} {lib : Collaborators}.

(** X6.  A descriptor built by one of the productions with a single key
    ([pk], [pkh], [sh(wpkh)], [wpkh]): the evaluated expression is the
    wrapper of the production around the key expression that was
    extracted; the key was parsed with the segwit flag of the production;
    the payment is what the template of the production makes of the parsed
    public key; and [expand] returns the wrapper around [@0] with the one
    key, and no miniscript. *)
Theorem single_key_descriptor (a : Params) (e : string) (d : Descriptor) :
  evaluate (expression a) (checksumRequired a) (index a) = Ok e ->
  single_key_bearing (production e) = true ->
  Descriptor_constructor a = Ok d ->
  exists k keyInfo segwit,
    reKeyExp e = Some k /\
    e = wrap (production e) k /\
    segwit_of (production e) = Some segwit /\
    parseKeyExpression k (network a) segwit = Ok keyInfo /\
    key_payment (production e) (ki_pubkey keyInfo) (network a)
    = Ok (getPayment d) /\
    expand d =
    mkExpansion (Some (wrap (production e) "@0")) None None
      (Some [("@0", keyInfo)]).
Proof.
  intros Heval Hkey Hd.
  destruct (constructor_single_key a e d Heval Hkey Hd)
    as (k & keyInfo & payment & segwit & Hk & He & Hsegwit & Hparse
        & Hpayment & _ & ->).
  exists k, keyInfo, segwit. repeat split; assumption.
Qed.

(** X7.  A descriptor built by one of the miniscript productions
    ([sh(wsh)], [sh], [wsh]): the miniscript is the text matched inside the
    wrapper; it was expanded with the segwit flag of the production
    (false for a bare [sh]); the script was compiled from the expansion and
    the payment built from the script by the templates of the production;
    and [expand] returns the wrapper around the expanded miniscript, the
    miniscript, its expansion and the key map. *)
Theorem miniscript_descriptor (a : Params) (e : string) (d : Descriptor) :
  evaluate (expression a) (checksumRequired a) (index a) = Ok e ->
  miniscript_bearing (production e) = true ->
  Descriptor_constructor a = Ok d ->
  exists miniscript expandedMiniscript expansionMap script segwit,
    matched_miniscript e = Some miniscript /\
    segwit_of (production e) = Some segwit /\
    expandMiniscript miniscript segwit (network a)
    = Ok (expandedMiniscript, expansionMap) /\
    miniscript2Script expandedMiniscript expansionMap = Ok script /\
    script_payment (production e) script (network a) = Ok (getPayment d) /\
    expand d =
    mkExpansion (Some (wrap (production e) expandedMiniscript))
      (Some miniscript) (Some expandedMiniscript) (Some expansionMap).
Proof.
  intros Heval Hmini Hd.
  destruct (constructor_script a e d Heval Hmini Hd)
    as (m & em & map & script & ops & payment & segwit & Hm & _ & Hsegwit
        & Hexpand & Hscript & _ & _ & _ & Hpayment & _ & ->).
  exists m, em, map, script, segwit. repeat split; assumption.
Qed.

(** X8.  The scripts that a constructed descriptor hands out, production
    by production.  A witness script exists for [sh(wsh)] and [wsh] only
    and has at most 3600 bytes; a redeem script exists for [sh(wpkh)],
    [sh(wsh)] and [sh] only, is the output of the payment's redeem for the
    nested productions and has at most 520 bytes for a bare [sh]; every
    script compiled from a miniscript counts at most 201 operations. *)
Theorem stored_scripts (a : Params) (e : string) (d : Descriptor) :
  evaluate (expression a) (checksumRequired a) (index a) = Ok e ->
  Descriptor_constructor a = Ok d ->
  match production e with
  | PShWsh =>
      exists script ops redeemScript,
        getWitnessScript d = Some script /\
        byteLength script <= 3600 /\
        countNonPushOnlyOPs script = Ok ops /\ ops <= 201 /\
        getRedeemScript d = Some redeemScript /\
        pay_redeem_output (getPayment d) = Some redeemScript
  | PWsh =>
      exists script ops,
        getWitnessScript d = Some script /\
        byteLength script <= 3600 /\
        countNonPushOnlyOPs script = Ok ops /\ ops <= 201 /\
        getRedeemScript d = None
  | PSh =>
      exists script ops,
        getRedeemScript d = Some script /\
        byteLength script <= 520 /\
        countNonPushOnlyOPs script = Ok ops /\ ops <= 201 /\
        getWitnessScript d = None
  | PShWpkh =>
      exists redeemScript,
        getRedeemScript d = Some redeemScript /\
        pay_redeem_output (getPayment d) = Some redeemScript /\
        getWitnessScript d = None
  | _ => getWitnessScript d = None /\ getRedeemScript d = None
  end.
Proof.
  intros Heval Hd.
  destruct (constructor_evaluated a d Hd) as (e' & Heval' & Hcases).
  assert (e' = e) by congruence. subst e'.
  destruct Hcases as [Haddr | [Hkey | Hmini]].
  - destruct (constructor_address a e d Heval Haddr Hd) as (payment & ->).
    rewrite Haddr. split; reflexivity.
  - destruct (constructor_single_key a e d Heval Hkey Hd)
      as (k & keyInfo & payment & segwit & _ & _ & _ & _ & _ & Hredeem
          & ->).
    destruct (production e); try discriminate Hkey;
      try (split; reflexivity).
    unfold getRedeemScript, getWitnessScript, getPayment.
    cbn [d_redeemScript d_witnessScript d_payment].
    destruct (pay_redeem_output payment) as [redeemScript|] eqn:Hout.
    + exists redeemScript. repeat split.
    + now destruct Hredeem.
  - destruct (constructor_script a e d Heval Hmini Hd)
      as (m & em & map & script & ops & payment & segwit & _ & _ & _ & _ & _
          & Hsize & Hcount & Hops & _ & Hredeem & ->).
    unfold getRedeemScript, getWitnessScript, getPayment.
    cbn [d_redeemScript d_witnessScript d_payment].
    destruct (production e); try discriminate Hmini.
    + destruct (pay_redeem_output payment) as [redeemScript|] eqn:Hout.
      * exists script, ops, redeemScript. repeat split; assumption.
      * now destruct Hredeem.
    + exists script, ops. repeat split; assumption.
    + exists script, ops. repeat split; assumption.
Qed.

(** X9.  [isSegwit] by production: false for [pk], [pkh] and a bare
    [sh(miniscript)], true for [sh(wpkh)], [wpkh], [sh(wsh)] and [wsh], and
    an error for [addr], whose descriptor does not know what its address
    pays to. *)
Theorem isSegwit_by_production (a : Params) (e : string) (d : Descriptor) :
  evaluate (expression a) (checksumRequired a) (index a) = Ok e ->
  Descriptor_constructor a = Ok d ->
  isSegwit d =
  match segwit_of (production e) with
  | Some segwit => Ok segwit
  | None => Throw ErrSegwitUndetermined
  end.
Proof.
  intros Heval Hd.
  destruct (constructor_evaluated a d Hd) as (e' & Heval' & Hcases).
  assert (e' = e) by congruence. subst e'.
  destruct Hcases as [Haddr | [Hkey | Hmini]].
  - destruct (constructor_address a e d Heval Haddr Hd) as (payment & ->).
    rewrite Haddr. reflexivity.
  - destruct (constructor_single_key a e d Heval Hkey Hd)
      as (k & keyInfo & payment & segwit & _ & _ & -> & _ & _ & _ & ->).
    reflexivity.
  - destruct (constructor_script a e d Heval Hmini Hd)
      as (m & em & map & script & ops & payment & segwit & _ & _ & -> & _
          & _ & _ & _ & _ & _ & _ & ->).
    reflexivity.
Qed.

(** X10.  A descriptor of an address cannot be added to a transaction:
    [updatePsbt] throws for every transaction, output number and [Psbt],
    leaving the [Psbt] as it was; once the transaction parses and has the
    output, the error is the one of [isSegwit].  Such a descriptor has
    nothing to expand either. *)
Theorem addr_descriptor_updatePsbt_throws (a : Params) (e : string)
        (d : Descriptor) (txHex : string) (vout : Z) (psbt : Psbt) :
  evaluate (expression a) (checksumRequired a) (index a) = Ok e ->
  production e = PAddr ->
  Descriptor_constructor a = Ok d ->
  expand d = mkExpansion None None None None /\
  exists err,
    updatePsbt d txHex vout psbt = (psbt, Throw err) /\
    forall tx out,
      Transaction_fromHex txHex = Ok tx ->
      Array_at (outs tx) vout = Some out ->
      err = ErrSegwitUndetermined.
Proof.
  intros Heval Haddr Hd.
  destruct (constructor_address a e d Heval Haddr Hd) as (payment & ->).
  split; [reflexivity|].
  unfold updatePsbt, bindM, liftM, throwM, retM.
  destruct (Transaction_fromHex txHex) as [tx|err].
  2:{ exists err. split; [reflexivity|]. discriminate. }
  destruct (Array_at (outs tx) vout) as [out|] eqn:Hout.
  2:{ exists ErrNoVout. split; [reflexivity|].
      intros tx' out' [= <-] Hout'. congruence. }
  exists ErrSegwitUndetermined. split; reflexivity.
Qed.
End DescriptorFacts.

Lemma bindM_liftM_ok {A B : Type} (a : A) (k : A -> PsbtM B)
      (psbt : Psbt) :
  bindM (liftM (Ok a)) k psbt = k a psbt.
Proof. reflexivity. Qed.

Lemma bindM_getPsbt {A B : Type} (f : Psbt -> PsbtM A) (k : A -> PsbtM B)
      (psbt : Psbt) :
  bindM (bindM getPsbt f) k psbt = bindM (f psbt) k psbt.
Proof. reflexivity. Qed.

Lemma keeps_retM {A : Type} (a : A) : keeps_locktime (retM a).
Proof. intros psbt. reflexivity. Qed.

Lemma keeps_throwM {A : Type} (e : Error) : keeps_locktime (@throwM A e).
Proof. intros psbt. reflexivity. Qed.

Lemma keeps_liftM {A : Type} (r : Result A) : keeps_locktime (liftM r).
Proof. intros psbt. reflexivity. Qed.

Lemma keeps_getPsbt : keeps_locktime getPsbt.
Proof. intros psbt. reflexivity. Qed.

Lemma keeps_addInput `{Collaborators} (input : PsbtInputExtended) :
  keeps_locktime (addInput input).
Proof.
  intros psbt. unfold addInput.
  destruct (Psbt_checkInput psbt input); [|reflexivity].
  cbv zeta. destruct (Psbt_checkStored _); reflexivity.
Qed.

Lemma keeps_bindM {A B : Type} (m : PsbtM A) (k : A -> PsbtM B) :
  keeps_locktime m -> (forall a, keeps_locktime (k a)) ->
  keeps_locktime (bindM m k).
Proof.
  intros Hm Hk psbt. unfold bindM. specialize (Hm psbt).
  destruct (m psbt) as [psbt1 [a|err]]; simpl in Hm.
  - now rewrite Hk.
  - exact Hm.
Qed.

Ltac keeps :=
  repeat first
    [ apply keeps_retM | apply keeps_throwM | apply keeps_liftM
    | apply keeps_getPsbt | apply keeps_addInput
    | apply keeps_bindM; [|intros ?]
    | match goal with
      | |- keeps_locktime (match ?x with _ => _ end) => destruct x
      end ].

Lemma bip32Derivations_In `{Collaborators} (m : ExpansionMap)
      (derivation : Bip32Derivation) :
  In derivation (bip32Derivations m) <->
  exists keyInfo,
    In keyInfo (Object_values m) /\
    masterFingerprint keyInfo = Some (bd_masterFingerprint derivation) /\
    path keyInfo = Some (bd_path derivation) /\
    bd_path derivation <> EmptyString /\
    bd_pubkey derivation = ki_pubkey keyInfo.
Proof.
  unfold bip32Derivations. rewrite in_flat_map. split.
  - intros (keyInfo & Hin & Hd). exists keyInfo. split; [assumption|].
    destruct (masterFingerprint keyInfo) as [fingerprint|]; [|contradiction].
    destruct (path keyInfo) as [p|]; [|contradiction].
    destruct p as [|c p]; [contradiction|].
    destruct Hd as [<-|[]]. repeat split. discriminate.
  - intros (keyInfo & Hin & Hf & Hp & Hne & Hk). exists keyInfo.
    split; [assumption|]. rewrite Hf, Hp.
    destruct derivation as [fingerprint pubkey p]. simpl in *.
    destruct p as [|c p]; [congruence|]. left. now rewrite Hk.
Qed.

Lemma bip32Derivations_nil `{Collaborators} (m : ExpansionMap)
      (keyInfo : KeyInfo) :
  bip32Derivations m = nil -> In keyInfo (Object_values m) ->
  ~ has_origin keyInfo.
Proof.
  intros Hnil Hin (fingerprint & p & Hf & Hp & Hne).
  assert (Hmember :
            In (mkBip32Derivation fingerprint (ki_pubkey keyInfo) p)
               (bip32Derivations m)).
  { apply bip32Derivations_In. exists keyInfo. repeat split; assumption. }
  rewrite Hnil in Hmember. contradiction.
Qed.

Section UpdatePsbtProperties.
Context {rt : JsRuntime} {lib : Collaborators}.

(** X11.  What a successful [updatePsbt] has added: one input, at the end
    of the inputs, whose number is returned; it spends the output [vout]
    of the parsed transaction, carries the whole transaction as
    non-witness UTXO and the scripts of the descriptor, and carries a
    witness UTXO exactly when the descriptor is segwit, made of the
    descriptor's script and the value of the output spent. *)
Theorem updatePsbt_input (d : Descriptor) (txHex : string) (vout : Z)
        (psbt psbt' : Psbt) (i : Z) :
  updatePsbt d txHex vout psbt = (psbt', Ok i) ->
  exists tx out input,
    Transaction_fromHex txHex = Ok tx /\
    Array_at (outs tx) vout = Some out /\
    psbt_inputs psbt' = psbt_inputs psbt ++ [input] /\
    i = Z.of_nat (List.length (psbt_inputs psbt)) /\
    in_hash input = tx_hash tx /\
    in_index input = vout /\
    nonWitnessUtxo input = Some (tx_buffer tx) /\
    in_witnessScript input = getWitnessScript d /\
    in_redeemScript input = getRedeemScript d /\
    match witnessUtxo input with
    | Some utxo =>
        isSegwit d = Ok true /\
        getScriptPubKey d = Ok (out_script utxo) /\
        out_value utxo = out_value out
    | None => isSegwit d = Ok false
    end.
Proof.
  intros Hrun.
  destruct (updatePsbt_ok d txHex vout psbt psbt' i Hrun)
    as (tx & out & lockTime & sequence & segwit & input & Htx & Hout & _
        & _ & Hsegwit & _ & _ & Hinputs & Hi & _ & Hhash & Hindex & Hnon
        & _ & Hutxo & _ & Hw & Hr).
  exists tx, out, input.
  repeat (split; [assumption|]).
  destruct segwit.
  - destruct Hutxo as (scriptPubKey & Hspk & ->).
    repeat split; assumption.
  - now rewrite Hutxo.
Qed.

(** X12.  The key origins that a successful [updatePsbt] records: the
    input carries a [bip32Derivation] member exactly when some key of the
    expansion map has an origin, and the member then lists just those
    keys, each with its master fingerprint, public key and path; it is
    never an empty list. *)
Theorem updatePsbt_bip32Derivation (d : Descriptor) (txHex : string)
        (vout : Z) (psbt psbt' : Psbt) (i : Z) :
  updatePsbt d txHex vout psbt = (psbt', Ok i) ->
  exists input,
    psbt_inputs psbt' = psbt_inputs psbt ++ [input] /\
    match bip32Derivation input with
    | Some derivations =>
        derivations <> nil /\
        exists expansionMap,
          d_expansionMap d = Some expansionMap /\
          forall derivation,
            In derivation derivations <->
            exists keyInfo,
              In keyInfo (Object_values expansionMap) /\
              masterFingerprint keyInfo
              = Some (bd_masterFingerprint derivation) /\
              path keyInfo = Some (bd_path derivation) /\
              bd_path derivation <> EmptyString /\
              bd_pubkey derivation = ki_pubkey keyInfo
    | None =>
        forall expansionMap keyInfo,
          d_expansionMap d = Some expansionMap ->
          In keyInfo (Object_values expansionMap) ->
          ~ has_origin keyInfo
    end.
Proof.
  intros Hrun.
  destruct (updatePsbt_ok d txHex vout psbt psbt' i Hrun)
    as (tx & out & lockTime & sequence & segwit & input & _ & _ & _ & _
        & _ & _ & _ & Hinputs & _ & _ & _ & _ & _ & Hbip & _).
  exists input. split; [assumption|]. rewrite Hbip.
  destruct (d_expansionMap d) as [expansionMap|]; [|discriminate].
  destruct (bip32Derivations expansionMap) as [|first rest] eqn:Hlist.
  - cbn [List.length Nat.ltb Nat.leb].
    intros m keyInfo [= <-] Hin.
    now apply (bip32Derivations_nil expansionMap).
  - cbn [List.length Nat.ltb Nat.leb]. split; [discriminate|].
    exists expansionMap. split; [reflexivity|].
    intros derivation. rewrite <- Hlist. apply bip32Derivations_In.
Qed.

(** X13.  The lock time after a successful [updatePsbt]: a descriptor
    without a lock time leaves the lock time of the [Psbt] alone; one with
    a lock time is only accepted by a [Psbt] whose lock time is unset or
    zero, and its lock time is then the one of the [Psbt]. *)
Theorem updatePsbt_locktime (d : Descriptor) (txHex : string) (vout : Z)
        (psbt psbt' : Psbt) (i : Z) :
  updatePsbt d txHex vout psbt = (psbt', Ok i) ->
  exists lockTime,
    getLockTime d = Ok lockTime /\
    match lockTime with
    | Some l =>
        (psbt_locktime psbt = None \/ psbt_locktime psbt = Some 0) /\
        psbt_locktime psbt' = Some l
    | None => psbt_locktime psbt' = psbt_locktime psbt
    end.
Proof.
  intros Hrun.
  destruct (updatePsbt_ok d txHex vout psbt psbt' i Hrun)
    as (tx & out & lockTime & sequence & segwit & input & _ & _ & Hlock
        & _ & _ & Hunset & Hset & _).
  exists lockTime. split; [assumption|].
  destruct lockTime as [l|]; [|assumption].
  split; [apply Hunset; discriminate | assumption].
Qed.

(** X14.  [updatePsbt] sets the lock time before it makes its remaining
    checks.  For a descriptor with a lock time, once the transaction
    parses and has the output: a [Psbt] with a lock time other than zero
    is refused and left as it was; for any other [Psbt], when
    [psbt.setLocktime] refuses the lock time, its error is thrown and the
    [Psbt] is left as it was, and when it accepts it, the lock time of the
    descriptor is in the [Psbt] after the call, also when the call then
    throws (for a sequence above [0xfffffffe], an undetermined segwit
    flag, a missing output script or an input that the [Psbt] refuses). *)
Theorem updatePsbt_locktime_written_first (d : Descriptor)
        (txHex : string) (vout : Z) (psbt : Psbt) (tx : Transaction)
        (out : TxOutput) (lockTime : Z) :
  Transaction_fromHex txHex = Ok tx ->
  Array_at (outs tx) vout = Some out ->
  getLockTime d = Ok (Some lockTime) ->
  (forall l, psbt_locktime psbt = Some l -> l <> 0 ->
     updatePsbt d txHex vout psbt
     = (psbt, Throw (ErrLocktimeAlreadySet l))) /\
  (psbt_locktime psbt = None \/ psbt_locktime psbt = Some 0 ->
   match Psbt_checkLocktime psbt lockTime with
   | Ok _ =>
       psbt_locktime (fst (updatePsbt d txHex vout psbt)) = Some lockTime
   | Throw e => updatePsbt d txHex vout psbt = (psbt, Throw e)
   end).
Proof.
  intros Htx Hout Hlock.
  assert (Hrest :
            forall k : unit -> PsbtM Z,
              (forall u, keeps_locktime (k u)) ->
              match Psbt_checkLocktime psbt lockTime with
              | Ok _ =>
                  psbt_locktime
                    (fst (bindM (setLocktime lockTime) k psbt))
                  = Some lockTime
              | Throw e =>
                  bindM (setLocktime lockTime) k psbt = (psbt, Throw e)
              end).
  { intros k Hk. unfold bindM, setLocktime.
    destruct (Psbt_checkLocktime psbt lockTime); [|reflexivity].
    now rewrite Hk. }
  unfold updatePsbt.
  rewrite Htx, bindM_liftM_ok, Hout, Hlock, bindM_liftM_ok, bindM_getPsbt.
  split.
  - intros l Hl Hnonzero. rewrite Hl.
    apply Z.eqb_neq in Hnonzero. rewrite Hnonzero. reflexivity.
  - intros [Hl | Hl]; rewrite Hl; cbn [Z.eqb negb];
      apply (Hrest (fun _ => _)); intros _; cbv zeta; keeps.
Qed.
End UpdatePsbtProperties.

(** ** [finalizePsbtInput] and the declared signers *)

Lemma mapM_throws {A B : Type} (f : A -> Result B) (before after : list A)
      (x : A) (err : Error) :
  Forall (fun y => succeeds (f y)) before ->
  f x = Throw err ->
  mapM f (before ++ x :: after) = Throw err.
Proof.
  intros Hbefore Hx. induction Hbefore as [|y before Hy _ IH]; simpl.
  - now rewrite Hx.
  - destruct (f y); [|contradiction]. simpl. now rewrite IH.
Qed.

Section FinalizeFacts.
Context {rt : JsRuntime} {lib : Collaborators}.

Lemma constructor_plain (a : Params) (e : string) (d : Descriptor) :
  evaluate (expression a) (checksumRequired a) (index a) = Ok e ->
  miniscript_bearing (production e) = false ->
  Descriptor_constructor a = Ok d ->
  d_miniscript d = None.
Proof.
  intros Heval Hplain Hd.
  destruct (constructor_evaluated a d Hd) as (e' & Heval' & Hcases).
  assert (e' = e) by congruence. subst e'.
  destruct Hcases as [Haddr | [Hkey | Hmini]]; [| |congruence].
  - now destruct (constructor_address a e d Heval Haddr Hd) as (payment & ->).
  - now destruct (constructor_single_key a e d Heval Hkey Hd)
      as (k & keyInfo & payment & segwit & _ & _ & _ & _ & _ & _ & ->).
Qed.

(** X15.  [finalizePsbtInput] on a constructed descriptor never falls
    back on the standard finalizers: when it returns, the descriptor
    carries a miniscript, the input had partial signatures, and the input
    was finalized with the script satisfaction computed from these
    signatures, for the network given to the constructor. *)
Theorem finalizePsbtInput_uses_satisfaction (a : Params) (d : Descriptor)
        (i : Z) (inputs : list PsbtDataInput) (call : FinalizeInputCall) :
  Descriptor_constructor a = Ok d ->
  finalizePsbtInput d i inputs = Ok call ->
  exists e input signatures satisfaction,
    evaluate (expression a) (checksumRequired a) (index a) = Ok e /\
    miniscript_bearing (production e) = true /\
    Array_at inputs i = Some input /\
    partialSig input = Some signatures /\
    getScriptSatisfaction d signatures = Ok satisfaction /\
    call = FinalizeWith i satisfaction (network a).
Proof.
  intros Hd Hcall. unfold finalizePsbtInput in Hcall. cbv zeta in Hcall.
  destruct (Array_at inputs i) as [input|]; [|discriminate].
  destruct (partialSig input) as [signatures|] eqn:Hsigs; [|discriminate].
  apply bind_ok in Hcall as (satisfaction & Hsat & Hcall).
  cbn [Buffer_falsy] in Hcall. injection Hcall as <-.
  destruct (constructor_evaluated a d Hd) as (e & Heval & _).
  exists e, input, signatures, satisfaction.
  destruct (miniscript_bearing (production e)) eqn:Hmini.
  - destruct (constructor_script a e d Heval Hmini Hd)
      as (m & em & map & script & ops & payment & segwit & _ & _ & _ & _
          & _ & _ & _ & _ & _ & _ & ->).
    repeat split; assumption.
  - exfalso.
    pose proof (constructor_plain a e d Heval Hmini Hd) as Hplain.
    destruct (plain_descriptor d Hplain) as [Hthrow _].
    rewrite Hthrow in Hsat. discriminate.
Qed.

(** X16.  A descriptor without miniscript ([addr], [pk], [pkh],
    [sh(wpkh)], [wpkh]) cannot be finalized by [finalizePsbtInput]: for
    every input the call throws, for want of signatures or, with
    signatures, because there is no miniscript to satisfy. *)
Theorem finalizePsbtInput_needs_miniscript (a : Params) (e : string)
        (d : Descriptor) (i : Z) (inputs : list PsbtDataInput) :
  evaluate (expression a) (checksumRequired a) (index a) = Ok e ->
  miniscript_bearing (production e) = false ->
  Descriptor_constructor a = Ok d ->
  finalizePsbtInput d i inputs =
  Throw (match Array_at inputs i with
         | Some input =>
             match partialSig input with
             | Some _ => ErrNotExpandedSatisfaction
             | None => ErrNoSignatures
             end
         | None => ErrNoSignatures
         end).
Proof.
  intros Heval Hmini Hd.
  pose proof (constructor_plain a e d Heval Hmini Hd) as Hplain.
  destruct (plain_descriptor d Hplain) as [Hthrow _].
  unfold finalizePsbtInput. cbv zeta.
  destruct (Array_at inputs i) as [input|]; [|reflexivity].
  destruct (partialSig input) as [signatures|]; [|reflexivity].
  now rewrite Hthrow.
Qed.
End FinalizeFacts.

(** ** The declared signers *)

Section SignerFacts.
Context {rt : JsRuntime} {lib : Collaborators}.

(** The scrutinee that decides the next step of a computation. *)
Ltac scrutinee t :=
  lazymatch t with
  | bind ?r _ => scrutinee r
  | match ?x with _ => _ end => scrutinee x
  | _ => t
  end.

Ltac branches :=
  repeat (cbn [bind];
          lazymatch goal with
          | |- Ok _ = _ => fail
          | |- Throw _ = _ => fail
          | |- ?lhs = _ => let x := scrutinee lhs in destruct x
          end);
  cbn [bind]; try reflexivity.

Lemma dispatch_signers (e : string) (a : Params)
      (declared : option (list string)) :
  dispatch e (with_signersKeyExpressions a declared) =
  (d <- dispatch e a ;; Ok (declare d declared)).
Proof.
  unfold dispatch, construct_addr, construct_pk, construct_pkh,
    construct_sh_wpkh, construct_wpkh, construct_sh_wsh, construct_sh,
    construct_wsh, single_key, try_assign.
  cbn [with_signersKeyExpressions network preimages allowMiniscriptInP2SH
       signersKeyExpressions].
  destruct (production e); branches.
Qed.
End SignerFacts.

Section SignerProperties.
Context {rt : JsRuntime} {lib : Collaborators}.

(** The constructor stores the declared signers and does nothing else with
    them. *)
Lemma constructor_signers (a : Params) (declared : option (list string)) :
  Descriptor_constructor (with_signersKeyExpressions a declared) =
  (d <- Descriptor_constructor a ;; Ok (declare d declared)).
Proof.
  rewrite !constructor_dispatch.
  cbn [with_signersKeyExpressions expression checksumRequired index].
  destruct (evaluate _ _ _) as [e|err]; [|reflexivity].
  cbn [bind]. apply dispatch_signers.
Qed.

(** X17.  The declared signers are not looked at by the constructor, only
    by the methods that derive the time constraints.  Whenever a
    miniscript descriptor can be constructed, it can be constructed with
    any declared signers, with the same payment and expansion; and when a
    declared key expression does not parse, [getLockTime], [getSequence]
    and [getScriptSatisfaction] of the descriptor so constructed throw the
    error of the first declared key expression that fails to parse. *)
Theorem failing_signer_blocks_time_constraints (a : Params) (e : string)
        (d : Descriptor) (segwit : bool) (before after : list string)
        (k : string) (err : Error) :
  evaluate (expression a) (checksumRequired a) (index a) = Ok e ->
  miniscript_bearing (production e) = true ->
  Descriptor_constructor a = Ok d ->
  segwit_of (production e) = Some segwit ->
  Forall (fun k' => succeeds (parseKeyExpression k' (network a) segwit))
         before ->
  parseKeyExpression k (network a) segwit = Throw err ->
  exists d',
    Descriptor_constructor
      (with_signersKeyExpressions a (Some (before ++ k :: after)))
    = Ok d' /\
    getPayment d' = getPayment d /\
    expand d' = expand d /\
    getLockTime d' = Throw err /\
    getSequence d' = Throw err /\
    forall signatures, getScriptSatisfaction d' signatures = Throw err.
Proof.
  intros Heval Hmini Hd Hsegwit Hbefore Hk.
  exists (declare d (Some (before ++ k :: after))).
  split; [rewrite constructor_signers, Hd; reflexivity|].
  split; [reflexivity|]. split; [reflexivity|].
  destruct (constructor_script a e d Heval Hmini Hd)
    as (m & em & map & script & ops & payment & segwit' & _ & Hm & Hsegwit'
        & _ & _ & _ & _ & _ & _ & _ & Hshape).
  assert (segwit' = segwit) by congruence. subst segwit'.
  set (d' := declare d (Some (before ++ k :: after))).
  assert (Hfields :
            d_miniscript d' = Some m /\
            d_expandedMiniscript d' = Some em /\
            d_expansionMap d' = Some map /\
            d_isSegwit d' = Some segwit /\
            d_signersKeyExpressions d' = Some (before ++ k :: after) /\
            d_network d' = network a)
    by (subst d'; rewrite Hshape; repeat split).
  destruct Hfields as (Hmini' & Hem & Hmap & Hflag & Hdeclared & Hnetwork).
  assert (Hconstraints : getTimeConstraints d' = Throw err).
  { unfold getTimeConstraints.
    rewrite Hmini', Hm, Hem, Hmap, Hflag, Hdeclared, Hnetwork.
    rewrite (mapM_throws _ before after k err); [reflexivity| |].
    - apply Forall_impl with (2 := Hbefore). intros k' Hk'.
      destruct (parseKeyExpression k' (network a) segwit);
        [exact I | contradiction].
    - now rewrite Hk. }
  assert (Hlock : getLockTime d' = Throw err)
    by (unfold getLockTime; now rewrite Hconstraints).
  split; [exact Hlock|]. split.
  - unfold getSequence. now rewrite Hconstraints.
  - intros signatures. unfold getScriptSatisfaction.
    now rewrite Hmini', Hem, Hmap, Hlock.
Qed.
End SignerProperties.

(* ===================================================================== *)
(** * The model on the sample descriptors *)

Module Examples.
Import Sample.

(** Closes a goal between closed terms by evaluation. *)
Ltac run := vm_compute; reflexivity.

(** The checksum agrees with the reference implementation on published
    descriptors. *)
Example checksum_vectors :
  DescriptorChecksum "raw(deadbeef)" = "89f8spxm"
  /\ DescriptorChecksum "addr(mkmZxiEcEd8ZqjQWVZuC6so5dFMKEFpN2j)" = "02wpgw69"
  /\ DescriptorChecksum ranged_body = "cjjspncu"
  /\ DescriptorChecksum pk_body = "gn28ywm7".
Proof. vm_compute. repeat split. Qed.

(** Under the sample runtime, where a buffer compares as the number its
    text denotes, [countNonPushOnlyOPs] counts a push of the two bytes that
    read 97 next to the one operation that follows it. *)
Example numeric_push_is_counted :
  countNonPushOnlyOPs (push [b 0x39; b 0x37] ++ [OP_CHECKSEQUENCEVERIFY])
  = Ok 2.
Proof. reflexivity. Qed.

(** C2.  A witness script within the limits that is refused.  The
    miniscript [and_v(v:pk(K),and_v(v:older(14137),...,older(14137)))] with
    68 locks compiles to a script of 374 bytes with 136 operations other
    than pushes; its 68 pushes of the number 14137 are the two bytes that
    read [97], which [countNonPushOnlyOPs] counts as well, so that both
    [wsh] and [sh(wsh)] throw for 204 operations where the limit is 201. *)
Example numeric_pushes_refused_in_wsh :
  miniscript2Script (m_numeric 67) [("@0", K_info)]
  = Ok (script_numeric 67)
  /\ byteLength (script_numeric 67) = 374
  /\ option_map non_push_ops (bscript_decompile (script_numeric 67))
     = Some 136
  /\ option_map numeric_pushes (bscript_decompile (script_numeric 67))
     = Some 68
  /\ Descriptor_constructor (wsh_numeric 67)
     = Throw (ErrTooManyNonPushOps 204)
  /\ Descriptor_constructor (sh_wsh_numeric 67)
     = Throw (ErrTooManyNonPushOps 204).
Proof. vm_compute. repeat split. Qed.

(** C3.  A bare [sh(MINISCRIPT)] with the opt-in flag set whose miniscript
    compiles, to a redeem script of 374 bytes, within the limit of 520,
    and is refused: the script has 136 operations other than pushes, and
    [countNonPushOnlyOPs] adds to them its 68 pushes of the number 14137,
    whose two bytes read [97]. *)
Example numeric_pushes_refused_in_sh :
  allowMiniscriptInP2SH (sh_numeric 67) = true
  /\ miniscript2Script (m_numeric 67) [("@0", K_info)]
     = Ok (script_numeric 67)
  /\ byteLength (script_numeric 67) = 374
  /\ option_map non_push_ops (bscript_decompile (script_numeric 67))
     = Some 136
  /\ Descriptor_constructor (sh_numeric 67)
     = Throw (ErrTooManyNonPushOps 204).
Proof. vm_compute. repeat split. Qed.

Example wsh_older_time_constraints :
  getTimeConstraints (constructed wsh_older)
  = Ok (Some (mkTimeConstraints None (Some 10))).
Proof. reflexivity. Qed.

Lemma witness_script_limits_sample :
  exists d,
    Descriptor_constructor wsh_older = Ok d
    /\ getWitnessScript d = Some script_older.
Proof.
  destruct (witness_script_limits (rt := runtime) (lib := collaborators)
              wsh_older
              ("wsh(and_v(v:pk(" ++ K ++ "),older(10)))")%string
              ("and_v(v:pk(" ++ K ++ "),older(10))")%string
              m_older [("@0", K_info)] script_older
              ltac:(run) ltac:(right; run) ltac:(run)
              ltac:(discriminate) ltac:(run) ltac:(run)) as [_ Hops].
  destruct (Hops 2 ltac:(run)) as (_ & _ & Haccept).
  destruct (Haccept ltac:(vm_compute; discriminate) ltac:(lia)
              (d_payment (constructed wsh_older)) ltac:(run))
    as (d & Hd & Hscript & _).
  exists d. split; assumption.
Defined.

Lemma sh_miniscript_limits_sample :
  exists d,
    Descriptor_constructor (sh_chain 99 true) = Ok d
    /\ getRedeemScript d = Some (script_chain 99).
Proof.
  destruct (sh_miniscript_limits (rt := runtime) (lib := collaborators)
              (sh_chain 99 true)
              ("sh(and_v(v:pk(" ++ K ++ ")," ++ chain 99 ++ "))")%string
              ("and_v(v:pk(" ++ K ++ ")," ++ chain 99 ++ ")")%string
              ltac:(run) ltac:(run) ltac:(run) ltac:(discriminate))
    as [_ Hscript].
  destruct (Hscript (m_chain 99) [("@0", K_info)] (script_chain 99)
              ltac:(run) ltac:(run)) as [_ Hallowed].
  destruct (Hallowed ltac:(left; reflexivity)) as [_ Hops].
  destruct (Hops 200 ltac:(vm_compute; discriminate) ltac:(run))
    as [_ Haccept].
  destruct (Haccept ltac:(lia) (d_payment (constructed (sh_chain 99 true)))
              ltac:(run)) as (d & Hd & Hredeem & _).
  exists d. split; assumption.
Defined.

Lemma checksum_validation_sample :
  checked_body (pk_body ++ "#gn28ywm7") false = Ok pk_body
  /\ Descriptor_constructor (default_params ("pk(" ++ K ++ "}#gn28ywm7"))
     = Throw ErrInvalidChecksum
  /\ Descriptor_constructor (default_params (pk_body ++ "#gn28ywmq"))
     = Throw ErrInvalidChecksum.
Proof.
  assert (Hvalid : valid_body pk_body) by run.
  destruct (checksum_validation (rt := runtime) (lib := collaborators)
              (default_params (pk_body ++ "#gn28ywm7")) pk_body Hvalid)
    as [Hpass _].
  destruct (checksum_validation (rt := runtime) (lib := collaborators)
              (default_params ("pk(" ++ K ++ "}#gn28ywm7")) pk_body Hvalid)
    as (_ & Hbody & _).
  destruct (checksum_validation (rt := runtime) (lib := collaborators)
              (default_params (pk_body ++ "#gn28ywmq")) pk_body Hvalid)
    as (_ & _ & Hchecksum).
  split; [exact (proj1 (Hpass ltac:(run)))|]. split.
  - apply (Hbody ("pk(" ++ K ++ "}")%string); [|run].
    unfold pk_body, K. cbn [append].
    repeat (apply substitution_later). apply substitution_here. discriminate.
  - apply (Hchecksum "gn28ywmq" ltac:(vm_compute;
             repeat (apply substitution_later);
             apply substitution_here; discriminate) ltac:(run)).
Defined.

(** Replacing the last character of the checksum by a capital letter, which
    no checksum contains, does not lead to the checksum-mismatch error:
    [evaluate] returns the text unchanged when no checksum is required, which
    then fails to parse, and reports a missing checksum when one is
    required. *)
Lemma checksum_character_outside_charset :
  DescriptorChecksum pk_body = "gn28ywm7"
  /\ substitution "gn28ywm7" "gn28ywmB"
  /\ evaluate (pk_body ++ "#gn28ywmB") false None
     = Ok (pk_body ++ "#gn28ywmB")%string
  /\ Descriptor_constructor (default_params (pk_body ++ "#gn28ywmB"))
     = Throw ErrCouldNotParse
  /\ Descriptor_constructor
       (mkParams (pk_body ++ "#gn28ywmB") None true false networks_bitcoin
          nil None)
     = Throw ErrNoChecksum.
Proof.
  split; [reflexivity|]. split.
  - repeat (apply substitution_later). apply substitution_here. discriminate.
  - vm_compute. repeat split.
Qed.


Lemma addr_keeps_last_template_sample :
  exists d,
    Descriptor_constructor addr_sample = Ok d
    /\ pay_output (getPayment d) = Some sample_address_script.
Proof.
  pose proof (addr_keeps_last_template (rt := runtime)
                (lib := collaborators) addr_sample
                ("addr(" ++ sample_address ++ ")")%string sample_address
                ltac:(run) ltac:(run) ltac:(discriminate)) as Hlast.
  change (address_toOutputScript sample_address (network addr_sample))
    with (@Ok Buffer sample_address_script) in Hlast.
  cbv zeta iota in Hlast. destruct Hlast as [Hlast _].
  destruct (proj1 (Hlast (d_payment (constructed addr_sample))))
    as (d & Hd & Hp).
  - exists nil. eexists. split; [run|].
    repeat constructor.
  - exists d. split; [exact Hd|]. rewrite Hp. run.
Defined.

Lemma wildcard_index_checked_sample :
  Descriptor_constructor (ranged None) = Throw ErrIndexNotProvided
  /\ Descriptor_constructor (ranged (Some (JsInt (-1))))
     = Throw ErrInvalidIndex
  /\ Descriptor_constructor (ranged (Some (JsNonInt "1.5")))
     = Throw ErrInvalidIndex
  /\ evaluate (expression (ranged (Some (JsInt 7)))) true (Some (JsInt 7))
     = Ok (replaceAll_star ranged_body "7").
Proof.
  destruct (wildcard_index_checked (rt := runtime) (lib := collaborators)
              (ranged None) ltac:(run)) as (Hnone & _ & _).
  destruct (wildcard_index_checked (rt := runtime) (lib := collaborators)
              (ranged (Some (JsInt (-1)))) ltac:(run))
    as (_ & Hnegative & _).
  destruct (wildcard_index_checked (rt := runtime) (lib := collaborators)
              (ranged (Some (JsNonInt "1.5"))) ltac:(run))
    as (_ & Hfraction & _).
  destruct (wildcard_index_checked (rt := runtime) (lib := collaborators)
              (ranged (Some (JsInt 7))) ltac:(run))
    as (_ & _ & Haccepted).
  split; [|split; [|split]].
  - destruct (Hnone eq_refl) as (e & -> & [Hbody | ->]); [|reflexivity].
    vm_compute in Hbody. discriminate.
  - destruct (Hnegative _ eq_refl ltac:(right; reflexivity))
      as (e & -> & [Hbody | ->]); [|reflexivity].
    vm_compute in Hbody. discriminate.
  - destruct (Hfraction _ eq_refl ltac:(left; reflexivity))
      as (e & -> & [Hbody | ->]); [|reflexivity].
    vm_compute in Hbody. discriminate.
  - exact (Haccepted 7 ranged_body eq_refl ltac:(lia) ltac:(run)).
Defined.

Lemma range_substitution_lockstep_sample :
  evaluate (ranged_body ++ "#cjjspncu") true (Some (JsInt 7))
  = Ok (String.concat "7" (segments ranged_body))
  /\ evaluate (ranged_body ++ "#cjjspncu") true (Some (JsInt 8))
     = Ok (String.concat "8" (segments ranged_body))
  /\ List.length (segments ranged_body) = 2%nat.
Proof.
  destruct (range_substitution_lockstep
              (ranged_body ++ "#cjjspncu") ranged_body true 7
              ltac:(lia) ltac:(run) ltac:(run))
    as (Hat & Hnext & _ & _ & Hcount & _).
  split; [exact Hat | split; [exact Hnext | rewrite Hcount; run]].
Defined.

(** Above [2^53] the index does not print as its decimal notation: the
    number [2^64] prints with the shortest digits that identify it. *)
Lemma index_above_safe_integers :
  evaluate (ranged_body ++ "#cjjspncu") true (Some (JsInt (2 ^ 64)))
  = Ok (replaceAll_star ranged_body "18446744073709552000")
  /\ decimal (2 ^ 64) = "18446744073709551616"
  /\ evaluate (ranged_body ++ "#cjjspncu") true (Some (JsInt (2 ^ 64)))
     <> Ok (replaceAll_star ranged_body (decimal (2 ^ 64))).
Proof.
  split; [run|]. split; [run|].
  vm_compute. discriminate.
Qed.

Lemma updatePsbt_sequence_bound_sample :
  (exists psbt input,
      updatePsbt (constructed wsh_after) "0200000001" 0
        (mkPsbt (Some 0) nil)
      = (psbt, Ok 0)
      /\ psbt_inputs psbt = [input]
      /\ in_sequence input = Some 0xfffffffe)
  /\ (exists psbt input,
         updatePsbt (constructed wsh_after) "0200000001" 0 spent_once
         = (psbt, Throw (ErrCollaborator "Duplicate input detected."))
         /\ psbt_inputs psbt = psbt_inputs spent_once ++ [input]
         /\ in_sequence input = Some 0xfffffffe).
Proof.
  split.
  2:{ pose proof (updatePsbt_sequence_bound (lib := collaborators)
                    (constructed wsh_after) "0200000001" 0 spent_once
                    500000 ltac:(run)) as Hbound.
      destruct (updatePsbt (constructed wsh_after) "0200000001" 0
                  spent_once) as [psbt [i|e]] eqn:Hrun;
        [vm_compute in Hrun; discriminate|].
      destruct Hbound as [[Hsame | (input & s & Happ & Hseq & _)] _];
        vm_compute in Hrun; injection Hrun as <- <-.
      - exfalso. vm_compute in Hsame. discriminate.
      - exists (mkPsbt (Some 500000) (psbt_inputs spent_once ++ [input])),
          input.
        vm_compute in Happ. injection Happ as <-.
        split; [run|]. split; reflexivity. }
  pose proof (updatePsbt_sequence_bound (lib := collaborators)
                (constructed wsh_after) "0200000001" 0 (mkPsbt (Some 0) nil)
                500000 ltac:(run)) as Hbound.
  destruct (updatePsbt (constructed wsh_after) "0200000001" 0
              (mkPsbt (Some 0) nil)) as [psbt [i|e]] eqn:Hrun.
  - destruct Hbound as [(input & s & Happ & _ & Hseq & _ & Hmissing) _].
    exists psbt, input.
    assert (Hi : i = 0)
      by (vm_compute in Hrun; injection Hrun as _ Hi; symmetry; exact Hi).
    subst i. split; [reflexivity|]. split; [exact Happ|].
    change (getSequence (constructed wsh_after)) with (@Ok (option Z) None)
      in Hmissing.
    now rewrite Hseq, Hmissing.
  - vm_compute in Hrun. discriminate.
Defined.

Lemma satisfaction_only_with_miniscript_sample :
  (forall signatures,
      getScriptSatisfaction (constructed wpkh_K) signatures
      = Throw ErrNotExpandedSatisfaction)
  /\ getSequence (constructed wpkh_K) = Ok None
  /\ getLockTime (constructed wpkh_K) = Ok None.
Proof.
  destruct (satisfaction_only_with_miniscript (rt := runtime)
              (lib := collaborators) wpkh_K (constructed wpkh_K)
              ("wpkh(" ++ K ++ ")")%string ltac:(run) ltac:(run))
    as [Hplain _].
  apply Hplain. vm_compute. tauto.
Defined.

End Examples.

(* ===================================================================== *)
(** * Further runs on the sample descriptors *)

Module Runs.
Import Sample.

Ltac run := vm_compute; reflexivity.

Lemma index_ignored_without_wildcard_sample :
  Descriptor_constructor (with_index wpkh_K (Some (JsInt (-1))))
  = Descriptor_constructor wpkh_K.
Proof.
  exact (index_ignored_without_wildcard (rt := runtime)
           (lib := collaborators) wpkh_K (Some (JsInt (-1))) ltac:(run)).
Defined.

Lemma evaluated_expression_has_no_wildcard_sample :
  has_wildcard (replaceAll_star ranged_body "7") = false.
Proof.
  apply (evaluated_expression_has_no_wildcard
           (ranged_body ++ "#cjjspncu") (replaceAll_star ranged_body "7")
           true (Some (JsInt 7))).
  - intros z [= <-]. lia.
  - run.
Defined.

Lemma own_checksum_accepted_sample :
  Descriptor_constructor
    (with_expression (default_params "")
       (pk_body ++ "#" ++ Descriptor_checksum pk_body))
  = Descriptor_constructor
      (with_checksumRequired (with_expression (default_params "") pk_body)
         false).
Proof.
  exact (own_checksum_accepted (rt := runtime) (lib := collaborators)
           (default_params "") pk_body ltac:(run) ltac:(run)).
Defined.

Lemma single_key_descriptor_sample :
  exists keyInfo,
    parseKeyExpression K networks_bitcoin true = Ok keyInfo /\
    expand (constructed wpkh_K) =
    mkExpansion (Some "wpkh(@0)") None None (Some [("@0", keyInfo)]).
Proof.
  destruct (single_key_descriptor (rt := runtime) (lib := collaborators)
              wpkh_K ("wpkh(" ++ K ++ ")")%string (constructed wpkh_K)
              ltac:(run) ltac:(run) ltac:(run))
    as (k & keyInfo & segwit & Hk & _ & Hsegwit & Hparse & _ & Hexpand).
  assert (Hkey : Some k = Some K) by (rewrite <- Hk; run).
  injection Hkey as ->.
  assert (Hflag : Some segwit = Some true) by (rewrite <- Hsegwit; run).
  injection Hflag as ->.
  exists keyInfo. split; [exact Hparse | exact Hexpand].
Defined.

Lemma miniscript_descriptor_sample :
  exists expandedMiniscript expansionMap,
    expand (constructed wsh_older) =
    mkExpansion (Some (wrap PWsh expandedMiniscript))
      (Some ("and_v(v:pk(" ++ K ++ "),older(10))")%string)
      (Some expandedMiniscript) (Some expansionMap).
Proof.
  destruct (miniscript_descriptor (rt := runtime) (lib := collaborators)
              wsh_older ("wsh(and_v(v:pk(" ++ K ++ "),older(10)))")%string
              (constructed wsh_older) ltac:(run) ltac:(run) ltac:(run))
    as (m & em & map & script & segwit & Hm & _ & _ & _ & _ & Hexpand).
  assert (Hmatched :
            Some m = Some ("and_v(v:pk(" ++ K ++ "),older(10))")%string)
    by (rewrite <- Hm; run).
  injection Hmatched as ->. exists em, map. exact Hexpand.
Defined.

Lemma stored_scripts_sample :
  exists script ops,
    getWitnessScript (constructed wsh_older) = Some script /\
    byteLength script <= 3600 /\
    countNonPushOnlyOPs script = Ok ops /\ ops <= 201 /\
    getRedeemScript (constructed wsh_older) = None.
Proof.
  exact (stored_scripts (rt := runtime) (lib := collaborators) wsh_older
           ("wsh(and_v(v:pk(" ++ K ++ "),older(10)))")%string
           (constructed wsh_older) ltac:(run) ltac:(run)).
Defined.

Lemma isSegwit_by_production_sample :
  isSegwit (constructed sh_pk) = Ok false.
Proof.
  exact (isSegwit_by_production (rt := runtime) (lib := collaborators)
           sh_pk ("sh(pk(" ++ K ++ "))")%string (constructed sh_pk)
           ltac:(run) ltac:(run)).
Defined.

Lemma addr_descriptor_updatePsbt_throws_sample :
  exists err,
    updatePsbt (constructed addr_sample) "0200000001" 0 (mkPsbt None nil)
    = (mkPsbt None nil, Throw err).
Proof.
  destruct (addr_descriptor_updatePsbt_throws (rt := runtime)
              (lib := collaborators) addr_sample
              ("addr(" ++ sample_address ++ ")")%string
              (constructed addr_sample) "0200000001" 0 (mkPsbt None nil)
              ltac:(run) ltac:(run) ltac:(run))
    as (_ & err & Hthrow & _).
  exists err. exact Hthrow.
Defined.

Lemma updatePsbt_input_sample :
  exists psbt input,
    updatePsbt (constructed wsh_after) "0200000001" 0 (mkPsbt (Some 0) nil)
    = (psbt, Ok 0)
    /\ psbt_inputs psbt = [input]
    /\ in_index input = 0
    /\ in_witnessScript input = Some script_after.
Proof.
  destruct (updatePsbt (constructed wsh_after) "0200000001" 0
              (mkPsbt (Some 0) nil)) as [psbt [i|e]] eqn:Hrun;
    [|vm_compute in Hrun; discriminate].
  destruct (updatePsbt_input (lib := collaborators)
              (constructed wsh_after) "0200000001" 0 (mkPsbt (Some 0) nil)
              psbt i Hrun)
    as (tx & out & input & _ & _ & Hinputs & Hi & _ & Hindex & _ & Hw & _).
  exists psbt, input. rewrite Hi.
  split; [reflexivity|]. split; [exact Hinputs|]. split; [exact Hindex|].
  rewrite Hw. run.
Defined.

Lemma updatePsbt_bip32Derivation_sample :
  exists psbt input,
    updatePsbt (constructed wsh_after) "0200000001" 0 (mkPsbt (Some 0) nil)
    = (psbt, Ok 0)
    /\ psbt_inputs psbt = [input]
    /\ bip32Derivation input = None.
Proof.
  destruct (updatePsbt (constructed wsh_after) "0200000001" 0
              (mkPsbt (Some 0) nil)) as [psbt [i|e]] eqn:Hrun;
    [|vm_compute in Hrun; discriminate].
  destruct (updatePsbt_bip32Derivation (lib := collaborators)
              (constructed wsh_after) "0200000001" 0 (mkPsbt (Some 0) nil)
              psbt i Hrun)
    as (input & Hinputs & Hbip).
  exists psbt, input.
  assert (Hi : i = 0)
    by (vm_compute in Hrun; injection Hrun as _ Hi; symmetry; exact Hi).
  rewrite Hi. split; [reflexivity|]. split; [exact Hinputs|].
  destruct (bip32Derivation input) as [derivations|]; [|reflexivity].
  destruct Hbip as (Hne & map & Hmap & Hmembers).
  destruct derivations as [|derivation rest]; [now destruct Hne|].
  destruct (proj1 (Hmembers derivation) (or_introl eq_refl))
    as (keyInfo & Hin & Hf & _).
  vm_compute in Hmap. injection Hmap as <-.
  destruct Hin as [<-|[]]. discriminate Hf.
Defined.

Lemma updatePsbt_locktime_sample :
  exists psbt,
    updatePsbt (constructed wsh_after) "0200000001" 0 (mkPsbt (Some 0) nil)
    = (psbt, Ok 0)
    /\ psbt_locktime psbt = Some 500000.
Proof.
  destruct (updatePsbt (constructed wsh_after) "0200000001" 0
              (mkPsbt (Some 0) nil)) as [psbt [i|e]] eqn:Hrun;
    [|vm_compute in Hrun; discriminate].
  destruct (updatePsbt_locktime (lib := collaborators)
              (constructed wsh_after) "0200000001" 0 (mkPsbt (Some 0) nil)
              psbt i Hrun)
    as (lockTime & Hlock & Hset).
  exists psbt.
  assert (Hi : i = 0)
    by (vm_compute in Hrun; injection Hrun as _ Hi; symmetry; exact Hi).
  rewrite Hi. split; [reflexivity|].
  vm_compute in Hlock. injection Hlock as <-.
  exact (proj2 Hset).
Defined.

Lemma updatePsbt_locktime_written_first_sample :
  psbt_locktime spent_once = Some 0
  /\ (exists psbt,
         updatePsbt (constructed wsh_after) "0200000001" 0 spent_once
         = (psbt, Throw (ErrCollaborator "Duplicate input detected."))
         /\ psbt_locktime psbt = Some 500000)
  /\ updatePsbt (constructed wsh_after) "0200000001" 0
       (mkPsbt (Some 7) nil)
     = (mkPsbt (Some 7) nil, Throw (ErrLocktimeAlreadySet 7)).
Proof.
  split; [run|]. split.
  - destruct (updatePsbt_locktime_written_first (lib := collaborators)
                (constructed wsh_after) "0200000001" 0 spent_once
                (mkTransaction [mkTxOutput sample_address_script 100000]
                   (stand_in_digest 32 (hex_decode "0200000001"))
                   (hex_decode "0200000001"))
                (mkTxOutput sample_address_script 100000) 500000
                ltac:(run) ltac:(run) ltac:(run)) as [_ Hwritten].
    specialize (Hwritten ltac:(right; run)).
    change (Psbt_checkLocktime spent_once 500000) with (@Ok unit tt)
      in Hwritten.
    cbv iota in Hwritten.
    destruct (updatePsbt (constructed wsh_after) "0200000001" 0
                spent_once) as [psbt result] eqn:Hrun.
    exists psbt. split; [|exact Hwritten].
    f_equal. vm_compute in Hrun. injection Hrun as _ Hresult.
    symmetry. exact Hresult.
  - destruct (updatePsbt_locktime_written_first (lib := collaborators)
                (constructed wsh_after) "0200000001" 0
                (mkPsbt (Some 7) nil)
                (mkTransaction [mkTxOutput sample_address_script 100000]
                   (stand_in_digest 32 (hex_decode "0200000001"))
                   (hex_decode "0200000001"))
                (mkTxOutput sample_address_script 100000) 500000
                ltac:(run) ltac:(run) ltac:(run)) as [Hrefused _].
    apply (Hrefused 7); [reflexivity | discriminate].
Defined.

Lemma finalizePsbtInput_uses_satisfaction_sample :
  exists signatures satisfaction,
    getScriptSatisfaction (constructed wsh_older) signatures
    = Ok satisfaction /\
    FinalizeWith 0 (push (signature signature_K)) networks_bitcoin
    = FinalizeWith 0 satisfaction networks_bitcoin.
Proof.
  destruct (finalizePsbtInput_uses_satisfaction (rt := runtime)
              (lib := collaborators) wsh_older (constructed wsh_older) 0
              [mkPsbtDataInput (Some [signature_K])]
              (FinalizeWith 0 (push (signature signature_K))
                 networks_bitcoin)
              ltac:(run) ltac:(run))
    as (e & input & signatures & satisfaction & _ & _ & _ & _ & Hsat
        & Hcall).
  exists signatures, satisfaction. split; [exact Hsat | exact Hcall].
Defined.

Lemma finalizePsbtInput_needs_miniscript_sample :
  finalizePsbtInput (constructed wpkh_K) 0
    [mkPsbtDataInput (Some [signature_K])]
  = Throw ErrNotExpandedSatisfaction.
Proof.
  exact (finalizePsbtInput_needs_miniscript (rt := runtime)
           (lib := collaborators) wpkh_K ("wpkh(" ++ K ++ ")")%string
           (constructed wpkh_K) 0 [mkPsbtDataInput (Some [signature_K])]
           ltac:(run) ltac:(run) ltac:(run)).
Defined.

Lemma failing_signer_blocks_time_constraints_sample :
  exists d,
    Descriptor_constructor
      (with_signersKeyExpressions wsh_older (Some [K; "a signer"]))
    = Ok d
    /\ getLockTime d
       = Throw (ErrCollaborator "could not parse the key expression").
Proof.
  destruct (failing_signer_blocks_time_constraints (rt := runtime)
              (lib := collaborators) wsh_older (expression wsh_older)
              (constructed wsh_older) true [K] nil "a signer"
              (ErrCollaborator "could not parse the key expression")
              ltac:(run) ltac:(run) ltac:(run) ltac:(run)
              ltac:(repeat constructor) ltac:(run))
    as (d & Hd & _ & _ & Hlock & _).
  exists d. split; [exact Hd | exact Hlock].
Defined.

End Runs.
